(** * Workflow execution engine (vscode/src/workflow/workflow-executor.ts)

    A shallow embedding of the workflow executor: the edge index, the
    topological sorter, the parent-output combiner, placeholder
    substitution, the node executors and the orchestrator loop, together
    with the properties the specification states about them.

    JavaScript strings are modelled as [string]; one [ascii] stands for one
    code unit in the range 0..255.  Maps ([Map<string, _>]) are [gmap string _],
    the set of inactive ids is a [gset string]. *)

From Stdlib Require Import ZArith NArith QArith.
From Stdlib Require Import Ascii String.
From stdpp Require Import base gmap sets list strings fin_maps.

Set Warnings "-clear-no-such-hyp".

Local Open Scope string_scope.
Local Open Scope list_scope.

(** * Part I: the program *)

(** ** JavaScript string primitives *)

Module JsString.

(** Code units that [\s] and [String.prototype.trim] treat as white space,
    restricted to the code units 0..255: TAB, LF, VT, FF, CR, SPACE, NBSP. *)
Definition is_ws (c : ascii) : bool :=
  let n := nat_of_ascii c in
  ((9 <=? n)%nat && (n <=? 13)%nat) || (n =? 32)%nat || (n =? 160)%nat.

(** [\d] : the ASCII digits only. *)
Definition is_digit (c : ascii) : bool :=
  let n := nat_of_ascii c in (48 <=? n)%nat && (n <=? 57)%nat.

Definition digit_value (c : ascii) : N := N.of_nat (nat_of_ascii c - 48).

(** [s.length] as an integer. *)
Definition strlen (s : string) : Z := Z.of_nat (String.length s).

Fixpoint trimStart (s : string) : string :=
  match s with
  | String c s' => if is_ws c then trimStart s' else s
  | EmptyString => EmptyString
  end.

(** Drops the white space at the end: a character is kept when it is not
    white space or when something that is kept follows it. *)
Fixpoint trimEnd (s : string) : string :=
  match s with
  | String c s' =>
      match trimEnd s' with
      | EmptyString => if is_ws c then EmptyString else String c EmptyString
      | r => String c r
      end
  | EmptyString => EmptyString
  end.

(** [s.trim()] *)
Definition trim (s : string) : string := trimEnd (trimStart s).

(** [s.startsWith(p)] *)
Fixpoint startsWith (s p : string) : bool :=
  match p, s with
  | EmptyString, _ => true
  | String a p', String b s' => if Ascii.eqb a b then startsWith s' p' else false
  | String _ _, EmptyString => false
  end.

(** [s.includes(p)] *)
Fixpoint includes (s p : string) : bool :=
  startsWith s p ||
  match s with
  | String _ s' => includes s' p
  | EmptyString => false
  end.

(** [s.replace(/\r\n/g, '\n')] *)
Fixpoint replace_crlf (s : string) : string :=
  match s with
  | String c s' =>
      match s' with
      | String d s'' =>
          if Ascii.eqb c "013" && Ascii.eqb d "010"
          then String "010" (replace_crlf s'')
          else String c (replace_crlf s')
      | EmptyString => s
      end
  | EmptyString => EmptyString
  end.

(** [parts.join(sep)] *)
Fixpoint join (sep : string) (parts : list string) : string :=
  match parts with
  | [] => ""
  | [p] => p
  | p :: ps => p +:+ sep +:+ join sep ps
  end.

(** JavaScript truthiness of an optional string: [undefined] and [''] are
    falsy. *)
Definition truthy (o : option string) : bool :=
  match o with
  | Some (String _ _) => true
  | _ => false
  end.

End JsString.

Import JsString.

(** ** Data model *)

(** Modelled from the spec: the [NodeType] enum of
    webviews/workflow/components/nodes/Nodes.ts is not among the sources.
    The five kinds are the ones the orchestrator dispatches on; [OTHER]
    stands for any other string found in the [type] field at run time. *)
Inductive NodeType : Type :=
| CLI | LLM | PREVIEW | INPUT | SEARCH_CONTEXT
| OTHER (name : string).

(** [node.data]: the fields the executor reads. *)
Record NodeData : Type := mkData {
  title : string;
  content : option string;
  active : option bool;
  needsUserApproval : bool;
  maxTokens : option Z;
  temperature : option Q;
  fast : option bool
}.

Record WorkflowNodes : Type := mkNode {
  id : string;
  type : NodeType;
  data : NodeData
}.

Record Edge : Type := mkEdge {
  edge_id : string;
  source : string;
  target : string
}.

Record IndexedEdges : Type := mkIndex {
  bySource : gmap string (list Edge);
  byTarget : gmap string (list Edge);
  byId : gmap string Edge
}.

(** ** Edge index *)

Definition index_edge (idx : IndexedEdges) (edge : Edge) : IndexedEdges :=
  let sourceEdges := default [] (bySource idx !! source edge) ++ [edge] in
  let targetEdges := default [] (byTarget idx !! target edge) ++ [edge] in
  {| bySource := <[source edge := sourceEdges]> (bySource idx);
     byTarget := <[target edge := targetEdges]> (byTarget idx);
     byId := <[edge_id edge := edge]> (byId idx) |}.

Definition createEdgeIndex (edges : list Edge) : IndexedEdges :=
  fold_left index_edge edges {| bySource := ∅; byTarget := ∅; byId := ∅ |}.

(** ** Topological sorter *)

(** The values held by the [inDegree] map: an integer, or [NaN] once
    [undefined - 1] has been stored for an id that is not a node. *)
Inductive jsnum : Type :=
| Num (z : Z)
| NaN.

Global Instance jsnum_eq_dec : EqDecision jsnum.
Proof. solve_decision. Defined.

(** [inDegree.get(id)! - 1] *)
Definition js_pred (o : option jsnum) : jsnum :=
  match o with
  | Some (Num z) => Num (z - 1)
  | _ => NaN
  end.

(** [n === 0] *)
Definition js_is_zero (n : jsnum) : bool :=
  match n with
  | Num z => (z =? 0)%Z
  | NaN => false
  end.

(** One turn of the inner [for (const edge of outgoingEdges)] loop. *)
Definition relax_edge (st : gmap string jsnum * list string) (edge : Edge)
  : gmap string jsnum * list string :=
  let targetInDegree := js_pred (st.1 !! target edge) in
  (<[target edge := targetInDegree]> st.1,
   if js_is_zero targetInDegree then st.2 ++ [target edge] else st.2).

(** The [while (queue.length > 0)] loop; [None] when the fuel runs out. *)
Fixpoint kahn_loop (fuel : nat) (edgeIndex : IndexedEdges)
    (inDegree : gmap string jsnum) (queue result : list string)
  : option (list string) :=
  match queue with
  | [] => Some result
  | nodeId :: queue' =>
      match fuel with
      | O => None
      | S fuel' =>
          let outgoingEdges := default [] (bySource edgeIndex !! nodeId) in
          let st := fold_left relax_edge outgoingEdges (inDegree, queue') in
          kahn_loop fuel' edgeIndex st.1 st.2 (result ++ [nodeId])
      end
  end.

(** [new Map(nodes.map(node => [node.id, node]))]: a later node with the
    same id replaces an earlier one. *)
Definition build_nodeIndex (nodes : list WorkflowNodes) : gmap string WorkflowNodes :=
  fold_left (fun m node => <[id node := node]> m) nodes ∅.

Definition init_inDegree (edgeIndex : IndexedEdges) (nodes : list WorkflowNodes)
  : gmap string jsnum :=
  fold_left
    (fun m node =>
       <[id node := Num (Z.of_nat (List.length (default [] (byTarget edgeIndex !! id node))))]> m)
    nodes ∅.

(** The sorted ids, before they are mapped back to nodes.  Every pass of the
    loop moves one id from the queue to the result; on no input the loop makes
    more than [length nodes] passes (lemma [topologicalSort_total]), so the
    fuel is never used up. *)
Definition sorted_ids (nodes : list WorkflowNodes) (edges : list Edge)
  : option (list string) :=
  let edgeIndex := createEdgeIndex edges in
  let inDegree := init_inDegree edgeIndex nodes in
  let sourceNodes := filter (λ node, inDegree !! id node = Some (Num 0)) nodes in
  let queue := id <$> sourceNodes in
  kahn_loop (List.length nodes) edgeIndex inDegree queue [].

(** [result.map(id => nodeIndex.get(id)!).filter(Boolean)] *)
Definition topologicalSort (nodes : list WorkflowNodes) (edges : list Edge)
  : option (list WorkflowNodes) :=
  let nodeIndex := build_nodeIndex nodes in
  match sorted_ids nodes edges with
  | Some result => Some (omap (fun i => nodeIndex !! i) result)
  | None => None
  end.

(** ** Placeholder substitution *)

(** Reads the run of decimal digits at the head of [s]: the number read so far
    (as [parseInt(_, 10)] gives it), the number of digits, and what follows. *)
Fixpoint read_digits (s : string) (acc : N) (len : nat) : N * nat * string :=
  match s with
  | String c s' =>
      if is_digit c then read_digits s' (10 * acc + digit_value c)%N (S len)
      else (acc, len, s)
  | EmptyString => (acc, len, s)
  end.

(** [Number.parseInt(ds, 10)] of a string of digits. *)
Definition parseInt (ds : string) : N := (read_digits ds 0%N 0%nat).1.1.

(** A match of [/\${(\d+)}/] at the head of [s]: the index captured by the
    group and the length of the whole match.  The digits are taken greedily;
    the closing brace can only follow the whole run. *)
Definition match_placeholder (s : string) : option (N * nat) :=
  match s with
  | String c0 (String c1 s1) =>
      if Ascii.eqb c0 "$" && Ascii.eqb c1 "{"
      then
        match read_digits s1 0%N 0%nat with
        | (index, len, String c2 _) =>
            if (0 <? len)%nat && Ascii.eqb c2 "}"
            then Some (index, (3 + len)%nat)
            else None
        | _ => None
        end
      else None
  | _ => None
  end.

(** The callback of the replace: [adjustedIndex] is an exact integer here;
    a number too large for a double is out of range in both readings. *)
Definition indexed_input (index : N) (parentOutputs : list string) : string :=
  let adjustedIndex := (Z.of_N index - 1)%Z in
  if ((0 <=? adjustedIndex)%Z && (adjustedIndex <? Z.of_nat (List.length parentOutputs))%Z)%bool
  then default "" (parentOutputs !! Z.to_nat adjustedIndex)
  else "".

(** [template.replace(/\${(\d+)}/g, callback)]: the scan goes from left to
    right; after a match it resumes behind the match ([skip] counts the
    characters of the match still to pass over). *)
Fixpoint replace_placeholders (skip : nat) (template : string) (parentOutputs : list string)
  : string :=
  match template with
  | EmptyString => EmptyString
  | String c rest =>
      match skip with
      | S skip' => replace_placeholders skip' rest parentOutputs
      | O =>
          match match_placeholder template with
          | Some (index, len) =>
              indexed_input index parentOutputs
                +:+ replace_placeholders (len - 1) rest parentOutputs
          | None => String c (replace_placeholders 0 rest parentOutputs)
          end
      end
  end.

Definition replaceIndexedInputs (template : string) (parentOutputs : list string) : string :=
  replace_placeholders 0 template parentOutputs.

(** ** Parent-output combiner *)

Record IndexedExecutionContext : Type := mkContext {
  nodeOutputs : gmap string string;
  nodeIndex : gmap string WorkflowNodes;
  edgeIndex : IndexedEdges
}.

(** The trailing [.filter(output => output !== undefined)] keeps every entry:
    the callback of the [map] returns a string in both branches. *)
Definition combineParentOutputsByConnectionOrder (nodeId : string)
    (context : IndexedExecutionContext) : list string :=
  let parentEdges := default [] (byTarget (edgeIndex context) !! nodeId) in
  (λ edge,
     match nodeOutputs context !! source edge with
     | None => ""
     | Some output => trim (replace_crlf output)
     end) <$> parentEdges.

(** ** Sanitizers and the denylist *)

(** [input.replace(/\${/g, '\\${')]: in the replacement text [$] followed by
    [{] is no substitution pattern and stands for itself. *)
Fixpoint escape_placeholders (input : string) : string :=
  match input with
  | String "$" (String "{" _ as rest) => String "\" (String "$" (escape_placeholders rest))
  | String c rest => String c (escape_placeholders rest)
  | EmptyString => EmptyString
  end.

(** [input.replace(/\\/g, '\\\\')] *)
Fixpoint escape_backslashes (input : string) : string :=
  match input with
  | String "\" rest => String "\" (String "\" (escape_backslashes rest))
  | String c rest => String c (escape_backslashes rest)
  | EmptyString => EmptyString
  end.

Definition sanitizeForShell (input : string) : string :=
  escape_placeholders (escape_backslashes input).

Definition sanitizeForPrompt (input : string) : string :=
  escape_placeholders input.

Definition commandsNotAllowed : list string :=
  [ "rm"; "chmod"; "shutdown"; "history"; "user"; "sudo"; "su"; "passwd";
    "chown"; "chgrp"; "kill"; "reboot"; "poweroff"; "init"; "systemctl";
    "journalctl"; "dmesg"; "lsblk"; "lsmod"; "modprobe"; "insmod"; "rmmod";
    "lsusb"; "lspci" ].

(** ** Shell command preparation *)

(** [GetSubstitution] of ECMAScript for a replacement text used with a regular
    expression that has one capture group and no named groups. *)
Fixpoint get_substitution (matched before after capture template : string) : string :=
  match template with
  | String "$" rest =>
      match rest with
      | String "$" rest' =>
          String "$" (get_substitution matched before after capture rest')
      | String "&" rest' =>
          matched +:+ get_substitution matched before after capture rest'
      | String "`" rest' =>
          before +:+ get_substitution matched before after capture rest'
      | String "'" rest' =>
          after +:+ get_substitution matched before after capture rest'
      | String "1" rest' =>
          capture +:+ get_substitution matched before after capture rest'
      | String "0" (String "1" rest') =>
          capture +:+ get_substitution matched before after capture rest'
      | _ => String "$" (get_substitution matched before after capture rest)
      end
  | String c rest => String c (get_substitution matched before after capture rest)
  | EmptyString => EmptyString
  end.

(** [content.replaceAll(/(\s~\/)/g, ` ${homeDir}${path.sep}`)]; [before] is
    the text already passed, in reverse. *)
Fixpoint expand_home (replacement : string) (before : string) (skip : nat) (s : string)
  : string :=
  match s with
  | EmptyString => EmptyString
  | String c rest =>
      match skip with
      | S skip' => expand_home replacement (String c before) skip' rest
      | O =>
          match rest with
          | String "~" (String "/" after) =>
              if is_ws c
              then
                let matched := String c "~/" in
                get_substitution matched (String.rev before) after matched replacement
                  +:+ expand_home replacement (String c before) 2 rest
              else String c (expand_home replacement (String c before) 0 rest)
          | _ => String c (expand_home replacement (String c before) 0 rest)
          end
      end
  end.

(** The replace of [convertQuotes]: a double quote (code 34) becomes a single
    quote unless a backslash stands right before it (the negative lookbehind);
    [escaped] tells whether the previous character is a backslash. *)
Fixpoint convert_quotes (escaped : bool) (s : string) : string :=
  match s with
  | EmptyString => EmptyString
  | String c rest =>
      let c' := if Ascii.eqb c "034" && negb escaped then "'"%char else c in
      String c' (convert_quotes (Ascii.eqb c "\") rest)
  end.

(** ** Effects and collaborators *)

Inductive Status : Type :=
| running | pending_approval | completed | error | interrupted.

(** Messages posted to the webview, as the executor builds them: it posts
    five statuses and [token_count], more than the declared message type of
    WorkflowProtocol lists (the casts in the source hide the difference). *)
Inductive WorkflowFromExtension : Type :=
| execution_started
| execution_completed
| node_execution_status (nodeId : string) (status : Status) (result : option string)
| token_count (nodeId : string) (count : nat).

(** A thrown or rejected value: an [Error] with its name and message, or
    anything else, given by what [String(value)] makes of it. *)
Inductive JsValue : Type :=
| JsError (name message : string)
| JsOther (text : string).

(** [new Error(message)] *)
Definition new_Error (message : string) : JsValue := JsError "Error" message.

(** [error instanceof Error ? error.message : String(error)] *)
Definition error_message (v : JsValue) : string :=
  match v with
  | JsError _ message => message
  | JsOther text => text
  end.

(** What the run does to the outside world, in order. *)
Inductive Effect : Type :=
| PostMessage (message : WorkflowFromExtension)
| ShowErrorMessage (message : string)
| ShellExecute (command : string)
| ShellDispose
| AskApproval (nodeId : string)
| ChatRequest (prompt : string) (maxTokensToSample : Z) (fastMode : bool) (temp : Q)
| RetrieveContext (repo : string) (query : string).

(** The items yielded by the chat stream ([message.type]). *)
Inductive StreamMessage : Type :=
| change (text : string)
| complete
| stream_error (e : JsValue)
| other_message.

(** What happens next while the stream is read: a message arrives, the
    generator throws, or the 30 second timer fires first. *)
Inductive StreamEvent : Type :=
| yields (message : StreamMessage)
| generator_throws (e : JsValue)
| timer_fires.

Inductive ChatBehaviour : Type :=
| chat_rejects (e : JsValue)
| chat_streams (events : list StreamEvent).

Record CorpusItem : Type := mkCorpusItem {
  item_type : string;
  item_name : string
}.

Inductive CorpusItems : Type :=
| pendingOperation
| corpus (items : list CorpusItem).

Record ContextItem : Type := mkContextItem {
  uri_path : string;
  item_content : option string
}.

(** Modelled from the spec: the persistent shell, the chat client, the token
    counter, the context retriever and the approval callback are not among the
    sources; section 6 of the spec gives their interfaces.  They are the
    parameters of a run, and each may answer depending on everything that
    happened before (the trace so far). *)
Record Collaborators : Type := mkCollaborators {
  env_shell : bool;                      (* vscode.env.shell is set *)
  workspace_isTrusted : bool;
  homeDir : string;                      (* os.homedir() || HOME || USERPROFILE || '' *)
  path_sep : string;
  approvalHandler : list Effect → string → JsValue + option string;
  shell_execute : list Effect → string → JsValue + string;
  chat : list Effect → string → ChatBehaviour;
  encode_length : string → nat;          (* TokenCounterUtils.encode(text).length *)
  corpusContextItems : list Effect → CorpusItems;
  retrieveContext : list Effect → CorpusItem → string → JsValue + list ContextItem
}.

(** ** A monad for the executors: a trace of effects, and exceptions *)

Inductive Outcome (A : Type) : Type :=
| Returned (a : A)
| Threw (e : JsValue).
Arguments Returned {A} a.
Arguments Threw {A} e.

Definition Exec (A : Type) : Type := list Effect → list Effect * Outcome A.

Global Instance Exec_ret : MRet Exec := λ A a tr, (tr, Returned a).

Global Instance Exec_bind : MBind Exec := λ A B f m tr,
  match m tr with
  | (tr', Returned a) => f a tr'
  | (tr', Threw e) => (tr', Threw e)
  end.

Definition emit (e : Effect) : Exec unit := λ tr, (tr ++ [e], Returned tt).

Definition throw {A : Type} (e : JsValue) : Exec A := λ tr, (tr, Threw e).

(** [try { body } catch (error) { handler(error) }] *)
Definition try_catch {A : Type} (body : Exec A) (handler : JsValue → Exec A) : Exec A :=
  λ tr,
    match body tr with
    | (tr', Threw e) => handler e tr'
    | r => r
    end.

(** Awaits a collaborator: its answer may depend on the trace so far; a
    rejection is thrown. *)
Definition await {A : Type} (answer : list Effect → JsValue + A) : Exec A :=
  λ tr,
    match answer tr with
    | inl e => (tr, Threw e)
    | inr a => (tr, Returned a)
    end.

(** Reads a value that may depend on the trace so far and cannot fail. *)
Definition observe {A : Type} (value : list Effect → A) : Exec A :=
  λ tr, (tr, Returned (value tr)).

Definition postMessage (m : WorkflowFromExtension) : Exec unit := emit (PostMessage m).

(** ** Node executors *)

Definition denied (command : string) : bool :=
  existsb (λ cmd, startsWith command cmd) commandsNotAllowed.

Definition executeCLINode (env : Collaborators) (node : WorkflowNodes) : Exec string :=
  if negb (env_shell env) || negb (workspace_isTrusted env)
  then throw (new_Error "Shell command is not supported in your current workspace.")
  else if negb (truthy (trim <$> content (data node)))
  then throw (new_Error "CLI Node requires a non-empty command")
  else
    let filteredCommand :=
      match content (data node) with
      | Some c => expand_home (" " +:+ homeDir env +:+ path_sep env) "" 0 c
      | None => ""
      end in
    let convertQuotes := convert_quotes false filteredCommand in
    commandToExecute ←
      (if needsUserApproval (data node)
       then
         postMessage (node_execution_status (id node) pending_approval (Some convertQuotes));;
         emit (AskApproval (id node));;
         approval ← await (λ tr, approvalHandler env tr (id node));
         mret (if truthy approval then default convertQuotes approval else convertQuotes)
       else mret convertQuotes);
    if denied convertQuotes
    then
      emit (ShowErrorMessage "Cody cannot execute this command");;
      throw (new_Error "Cody cannot execute this command")
    else
      try_catch
        (emit (ShellExecute commandToExecute);;
         await (λ tr, shell_execute env tr commandToExecute))
        (λ e,
           emit ShellDispose;;
           throw (new_Error ("CLI Node execution failed: " +:+ error_message e))).

(** The size ceiling of an LLM response. *)
Definition response_limit : Z := 1000000.

(** The stream promise raced against the timer: the first settlement wins.
    When the events end and nothing has settled, the timer is what settles. *)
Fixpoint read_stream (events : list StreamEvent) (responseBuilder : list string)
  : JsValue + string :=
  match events with
  | [] => inl (new_Error "LLM request timed out")
  | timer_fires :: _ => inl (new_Error "LLM request timed out")
  | generator_throws e :: _ => inl e
  | yields (change text) :: rest =>
      if (strlen (join "" responseBuilder) >? response_limit)%Z
      then inl (new_Error "Response too large")
      else read_stream rest (responseBuilder ++ [text])
  | yields complete :: _ => inr (join "" responseBuilder)
  | yields (stream_error e) :: _ => inl e
  | yields other_message :: rest => read_stream rest responseBuilder
  end.

Definition executeLLMNode (env : Collaborators) (node : WorkflowNodes) : Exec string :=
  if negb (truthy (content (data node)))
  then throw (new_Error ("No prompt specified for LLM node " +:+ id node
                           +:+ " with " +:+ title (data node)))
  else
    let prompt := default "" (content (data node)) in
    try_catch
      (emit (ChatRequest prompt
               (default 1000%Z (maxTokens (data node)))
               (default true (fast (data node)))
               (default 0%Q (temperature (data node))));;
       await (λ tr,
                match chat env tr prompt with
                | chat_rejects e => inl e
                | chat_streams events => read_stream events []
                end))
      (λ e,
         match e with
         | JsError name message =>
             if String.eqb name "AbortError"
             then throw (new_Error "Workflow execution aborted")
             else throw (new_Error ("Failed to execute LLM node: " +:+ message))
         | JsOther _ => throw (new_Error "Unknown error in LLM node execution")
         end).

Definition executePreviewNode (env : Collaborators) (input nodeId : string) : Exec string :=
  let trimmedInput := trim input in
  postMessage (token_count nodeId (encode_length env trimmedInput));;
  mret trimmedInput.

Definition executeInputNode (input : string) : Exec string := mret (trim input).

(** A line feed. *)
Definition LF : string := String "010" "".

Definition is_repo (i : CorpusItem) : bool :=
  String.eqb (item_type i) "tree" || String.eqb (item_type i) "repository".

Definition executeSearchContextNode (env : Collaborators) (input : string) : Exec string :=
  corpusItems ← observe (corpusContextItems env);
  match corpusItems with
  | pendingOperation => mret ""
  | corpus items =>
      match List.find is_repo items with
      | None => mret ""
      | Some repo =>
          emit (RetrieveContext (item_name repo) input);;
          context ← await (λ tr, retrieveContext env tr repo input);
          mret (join (LF +:+ LF)
                  ((λ item,
                      uri_path item +:+ LF
                        +:+ (if truthy (item_content item)
                             then default "" (item_content item) else ""))
                     <$> context))
      end
  end.

(** ** Workflow orchestrator *)

(** Modelled from the spec: [getInactiveNodes] of
    webviews/workflow/components/Flow.tsx is not among the sources.  The spec
    (4.3) has it compute, for a start node, the set of all nodes reachable
    forward through edges by a traversal; the start is where the traversal
    begins and is part of the set. *)
Definition successors (edges : list Edge) (seen : gset string) : gset string :=
  list_to_set (target <$> filter (λ e, source e ∈ seen) edges).

Fixpoint saturate (rounds : nat) (edges : list Edge) (seen : gset string) : gset string :=
  match rounds with
  | O => seen
  | S rounds' => saturate rounds' edges (seen ∪ successors edges seen)
  end.

Definition getInactiveNodes (edges : list Edge) (startNodeId : string) : gset string :=
  saturate (List.length edges) edges {[ startNodeId ]}.

(** The loop that fills [allInactiveNodes]. *)
Definition allInactiveNodes (nodes : list WorkflowNodes) (edges : list Edge) : gset string :=
  fold_left
    (λ acc node,
       match active (data node) with
       | Some false => acc ∪ getInactiveNodes edges (id node)
       | _ => acc
       end)
    nodes ∅.

(** How one turn of the [for] loop ends: on to the next node, or the early
    [return] of the CLI failure path. *)
Inductive LoopControl : Type :=
| Next (context : IndexedExecutionContext)
| Return.

Definition with_content (node : WorkflowNodes) (c : string) : WorkflowNodes :=
  {| id := id node;
     type := type node;
     data := {| title := title (data node);
                content := Some c;
                active := active (data node);
                needsUserApproval := needsUserApproval (data node);
                maxTokens := maxTokens (data node);
                temperature := temperature (data node);
                fast := fast (data node) |} |}.

(** [node.data.content ? replaceIndexedInputs(node.data.content, inputs) : ''] *)
Definition render (node : WorkflowNodes) (inputs : list string) : string :=
  if truthy (content (data node))
  then replaceIndexedInputs (default "" (content (data node))) inputs
  else "".

(** The [switch (node.type)]: the result of the node, or [None] after the
    early [return]. *)
Definition dispatch (env : Collaborators) (node : WorkflowNodes)
    (context : IndexedExecutionContext) : Exec (option string) :=
  match type node with
  | CLI =>
      try_catch
        (let inputs := sanitizeForShell <$> combineParentOutputsByConnectionOrder (id node) context in
         let command := render node inputs in
         result ← executeCLINode env (with_content node command);
         mret (Some result))
        (λ e,
           emit ShellDispose;;
           let errorMessage := error_message e in
           let status := if includes errorMessage "aborted" then interrupted else error in
           emit (ShowErrorMessage ("CLI Node Error: " +:+ errorMessage));;
           postMessage (node_execution_status (id node) status (Some errorMessage));;
           postMessage execution_completed;;
           mret None)
  | LLM =>
      let inputs := sanitizeForPrompt <$> combineParentOutputsByConnectionOrder (id node) context in
      let prompt := render node inputs in
      result ← executeLLMNode env (with_content node prompt);
      mret (Some result)
  | PREVIEW =>
      let inputs := combineParentOutputsByConnectionOrder (id node) context in
      result ← executePreviewNode env (join LF inputs) (id node);
      mret (Some result)
  | INPUT =>
      let inputs := combineParentOutputsByConnectionOrder (id node) context in
      let text := render node inputs in
      result ← executeInputNode text;
      mret (Some result)
  | SEARCH_CONTEXT =>
      let inputs := combineParentOutputsByConnectionOrder (id node) context in
      let text := render node inputs in
      result ← executeSearchContextNode env text;
      mret (Some result)
  | OTHER name =>
      emit ShellDispose;;
      throw (new_Error ("Unknown node type: " +:+ name))
  end.

Definition set_output (context : IndexedExecutionContext) (nodeId result : string)
  : IndexedExecutionContext :=
  {| nodeOutputs := <[nodeId := result]> (nodeOutputs context);
     nodeIndex := nodeIndex context;
     edgeIndex := edgeIndex context |}.

(** The body of the [for (const node of sortedNodes)] loop. *)
Definition execute_node (env : Collaborators) (inactive : gset string)
    (node : WorkflowNodes) (context : IndexedExecutionContext) : Exec LoopControl :=
  if decide (id node ∈ inactive)
  then mret (Next context)
  else
    postMessage (node_execution_status (id node) running None);;
    r ← dispatch env node context;
    match r with
    | None => mret Return
    | Some result =>
        postMessage (node_execution_status (id node) completed (Some result));;
        mret (Next (set_output context (id node) result))
    end.

Fixpoint run_nodes (env : Collaborators) (inactive : gset string)
    (sortedNodes : list WorkflowNodes) (context : IndexedExecutionContext)
  : Exec LoopControl :=
  match sortedNodes with
  | [] => mret (Next context)
  | node :: rest =>
      c ← execute_node env inactive node context;
      match c with
      | Next context' => run_nodes env inactive rest context'
      | Return => mret Return
      end
  end.

(** The run after the sort. *)
Definition run_sorted (env : Collaborators) (inactive : gset string)
    (sortedNodes : list WorkflowNodes) (context : IndexedExecutionContext) : Exec unit :=
  postMessage execution_started;;
  c ← run_nodes env inactive sortedNodes context;
  match c with
  | Return => mret tt
  | Next _ =>
      emit ShellDispose;;
      postMessage execution_completed
  end.

(** The context a run starts with: no outputs yet. *)
Definition initial_context (nodes : list WorkflowNodes) (edges : list Edge)
  : IndexedExecutionContext :=
  {| nodeOutputs := ∅;
     nodeIndex := build_nodeIndex nodes;
     edgeIndex := createEdgeIndex edges |}.

(** The sorter always returns (see [topologicalSort_total]); the [None]
    branch is never taken. *)
Definition executeWorkflow (env : Collaborators) (nodes : list WorkflowNodes)
    (edges : list Edge) : Exec unit :=
  let context := initial_context nodes edges in
  let allInactiveNodes := allInactiveNodes nodes edges in
  match topologicalSort nodes edges with
  | Some sortedNodes => run_sorted env allInactiveNodes sortedNodes context
  | None => throw (JsOther "unreachable")
  end.

(** * Part II: the vocabulary of the statements *)

(** How many edges of [es] point at [v]. *)
Definition hits (v : string) (es : list Edge) : Z :=
  Z.of_nat (length (filter (λ e, target e = v) es)).

(** [k] decrements of the stored in-degree. *)
Definition js_sub (o : option jsnum) (k : Z) : jsnum :=
  match o with
  | Some (Num z) => Num (z - k)
  | _ => NaN
  end.

(** [u → v] is an edge of the list. *)
Definition edge_rel (edges : list Edge) (u v : string) : Prop :=
  ∃ e, e ∈ edges ∧ source e = u ∧ target e = v.

(** A directed path with at least one edge. *)
Definition path (edges : list Edge) : string → string → Prop := tc (edge_rel edges).

(** Forward reachability, the start included. *)
Definition reach (edges : list Edge) : string → string → Prop := rtc (edge_rel edges).

(** No directed cycle passes through one of the ids. *)
Definition acyclic_on (edges : list Edge) (ids : list string) : Prop :=
  ∀ v, v ∈ ids → ¬ path edges v v.

(** [v] can be reached from a node that no edge points at. *)
Definition from_seed (edges : list Edge) (ids : list string) (v : string) : Prop :=
  ∃ s, s ∈ ids ∧ hits s edges = 0%Z ∧ reach edges s v.

(** [u] comes before [v] in [l]. *)
Definition before (l : list string) (u v : string) : Prop :=
  ∃ l1 l2 l3, l = l1 ++ u :: l2 ++ v :: l3.

(** The edges into [v] whose source has not been emitted yet. *)
Definition pending (edges : list Edge) (v : string) (emitted : list string) : Z :=
  Z.of_nat (length (filter (λ e, target e = v ∧ source e ∉ emitted) edges)).

(** Every edge into an element of [l] starts at an earlier element. *)
Definition sources_first (edges : list Edge) (l : list string) : Prop :=
  ∀ l1 v l2 e, l = l1 ++ v :: l2 → e ∈ edges → target e = v → source e ∈ l1.

(** The invariant of the [while] loop of the sorter, for a graph with the
    node ids [ids]. *)
Record kahn_inv (edges : list Edge) (ids : list string)
    (deg : gmap string jsnum) (queue result : list string) : Prop := {
  inv_nodup : NoDup (result ++ queue);
  inv_ids : ∀ v, v ∈ result ++ queue → v ∈ ids;
  inv_deg : ∀ v, v ∈ ids → deg !! v = Some (Num (pending edges v result));
  inv_num : ∀ v z, deg !! v = Some (Num z) → v ∈ ids;
  inv_ready : ∀ v, v ∈ ids → (v ∈ result ++ queue ↔ pending edges v result = 0%Z);
  inv_order : sources_first edges (result ++ queue);
  inv_seed : ∀ v, v ∈ result ++ queue → from_seed edges ids v
}.

(** The node handed to the CLI executor: its content is the command rendered
    from the sanitized parent outputs. *)
Definition cli_node_to_run (node : WorkflowNodes) (context : IndexedExecutionContext)
  : WorkflowNodes :=
  with_content node
    (render node (sanitizeForShell <$> combineParentOutputsByConnectionOrder (id node) context)).

(** The node handed to the LLM executor. *)
Definition llm_node_to_run (node : WorkflowNodes) (context : IndexedExecutionContext)
  : WorkflowNodes :=
  with_content node
    (render node (sanitizeForPrompt <$> combineParentOutputsByConnectionOrder (id node) context)).

(** The node an effect names, if any. *)
Definition event_node (e : Effect) : option string :=
  match e with
  | PostMessage (node_execution_status nodeId _ _) => Some nodeId
  | PostMessage (token_count nodeId _) => Some nodeId
  | AskApproval nodeId => Some nodeId
  | _ => None
  end.

(** A status event that reports a failure. *)
Definition is_failure_report (e : Effect) : bool :=
  match e with
  | PostMessage (node_execution_status _ error _) => true
  | PostMessage (node_execution_status _ interrupted _) => true
  | _ => false
  end.

(** [m] only appends to the trace, and what it appends satisfies [P]. *)
Definition emits {A : Type} (P : Effect → Prop) (m : Exec A) : Prop :=
  ∀ tr, ∃ new, (m tr).1 = tr ++ new ∧ Forall P new.

(** Effects that either name no node or name node [i]. *)
Definition concerns (i : string) (e : Effect) : Prop :=
  ∀ j, event_node e = Some j → j = i.

(** Effects an executor may produce on its own: no failure report, no end of
    the run. *)
Definition executor_effect (e : Effect) : Prop :=
  is_failure_report e = false ∧ e ≠ PostMessage execution_completed.

(** [seen] is closed under the edges. *)
Definition closed_under (edges : list Edge) (seen : gset string) : Prop :=
  ∀ e, e ∈ edges → source e ∈ seen → target e ∈ seen.

(** An in-degree that is a positive integer. *)
Definition is_positive (n : jsnum) : bool :=
  match n with
  | Num z => (0 <? z)%Z
  | NaN => false
  end.

(** The number of ids whose stored in-degree is positive: the ids that can
    still enter the queue. *)
Definition waiting (deg : gmap string jsnum) : nat :=
  size (filter (λ kv : string * jsnum, is_positive kv.2 = true) deg).

Definition running_event (node : WorkflowNodes) : Effect :=
  PostMessage (node_execution_status (id node) running None).

(** The status event of the CLI failure path. *)
Definition failure_report (node : WorkflowNodes) (e : JsValue) : Effect :=
  PostMessage
    (node_execution_status (id node)
       (if includes (error_message e) "aborted" then interrupted else error)
       (Some (error_message e))).

(** What the [catch] of the CLI case appends. *)
Definition cli_failure_tail (node : WorkflowNodes) (e : JsValue) : list Effect :=
  [ ShellDispose;
    ShowErrorMessage ("CLI Node Error: " +:+ error_message e);
    failure_report node e;
    PostMessage execution_completed ].

(** The request the LLM executor sends for [node] with a given prompt. *)
Definition chat_request (node : WorkflowNodes) (prompt : string) : Effect :=
  ChatRequest prompt
    (default 1000%Z (maxTokens (data node)))
    (default true (fast (data node)))
    (default 0%Q (temperature (data node))).

Fixpoint all_digits (s : string) : bool :=
  match s with
  | String c s' => is_digit c && all_digits s'
  | EmptyString => true
  end.

Fixpoint has_char (c : ascii) (s : string) : bool :=
  match s with
  | String d s' => Ascii.eqb c d || has_char c s'
  | EmptyString => false
  end.

(** Only white space. *)
Fixpoint all_ws (s : string) : bool :=
  match s with
  | String c s' => is_ws c && all_ws s'
  | EmptyString => true
  end.

(** The first character, if there is one, is not white space. *)
Definition starts_clean (s : string) : Prop :=
  match s with
  | String c _ => is_ws c = false
  | EmptyString => True
  end.

(** The last character, if there is one, is not white space. *)
Fixpoint ends_clean (s : string) : Prop :=
  match s with
  | String c EmptyString => is_ws c = false
  | String _ s' => ends_clean s'
  | EmptyString => True
  end.

(** What the combiner makes of the output recorded for a source, if any. *)
Definition parent_output (outputs : gmap string string) (edge : Edge) : string :=
  match outputs !! source edge with
  | Some output => trim (replace_crlf output)
  | None => ""
  end.

(** The carriage return followed by a line feed. *)
Definition CRLF : string := String "013" (String "010" "").

(** The command the CLI executor derives from the content of the node:
    the home directory expanded, double quotes converted. *)
Definition prepared_command (env : Collaborators) (c : string) : string :=
  convert_quotes false (expand_home (" " +:+ homeDir env +:+ path_sep env) "" 0 c).

(** A text of [n] characters. *)
Definition text_of_length (n : N) : string := N.iter n (String "a") "".

(** ** Sample graphs and collaborators *)

(** Collaborators that all succeed: the shell echoes, the approval callback
    returns no replacement, the chat streams [ok]. *)
Definition sample_env : Collaborators :=
  {| env_shell := true;
     workspace_isTrusted := true;
     homeDir := "/home/user";
     path_sep := "/";
     approvalHandler := λ _ _, inr None;
     shell_execute := λ _ command, inr ("output of " +:+ command);
     chat := λ _ _, chat_streams [yields (change "ok"); yields complete];
     encode_length := String.length;
     corpusContextItems := λ _, corpus [];
     retrieveContext := λ _ _ _, inr [] |}.

Definition sample_node (i : string) (t : NodeType) (c : string) : WorkflowNodes :=
  {| id := i; type := t;
     data := {| title := i; content := Some c; active := None;
                needsUserApproval := false; maxTokens := None;
                temperature := None; fast := None |} |}.

(** A CLI node whose command starts with [sudo], followed by an input node. *)
Definition sudo_nodes : list WorkflowNodes :=
  [sample_node "a" CLI "sudo ls"; sample_node "b" INPUT "x"].

Definition sudo_edges : list Edge := [mkEdge "e1" "a" "b"].

(** An approval callback that replaces the command by [sudo reboot]. *)
Definition replacing_env : Collaborators :=
  {| env_shell := true;
     workspace_isTrusted := true;
     homeDir := "/home/user";
     path_sep := "/";
     approvalHandler := λ _ _, inr (Some "sudo reboot");
     shell_execute := λ _ command, inr ("output of " +:+ command);
     chat := λ _ _, chat_streams [yields (change "ok"); yields complete];
     encode_length := String.length;
     corpusContextItems := λ _, corpus [];
     retrieveContext := λ _ _ _, inr [] |}.

Definition approval_node : WorkflowNodes :=
  {| id := "a"; type := CLI;
     data := {| title := "a"; content := Some "echo hi"; active := None;
                needsUserApproval := true; maxTokens := None;
                temperature := None; fast := None |} |}.

(** A node behind an edge whose source is not a node. *)
Definition dangling_nodes : list WorkflowNodes := [sample_node "b" INPUT "x"].
Definition dangling_edges : list Edge := [mkEdge "e1" "a" "b"].

(** The chain [a → b → c], listed in reverse. *)
Definition chain_nodes : list WorkflowNodes :=
  [sample_node "c" PREVIEW ""; sample_node "b" LLM "say ${1}"; sample_node "a" CLI "echo hi"].
Definition chain_edges : list Edge := [mkEdge "e1" "a" "b"; mkEdge "e2" "b" "c"].

(** A graph with the cycle [b → c → b] behind [a]. *)
Definition cyclic_nodes : list WorkflowNodes :=
  [sample_node "a" INPUT "x"; sample_node "b" INPUT "y"; sample_node "c" INPUT "z"].
Definition cyclic_edges : list Edge :=
  [mkEdge "e1" "a" "b"; mkEdge "e2" "b" "c"; mkEdge "e3" "c" "b"].

(** An LLM node whose stream reports an error, followed by an input node. *)
Definition failing_chat_env : Collaborators :=
  {| env_shell := true;
     workspace_isTrusted := true;
     homeDir := "/home/user";
     path_sep := "/";
     approvalHandler := λ _ _, inr None;
     shell_execute := λ _ command, inr ("output of " +:+ command);
     chat := λ _ _, chat_streams [yields (stream_error (JsError "Error" "boom"))];
     encode_length := String.length;
     corpusContextItems := λ _, corpus [];
     retrieveContext := λ _ _ _, inr [] |}.

Definition llm_nodes : list WorkflowNodes :=
  [sample_node "a" LLM "hi"; sample_node "b" INPUT "x"].
Definition llm_edges : list Edge := [mkEdge "e1" "a" "b"].

(** A response of one chunk, one character longer than the ceiling. *)
Definition oversized_text : string := text_of_length 1000001.

Definition oversized_chat_env : Collaborators :=
  {| env_shell := true;
     workspace_isTrusted := true;
     homeDir := "/home/user";
     path_sep := "/";
     approvalHandler := λ _ _, inr None;
     shell_execute := λ _ command, inr ("output of " +:+ command);
     chat := λ _ _, chat_streams [yields (change oversized_text); yields complete];
     encode_length := String.length;
     corpusContextItems := λ _, corpus [];
     retrieveContext := λ _ _ _, inr [] |}.

(** [X] is marked inactive, [Y] depends on [X] and [Z] on [Y]. *)
Definition xyz_nodes : list WorkflowNodes :=
  [ {| id := "X"; type := INPUT;
       data := {| title := "X"; content := Some "x"; active := Some false;
                  needsUserApproval := false; maxTokens := None;
                  temperature := None; fast := None |} |};
    sample_node "Y" CLI "echo ${1}";
    sample_node "Z" LLM "say ${1}" ].
Definition xyz_edges : list Edge := [mkEdge "e1" "X" "Y"; mkEdge "e2" "Y" "Z"].

(** Two nodes with the same id. *)
Definition repeated_nodes : list WorkflowNodes :=
  [sample_node "a" INPUT "first"; sample_node "a" INPUT "second"].

(** An input node followed by a node of an unknown type. *)
Definition unknown_nodes : list WorkflowNodes :=
  [sample_node "a" INPUT "x"; sample_node "b" (OTHER "mystery") "y"; sample_node "c" INPUT "z"].
Definition unknown_edges : list Edge := [mkEdge "e1" "a" "b"; mkEdge "e2" "b" "c"].

(** ** Vocabulary and samples for the further properties *)

(** Some [$] followed by an opening brace stands in [s] without a backslash
    right before it; [guarded] tells whether a backslash stands right before
    [s]. *)
Fixpoint bare_placeholder (guarded : bool) (s : string) : bool :=
  match s with
  | String c rest =>
      (Ascii.eqb c "$" && startsWith rest "{" && negb guarded)
      || bare_placeholder (Ascii.eqb c "\") rest
  | EmptyString => false
  end.

(** Some double quote stands in [s] without a backslash right before it. *)
Fixpoint bare_quote (escaped : bool) (s : string) : bool :=
  match s with
  | String c rest =>
      (Ascii.eqb c "034" && negb escaped) || bare_quote (Ascii.eqb c "\") rest
  | EmptyString => false
  end.

(** Reads a text the way a shell reads it outside quotes, as far as
    backslashes go: a backslash is dropped and makes the next character
    literal. *)
Fixpoint unescape (s : string) : string :=
  match s with
  | String c rest =>
      if Ascii.eqb c "\"
      then
        match rest with
        | String d rest' => String d (unescape rest')
        | EmptyString => s
        end
      else String c (unescape rest)
  | EmptyString => EmptyString
  end.

(** What the CLI executor does once the command to execute is known: the
    denylist test on the rendered command [convertQuotes], then the shell. *)
Definition check_and_execute (env : Collaborators) (convertQuotes : string)
    (tr : list Effect) (commandToExecute : string) : list Effect * Outcome string :=
  if denied convertQuotes
  then (tr ++ [ShowErrorMessage "Cody cannot execute this command"],
        Threw (new_Error "Cody cannot execute this command"))
  else
    match shell_execute env (tr ++ [ShellExecute commandToExecute]) commandToExecute with
    | inr out => (tr ++ [ShellExecute commandToExecute], Returned out)
    | inl e =>
        (tr ++ [ShellExecute commandToExecute; ShellDispose],
         Threw (new_Error ("CLI Node execution failed: " +:+ error_message e)))
    end.

(** The events of the approval step. *)
Definition approval_request (node : WorkflowNodes) (command : string) : list Effect :=
  [ PostMessage (node_execution_status (id node) pending_approval (Some command));
    AskApproval (id node) ].

(** Collaborators whose shell rejects every command. *)
Definition failing_shell_env : Collaborators :=
  {| env_shell := true;
     workspace_isTrusted := true;
     homeDir := "/home/user";
     path_sep := "/";
     approvalHandler := λ _ _, inr None;
     shell_execute := λ _ _, inl (JsError "Error" "Command aborted by user");
     chat := λ _ _, chat_streams [yields (change "ok"); yields complete];
     encode_length := String.length;
     corpusContextItems := λ _, corpus [];
     retrieveContext := λ _ _ _, inr [] |}.

(** How the CLI executor comes to the shell: for a node that needs approval,
    after the approval request [pre] that the callback answers, with the
    replacement it returns, if any, or else with the rendered command
    [convertQuotes]; for any other node at once, with the rendered command. *)
Definition reaches_shell (env : Collaborators) (node : WorkflowNodes) (tr : list Effect)
    (convertQuotes : string) (pre : list Effect) (commandToExecute : string) : Prop :=
  if needsUserApproval (data node)
  then pre = approval_request node convertQuotes
       ∧ ∃ approval,
           approvalHandler env (tr ++ pre) (id node) = inr approval
           ∧ commandToExecute
             = (if truthy approval then default convertQuotes approval else convertQuotes)
  else pre = [] ∧ commandToExecute = convertQuotes.

(** Collaborators whose user replaces the command and whose shell rejects
    every command. *)
Definition replacing_failing_shell_env : Collaborators :=
  {| env_shell := true;
     workspace_isTrusted := true;
     homeDir := "/home/user";
     path_sep := "/";
     approvalHandler := λ _ _, inr (Some "make all");
     shell_execute := λ _ _, inl (JsError "Error" "exit code 2");
     chat := λ _ _, chat_streams [yields (change "ok"); yields complete];
     encode_length := String.length;
     corpusContextItems := λ _, corpus [];
     retrieveContext := λ _ _ _, inr [] |}.

(** Collaborators whose user turns every approval request down. *)
Definition rejecting_env : Collaborators :=
  {| env_shell := true;
     workspace_isTrusted := true;
     homeDir := "/home/user";
     path_sep := "/";
     approvalHandler := λ _ _, inl (JsError "Error" "Workflow aborted");
     shell_execute := λ _ command, inr ("output of " +:+ command);
     chat := λ _ _, chat_streams [yields (change "ok"); yields complete];
     encode_length := String.length;
     corpusContextItems := λ _, corpus [];
     retrieveContext := λ _ _ _, inr [] |}.

(** How the LLM executor settles: what the request resolves or rejects
    with. *)
Definition chat_settles (env : Collaborators) (tr : list Effect) (prompt : string)
  : JsValue + string :=
  match chat env tr prompt with
  | chat_rejects e => inl e
  | chat_streams events => read_stream events []
  end.

(** The error the [catch] of the LLM executor throws for a rejection. *)
Definition llm_error (e : JsValue) : JsValue :=
  match e with
  | JsError name message =>
      if String.eqb name "AbortError"
      then new_Error "Workflow execution aborted"
      else new_Error ("Failed to execute LLM node: " +:+ message)
  | JsOther _ => new_Error "Unknown error in LLM node execution"
  end.

(** The error of an LLM node without a prompt. *)
Definition no_prompt_error (node : WorkflowNodes) : JsValue :=
  new_Error ("No prompt specified for LLM node " +:+ id node +:+ " with " +:+ title (data node)).

(** The text printed for one context item. *)
Definition context_entry (item : ContextItem) : string :=
  uri_path item +:+ LF
    +:+ (if truthy (item_content item) then default "" (item_content item) else "").

(** An LLM node whose prompt is nothing but a placeholder. *)
Definition placeholder_only_node : WorkflowNodes := sample_node "a" LLM "${1}".

(** Collaborators whose chat is aborted. *)
Definition aborted_chat_env : Collaborators :=
  {| env_shell := true;
     workspace_isTrusted := true;
     homeDir := "/home/user";
     path_sep := "/";
     approvalHandler := λ _ _, inr None;
     shell_execute := λ _ command, inr ("output of " +:+ command);
     chat := λ _ _, chat_rejects (JsError "AbortError" "The user aborted a request.");
     encode_length := String.length;
     corpusContextItems := λ _, corpus [];
     retrieveContext := λ _ _ _, inr [] |}.

(** Collaborators with a file and two repositories in the corpus. *)
Definition corpus_env : Collaborators :=
  {| env_shell := true;
     workspace_isTrusted := true;
     homeDir := "/home/user";
     path_sep := "/";
     approvalHandler := λ _ _, inr None;
     shell_execute := λ _ command, inr ("output of " +:+ command);
     chat := λ _ _, chat_streams [yields (change "ok"); yields complete];
     encode_length := String.length;
     corpusContextItems := λ _,
       corpus [mkCorpusItem "file" "README.md"; mkCorpusItem "tree" "workspace";
               mkCorpusItem "repository" "github.com/a/b"];
     retrieveContext := λ _ _ _,
       inr [mkContextItem "/src/a.ts" (Some "let a = 1"); mkContextItem "/src/b.ts" None] |}.

(** The status event that ends a successful turn of the loop. *)
Definition completed_event (node : WorkflowNodes) (result : string) : Effect :=
  PostMessage (node_execution_status (id node) completed (Some result)).

(** What an executor may do on behalf of node [i]: it names no other node,
    reports no failure, announces neither the start nor the end of the run,
    and posts no [running] status. *)
Definition node_effect (i : string) (e : Effect) : Prop :=
  concerns i e ∧ executor_effect e ∧ e ≠ PostMessage execution_started
  ∧ ∀ j, e ≠ PostMessage (node_execution_status j running None).

(** Effects that announce neither the start nor the end of the run and
    report no failure. *)
Definition inner_effect (e : Effect) : Prop :=
  executor_effect e ∧ e ≠ PostMessage execution_started.

(** Every event that names a node stands at or behind a [running] event of
    that node. *)
Definition announced (tr : list Effect) : Prop :=
  ∀ (i : nat) (ev : Effect) (j : string),
    tr !! i = Some ev → event_node ev = Some j →
    ∃ k, (k ≤ i)%nat ∧ tr !! k = Some (PostMessage (node_execution_status j running None)).

(** An input node feeding a preview node. *)
Definition pipeline_nodes : list WorkflowNodes :=
  [sample_node "i" INPUT "abc"; sample_node "p" PREVIEW ""].
Definition pipeline_edges : list Edge := [mkEdge "e" "i" "p"].

(** The [running] status of the node with id [j]. *)
Definition running_status (j : string) : Effect :=
  PostMessage (node_execution_status j running None).

(** The error of a workspace without a shell or without trust. *)
Definition unsupported_error : JsValue :=
  new_Error "Shell command is not supported in your current workspace.".

(** The error of a CLI node without a command. *)
Definition empty_command_error : JsValue :=
  new_Error "CLI Node requires a non-empty command".

(** Collaborators of a workspace that is not trusted. *)
Definition untrusted_env : Collaborators :=
  {| env_shell := true;
     workspace_isTrusted := false;
     homeDir := "/home/user";
     path_sep := "/";
     approvalHandler := λ _ _, inr None;
     shell_execute := λ _ command, inr ("output of " +:+ command);
     chat := λ _ _, chat_streams [yields (change "ok"); yields complete];
     encode_length := String.length;
     corpusContextItems := λ _, corpus [];
     retrieveContext := λ _ _ _, inr [] |}.

(** * Part III: properties *)

(** ** Sanity checks by evaluation *)

Example trim_sample : trim (String "009" "  a b " +:+ LF) = "a b".
Proof. reflexivity. Qed.

Example trim_blank : trim "   " = "".
Proof. reflexivity. Qed.

Example replace_crlf_sample :
  replace_crlf ("a" +:+ CRLF +:+ CRLF +:+ "b" +:+ String "013" "c")
  = "a" +:+ LF +:+ LF +:+ "b" +:+ String "013" "c".
Proof. reflexivity. Qed.

Example includes_sample :
  includes "Workflow execution aborted" "aborted" = true ∧ includes "abort" "aborted" = false.
Proof. split; reflexivity. Qed.

Example denied_sample :
  denied "sudo ls" = true ∧ denied "rm -rf x" = true ∧ denied "summary" = true
  ∧ denied "echo sudo" = false ∧ denied "Sudo ls" = false.
Proof. repeat split; reflexivity. Qed.

Example replace_placeholders_sample :
  replaceIndexedInputs "x${0}y${}z${1a}${01}$${1}${12}" ["A"] = "xy${}z${1a}A$A".
Proof. reflexivity. Qed.

Example sanitizeForShell_sample : sanitizeForShell "a\b${1}" = "a\\b\${1}".
Proof. reflexivity. Qed.

Example sanitizeForPrompt_sample : sanitizeForPrompt "a\b${1}" = "a\b\${1}".
Proof. reflexivity. Qed.

Example expand_home_sample :
  expand_home " /home/user/" "" 0 "ls ~/a ~/b~/c" = "ls /home/user/a /home/user/b~/c".
Proof. reflexivity. Qed.

Example get_substitution_sample :
  expand_home " <$&|$`|$'|$1|$01|$2|$$|$0>" "" 0 "ls ~/a" = "ls < ~/|ls|a| ~/| ~/|$2|$|$0>a".
Proof. reflexivity. Qed.

Example convert_quotes_sample :
  convert_quotes false (String "034" "hi" +:+ String "034" " \" +:+ String "034" "x")
  = "'hi' \" +:+ String "034" "x".
Proof. reflexivity. Qed.

(** The two tests of the repository's test file for the sorter. *)
Example sort_two_nodes :
  id <$> default [] (topologicalSort [sample_node "id1" CLI "echo hello"; sample_node "id2" PREVIEW ""]
                       [mkEdge "e" "id1" "id2"])
  = ["id1"; "id2"].
Proof. by vm_compute. Qed.

Example sort_three_nodes :
  id <$> default [] (topologicalSort
                       [sample_node "id1" CLI ""; sample_node "id2" LLM ""; sample_node "id3" PREVIEW ""]
                       [mkEdge "e1" "id1" "id2"; mkEdge "e2" "id2" "id3"])
  = ["id1"; "id2"; "id3"].
Proof. by vm_compute. Qed.

(** An id that occurs twice in the node list: the node index keeps the last
    node of that id, and it is returned twice. *)
Example sort_repeated_id :
  topologicalSort [sample_node "a" INPUT "first"; sample_node "a" INPUT "second"] []
  = Some [sample_node "a" INPUT "second"; sample_node "a" INPUT "second"].
Proof. by vm_compute. Qed.

(** The round trip of the specification: [Input(abc) → Preview]. *)
Example input_then_preview :
  executeWorkflow sample_env [sample_node "i" INPUT "abc"; sample_node "p" PREVIEW ""]
    [mkEdge "e" "i" "p"] []
  = ([ PostMessage execution_started;
       PostMessage (node_execution_status "i" running None);
       PostMessage (node_execution_status "i" completed (Some "abc"));
       PostMessage (node_execution_status "p" running None);
       PostMessage (token_count "p" 3);
       PostMessage (node_execution_status "p" completed (Some "abc"));
       ShellDispose;
       PostMessage execution_completed ],
     Returned tt).
Proof. by vm_compute. Qed.

(** A CLI node that asks for approval and runs the command it rendered. *)
Example approved_cli_run :
  executeWorkflow sample_env
    [ sample_node "i" INPUT "world";
      {| id := "c"; type := CLI;
         data := {| title := "c"; content := Some "echo ${1} ~/x"; active := None;
                    needsUserApproval := true; maxTokens := None;
                    temperature := None; fast := None |} |} ]
    [mkEdge "e" "i" "c"] []
  = ([ PostMessage execution_started;
       PostMessage (node_execution_status "i" running None);
       PostMessage (node_execution_status "i" completed (Some "world"));
       PostMessage (node_execution_status "c" running None);
       PostMessage (node_execution_status "c" pending_approval (Some "echo world /home/user/x"));
       AskApproval "c";
       ShellExecute "echo world /home/user/x";
       PostMessage (node_execution_status "c" completed (Some "output of echo world /home/user/x"));
       ShellDispose;
       PostMessage execution_completed ],
     Returned tt).
Proof. by vm_compute. Qed.

(** ** The edge index lists, per key, the matching edges in list order *)

Lemma createEdgeIndex_snoc (es : list Edge) (e : Edge) :
  createEdgeIndex (es ++ [e]) = index_edge (createEdgeIndex es) e.
Proof. unfold createEdgeIndex. by rewrite fold_left_app. Qed.

Lemma byTarget_spec (es : list Edge) (v : string) :
  default [] (byTarget (createEdgeIndex es) !! v) = filter (λ e, target e = v) es.
Proof.
  induction es as [|e es IH] using rev_ind; [done|].
  rewrite createEdgeIndex_snoc, filter_app. cbn [index_edge byTarget].
  destruct (decide (target e = v)) as [Heq|Hne].
  - rewrite Heq, lookup_insert_eq. cbn. rewrite IH.
    by rewrite decide_True.
  - rewrite lookup_insert_ne by done. rewrite IH.
    rewrite filter_cons_False by done. by rewrite filter_nil, app_nil_r.
Qed.

Lemma bySource_spec (es : list Edge) (u : string) :
  default [] (bySource (createEdgeIndex es) !! u) = filter (λ e, source e = u) es.
Proof.
  induction es as [|e es IH] using rev_ind; [done|].
  rewrite createEdgeIndex_snoc, filter_app. cbn [index_edge bySource].
  destruct (decide (source e = u)) as [Heq|Hne].
  - rewrite Heq, lookup_insert_eq. cbn. rewrite IH.
    by rewrite decide_True.
  - rewrite lookup_insert_ne by done. rewrite IH.
    rewrite filter_cons_False by done. by rewrite filter_nil, app_nil_r.
Qed.

Lemma init_inDegree_lookup (idx : IndexedEdges) (nodes : list WorkflowNodes) (v : string) :
  init_inDegree idx nodes !! v =
    if decide (v ∈ (id <$> nodes))
    then Some (Num (Z.of_nat (length (default [] (byTarget idx !! v)))))
    else None.
Proof.
  unfold init_inDegree.
  induction nodes as [|n nodes IH] using rev_ind.
  - cbn. by rewrite lookup_empty.
  - rewrite fold_left_app, fmap_app. cbn [fold_left fmap list_fmap].
    destruct (decide (id n = v)) as [<-|Hne].
    + rewrite lookup_insert_eq. rewrite decide_True; [done|set_solver].
    + rewrite lookup_insert_ne by done. rewrite IH.
      destruct (decide (v ∈ (id <$> nodes))).
      * rewrite decide_True; [done|set_solver].
      * rewrite decide_False; [done|set_solver].
Qed.

Lemma build_nodeIndex_lookup (nodes : list WorkflowNodes) (n : WorkflowNodes) :
  NoDup (id <$> nodes) → n ∈ nodes → build_nodeIndex nodes !! id n = Some n.
Proof.
  unfold build_nodeIndex.
  induction nodes as [|m nodes IH] using rev_ind; [by inversion 2|].
  rewrite fmap_app, fold_left_app. cbn [fold_left fmap list_fmap].
  intros [Hnd [Hdisj _]]%NoDup_app Hin.
  apply elem_of_app in Hin as [Hin|Hin].
  - rewrite lookup_insert_ne; [by apply IH|].
    intros Heq. apply (Hdisj (id n)).
    + apply list_elem_of_fmap. by exists n.
    + rewrite Heq. set_solver.
  - apply list_elem_of_singleton in Hin as ->. by rewrite lookup_insert_eq.
Qed.

Lemma build_nodeIndex_elem (nodes : list WorkflowNodes) (i : string) (n : WorkflowNodes) :
  build_nodeIndex nodes !! i = Some n → n ∈ nodes ∧ id n = i.
Proof.
  unfold build_nodeIndex.
  induction nodes as [|m nodes IH] using rev_ind.
  - cbn. by rewrite lookup_empty.
  - rewrite fold_left_app. cbn [fold_left].
    destruct (decide (id m = i)) as [<-|Hne].
    + rewrite lookup_insert_eq. intros [= ->]. set_solver.
    + rewrite lookup_insert_ne by done. intros H. apply IH in H. set_solver.
Qed.

(** ** The inner loop of the sorter *)

Lemma hits_nil v : hits v [] = 0%Z.
Proof. done. Qed.

Lemma hits_cons v e es :
  hits v (e :: es) = ((if decide (target e = v) then 1 else 0) + hits v es)%Z.
Proof.
  unfold hits. rewrite filter_cons. case_decide; cbn [length]; lia.
Qed.

Lemma hits_nonneg v es : (0 ≤ hits v es)%Z.
Proof. unfold hits. lia. Qed.

(** The state after relaxing the edges [es]: every target lost one unit per
    edge, and the ids appended to the queue are exactly those whose in-degree
    went from a positive integer down to zero, each appended once. *)
Lemma relax_fold (es : list Edge) :
  ∀ (deg : gmap string jsnum) (q : list string),
    (∀ v, (fold_left relax_edge es (deg, q)).1 !! v =
            if decide (hits v es = 0%Z) then deg !! v
            else Some (js_sub (deg !! v) (hits v es)))
    ∧ ∃ news, (fold_left relax_edge es (deg, q)).2 = q ++ news
        ∧ NoDup news
        ∧ ∀ v, v ∈ news ↔ ∃ z, deg !! v = Some (Num z) ∧ (1 ≤ z ≤ hits v es)%Z.
Proof.
  induction es as [|e es IH]; intros deg q.
  - cbn [fold_left fst snd]. split.
    + intros v. by rewrite hits_nil, decide_True.
    + exists []. rewrite app_nil_r. split; [done|]. split; [constructor|].
      intros v. rewrite hits_nil. split; [by inversion 1|]. intros (z & _ & ?). lia.
  - cbn [fold_left].
    set (d := js_pred (deg !! target e)).
    set (deg1 := <[target e := d]> deg).
    set (q1 := if js_is_zero d then q ++ [target e] else q).
    assert (relax_edge (deg, q) e = (deg1, q1)) as -> by done.
    destruct (IH deg1 q1) as [Hdeg (news & Hq & Hnd & Hnews)].
    split.
    + intros v. rewrite Hdeg, hits_cons. pose proof (hits_nonneg v es) as Hge.
      unfold deg1. destruct (decide (target e = v)) as [Heq|Hne].
      * rewrite Heq, lookup_insert_eq. rewrite (decide_False (P := (1 + _ = 0)%Z)) by lia.
        subst d. rewrite Heq. case_decide as Hz.
        -- rewrite Hz. destruct (deg !! v) as [[z|]|]; cbn; do 2 f_equal; lia.
        -- destruct (deg !! v) as [[z|]|]; cbn; do 2 f_equal; lia.
      * rewrite lookup_insert_ne by done. rewrite Z.add_0_l. done.
    + destruct (js_is_zero d) eqn:Hzero.
      * exists (target e :: news). subst q1. rewrite Hq, <- app_assoc. split; [done|].
        assert (deg !! target e = Some (Num 1)) as Hone.
        { subst d. destruct (deg !! target e) as [[z|]|]; cbn in Hzero; try done.
          do 2 f_equal. lia. }
        split.
        -- constructor; [|done]. rewrite Hnews. intros (z & Hz & Hle).
           unfold deg1 in Hz. rewrite lookup_insert_eq in Hz. subst d.
           rewrite Hone in Hz. cbn in Hz. injection Hz as <-. lia.
        -- intros v. rewrite elem_of_cons, Hnews, hits_cons.
           pose proof (hits_nonneg v es) as Hge. unfold deg1.
           destruct (decide (target e = v)) as [Heq|Hne].
           ++ rewrite <- Heq, lookup_insert_eq. subst d. rewrite Hone. cbn. split.
              ** intros _. exists 1%Z. split; [done|]. rewrite Heq. lia.
              ** intros _. by left.
           ++ rewrite lookup_insert_ne by done. rewrite Z.add_0_l. split.
              ** intros [Hv|Hv]; [by subst v|done].
              ** intros Hv. by right.
      * exists news. subst q1. split; [done|]. split; [done|].
        intros v. rewrite Hnews, hits_cons.
        pose proof (hits_nonneg v es) as Hge. unfold deg1.
        destruct (decide (target e = v)) as [Heq|Hne].
        -- rewrite <- Heq, lookup_insert_eq. subst d.
           destruct (deg !! target e) as [[z|]|] eqn:Hl; cbn in Hzero |- *.
           ++ apply Z.eqb_neq in Hzero. rewrite Heq. split.
              ** intros (z' & [= <-] & Hle). exists z. split; [done|]. lia.
              ** intros (z' & [= <-] & Hle). exists (z - 1)%Z. split; [done|]. lia.
           ++ split; intros (z' & ? & _); done.
           ++ split; intros (z' & ? & _); done.
        -- rewrite lookup_insert_ne by done. by rewrite Z.add_0_l.
Qed.

(** ** Acyclic graphs *)

(** In a finite set without a cycle some element has no predecessor inside
    the set. *)
Lemma no_predecessor_closed_set (edges : list Edge) (S : list string) :
  (∀ v, v ∈ S → ¬ path edges v v) →
  S ≠ [] →
  (∀ v, v ∈ S → ∃ u, u ∈ S ∧ path edges u v) →
  False.
Proof.
  induction S as [|a S IH]; [done|].
  intros Hacyc _ Hpred.
  destruct S as [|b S].
  - destruct (Hpred a) as (u & Hu & Hp); [set_solver|].
    apply list_elem_of_singleton in Hu as ->. eapply Hacyc; [|exact Hp]. set_solver.
  - apply IH; [intros v Hv; apply Hacyc; set_solver|done|].
    intros v Hv.
    destruct (Hpred v) as (u & Hu & Hp); [set_solver|].
    apply elem_of_cons in Hu as [->|Hu]; [|by exists u].
    destruct (Hpred a) as (w & Hw & Hq); [set_solver|].
    apply elem_of_cons in Hw as [->|Hw].
    + exfalso. eapply Hacyc; [|exact Hq]. set_solver.
    + exists w. split; [done|]. unfold path in *. by etrans.
Qed.

(** ** The loop invariant of the sorter *)

Section Kahn.
Variable edges : list Edge.
Variable ids : list string.

Lemma pending_nil v : pending edges v [] = hits v edges.
Proof.
  unfold pending, hits. do 2 f_equal.
  induction edges as [|e es IH]; [done|].
  rewrite !filter_cons. rewrite IH.
  destruct (decide (target e = v)).
  - rewrite decide_True; [done|]. split; [done|]. by inversion 1.
  - rewrite decide_False; [done|]. naive_solver.
Qed.

Lemma pending_nonneg v emitted : (0 ≤ pending edges v emitted)%Z.
Proof. unfold pending. lia. Qed.

Lemma pending_zero v emitted :
  pending edges v emitted = 0%Z ↔ ∀ e, e ∈ edges → target e = v → source e ∈ emitted.
Proof.
  unfold pending. split.
  - intros H e He Ht.
    destruct (decide (source e ∈ emitted)) as [|Hn]; [done|].
    assert (e ∈ filter (λ e, target e = v ∧ source e ∉ emitted) edges) as Hin
      by (apply list_elem_of_filter; done).
    destruct (filter _ edges); [by inversion Hin|cbn in H; lia].
  - intros H.
    destruct (filter (λ e, target e = v ∧ source e ∉ emitted) edges) as [|e l] eqn:Hf;
      [done|].
    assert (e ∈ filter (λ e, target e = v ∧ source e ∉ emitted) edges) as Hin
      by (rewrite Hf; left).
    apply list_elem_of_filter in Hin as [[Ht Hs] He]. exfalso. apply Hs. by apply H.
Qed.

Lemma pending_split v emitted u :
  u ∉ emitted →
  pending edges v emitted =
    (pending edges v (emitted ++ [u]) + hits v (filter (λ e, source e = u) edges))%Z.
Proof.
  intros Hu. unfold pending, hits.
  induction edges as [|e es IH]; [done|].
  rewrite !filter_cons.
  destruct (decide (source e = u)) as [Hs|Hs].
  - rewrite (decide_False (P := _ ∧ source e ∉ emitted ++ [u])) by set_solver.
    rewrite filter_cons.
    destruct (decide (target e = v)) as [Ht|Ht].
    + rewrite decide_True by (split; [done|congruence]).
      cbn [length]. lia.
    + rewrite decide_False by naive_solver. lia.
  - destruct (decide (target e = v ∧ source e ∉ emitted)) as [[Ht Hn]|Hn].
    + rewrite decide_True by set_solver. cbn [length]. lia.
    + rewrite decide_False by set_solver. lia.
Qed.

Lemma hits_pos_elem v es : (1 ≤ hits v es)%Z → ∃ e, e ∈ es ∧ target e = v.
Proof.
  unfold hits. intros H.
  destruct (filter (λ e, target e = v) es) as [|e l] eqn:Hf; [cbn in H; lia|].
  assert (e ∈ filter (λ e, target e = v) es) as Hin by (rewrite Hf; left).
  apply list_elem_of_filter in Hin as [Ht He]. by exists e.
Qed.

Lemma sources_first_app l news :
  sources_first edges l →
  (∀ v e, v ∈ news → e ∈ edges → target e = v → source e ∈ l) →
  sources_first edges (l ++ news).
Proof.
  intros Hl Hnews l1 v l2 e Heq He Ht.
  apply app_eq_inv in Heq as [(k & -> & Hk)|(k & -> & Hk)].
  - destruct k as [|w k].
    + rewrite app_nil_r in Hnews. cbn in Hk. eapply Hnews; [|done..].
      rewrite <- Hk. left.
    + cbn in Hk. injection Hk as -> ->. by eapply Hl.
  - apply elem_of_app. left. eapply Hnews; [|done..].
    rewrite Hk. apply elem_of_app. right. left.
Qed.

Lemma sources_first_before l e :
  sources_first edges l → e ∈ edges → target e ∈ l → before l (source e) (target e).
Proof.
  intros Hl He Ht.
  apply list_elem_of_split in Ht as (l1 & l3 & ->).
  pose proof (Hl l1 (target e) l3 e eq_refl He eq_refl) as Hs.
  apply list_elem_of_split in Hs as (l0 & l2 & ->).
  exists l0, l2, l3. by rewrite <- app_assoc.
Qed.

(** One pass of the [while] loop keeps the invariant. *)
Lemma kahn_inv_step deg u queue result :
  kahn_inv edges ids deg (u :: queue) result →
  let st := fold_left relax_edge (filter (λ e, source e = u) edges) (deg, queue) in
  kahn_inv edges ids st.1 st.2 (result ++ [u]).
Proof.
  intros [Hnd Hids Hdeg Hnum Hready Hord Hseed]. cbn zeta.
  set (es := filter (λ e, source e = u) edges).
  destruct (relax_fold es deg queue) as [Hst1 (news & Hst2 & Hndn & Hnews)].
  rewrite Hst2.
  assert (u ∉ result) as Hu.
  { apply NoDup_app in Hnd as (_ & Hd & _). intros Hin. apply (Hd u Hin). left. }
  assert (∀ v, pending edges v result = (pending edges v (result ++ [u]) + hits v es)%Z) as Hsplit
    by (intros v; by apply pending_split).
  assert ((result ++ [u]) ++ queue ++ news = (result ++ u :: queue) ++ news) as Hshape
    by (by rewrite <- !app_assoc).
  assert (∀ v, v ∈ news → v ∈ ids ∧ (1 ≤ pending edges v result)%Z
                            ∧ pending edges v (result ++ [u]) = 0%Z) as Hnew.
  { intros v (z & Hz & Hle)%Hnews.
    assert (v ∈ ids) as Hv by (by eapply Hnum).
    rewrite (Hdeg v Hv) in Hz. injection Hz as <-.
    pose proof (Hsplit v). pose proof (pending_nonneg v (result ++ [u])).
    split; [done|]. split; lia. }
  split.
  - rewrite Hshape. apply NoDup_app. split; [done|]. split; [|done].
    intros v Hold Hin. apply Hnew in Hin as (Hv & Hpos & _).
    apply (Hready v Hv) in Hold. lia.
  - rewrite Hshape. intros v [Hin|Hin]%elem_of_app; [by apply Hids|by apply Hnew].
  - intros v Hv. rewrite Hst1, (Hdeg v Hv).
    pose proof (Hsplit v). case_decide as Hz; cbn; do 2 f_equal; lia.
  - intros v z. rewrite Hst1. case_decide as Hz; [by apply Hnum|].
    destruct (deg !! v) as [[z'|]|] eqn:Hl; cbn; [|done..].
    intros _. by eapply Hnum.
  - intros v Hv. rewrite Hshape. rewrite elem_of_app.
    pose proof (Hsplit v). pose proof (pending_nonneg v (result ++ [u])).
    pose proof (hits_nonneg v es). split.
    + intros [Hin|Hin]; [|by apply Hnew]. apply (Hready v Hv) in Hin. lia.
    + intros Hz. destruct (decide (pending edges v result = 0%Z)) as [Hp|Hp].
      * left. by apply Hready.
      * right. apply Hnews. exists (pending edges v result). split; [by apply Hdeg|].
        pose proof (pending_nonneg v result). lia.
  - rewrite Hshape. apply sources_first_app; [done|].
    intros v e Hin He Ht. apply Hnew in Hin as (_ & _ & Hz).
    pose proof (proj1 (pending_zero v (result ++ [u])) Hz e He Ht) as Hs.
    apply elem_of_app in Hs as [Hs|Hs].
    + apply elem_of_app. by left.
    + apply list_elem_of_singleton in Hs as ->. apply elem_of_app. right. left.
  - rewrite Hshape. intros v [Hin|Hin]%elem_of_app; [by apply Hseed|].
    pose proof (Hnew v Hin) as (Hv & _ & _).
    apply Hnews in Hin as (z & _ & Hle).
    destruct (hits_pos_elem v es) as (e & He & Ht); [lia|].
    apply list_elem_of_filter in He as [Hs He].
    destruct (Hseed u) as (s & Hs1 & Hs2 & Hs3); [apply elem_of_app; right; left|].
    exists s. split; [done|]. split; [done|].
    eapply rtc_r; [exact Hs3|]. by exists e.
Qed.

(** The loop ends within the fuel it is given and keeps the invariant. *)
Lemma kahn_loop_inv (fuel : nat) :
  ∀ deg queue result,
    kahn_inv edges ids deg queue result →
    (List.length ids ≤ fuel + List.length result)%nat →
    ∃ r deg', kahn_loop fuel (createEdgeIndex edges) deg queue result = Some r
              ∧ kahn_inv edges ids deg' [] r.
Proof.
  induction fuel as [|fuel IH]; intros deg queue result Hinv Hlen.
  - destruct queue as [|u queue]; [by exists result, deg|].
    exfalso. destruct Hinv as [Hnd Hids _ _ _ _ _].
    pose proof (submseteq_length _ _ (NoDup_submseteq _ _ Hnd Hids)) as Hle.
    rewrite length_app in Hle. cbn in Hle, Hlen. lia.
  - destruct queue as [|u queue]; [by exists result, deg|].
    cbn [kahn_loop]. rewrite bySource_spec.
    apply kahn_inv_step in Hinv. cbn zeta in Hinv.
    apply IH; [done|]. rewrite length_app. cbn. lia.
Qed.

End Kahn.

(** ** What the sorter returns *)

Lemma pending_pos_elem (edges : list Edge) (v : string) (emitted : list string) :
  pending edges v emitted ≠ 0%Z →
  ∃ e, e ∈ edges ∧ target e = v ∧ source e ∉ emitted.
Proof.
  unfold pending. intros H.
  destruct (filter (λ e, target e = v ∧ source e ∉ emitted) edges) as [|e l] eqn:Hf;
    [done|].
  assert (e ∈ filter (λ e, target e = v ∧ source e ∉ emitted) edges) as Hin
    by (rewrite Hf; left).
  apply list_elem_of_filter in Hin as [[Ht Hs] He]. by exists e.
Qed.

Lemma kahn_inv_init (nodes : list WorkflowNodes) (edges : list Edge) :
  NoDup (id <$> nodes) →
  let deg := init_inDegree (createEdgeIndex edges) nodes in
  kahn_inv edges (id <$> nodes) deg
    (id <$> filter (λ node, deg !! id node = Some (Num 0)) nodes) [].
Proof.
  intros Hnd deg.
  assert (∀ v, v ∈ (id <$> nodes) → deg !! v = Some (Num (pending edges v []))) as Hdeg.
  { intros v Hv. unfold deg. rewrite init_inDegree_lookup, decide_True by done.
    by rewrite byTarget_spec, pending_nil. }
  assert (∀ v, v ∈ id <$> filter (λ node, deg !! id node = Some (Num 0)) nodes
               ↔ v ∈ (id <$> nodes) ∧ pending edges v [] = 0%Z) as Hq.
  { intros v. split.
    - intros (n & -> & [Hz Hn]%list_elem_of_filter)%list_elem_of_fmap.
      assert (id n ∈ (id <$> nodes)) as Hin by (by apply list_elem_of_fmap_2).
      split; [done|]. rewrite (Hdeg _ Hin) in Hz. congruence.
    - intros [Hin Hz]. pose proof (Hdeg v Hin) as Hl.
      apply list_elem_of_fmap in Hin as (n & -> & Hn).
      apply list_elem_of_fmap_2, list_elem_of_filter. split; [|done]. by rewrite Hl, Hz. }
  split; cbn [app].
  - eapply sublist_NoDup; [exact Hnd|]. apply fmap_sublist, sublist_filter.
  - intros v Hv. by apply Hq.
  - done.
  - intros v z. unfold deg. rewrite init_inDegree_lookup. by case_decide.
  - intros v Hv. rewrite Hq. naive_solver.
  - intros l1 v l2 e Heq He Ht.
    assert (pending edges v [] = 0%Z) as Hz.
    { apply Hq. rewrite Heq. apply elem_of_app. right. left. }
    pose proof (proj1 (pending_zero edges v []) Hz e He Ht) as Hs. by inversion Hs.
  - intros v [Hv Hz]%Hq. exists v. split; [done|]. split; [by rewrite <- pending_nil|].
    apply rtc_refl.
Qed.

(** The sorter terminates on every graph with distinct node ids, and the ids
    it emits are distinct node ids, each after the sources of all its incoming
    edges, each reachable from a node without incoming edges; a node id is
    emitted exactly when all its incoming edges start at emitted ids. *)
Lemma sorted_ids_spec (nodes : list WorkflowNodes) (edges : list Edge) :
  NoDup (id <$> nodes) →
  ∃ r, sorted_ids nodes edges = Some r
       ∧ NoDup r
       ∧ (∀ v, v ∈ r → v ∈ (id <$> nodes))
       ∧ sources_first edges r
       ∧ (∀ v, v ∈ r → from_seed edges (id <$> nodes) v)
       ∧ (∀ v, v ∈ (id <$> nodes) → (v ∈ r ↔ pending edges v r = 0%Z)).
Proof.
  intros Hnd. unfold sorted_ids.
  pose proof (kahn_inv_init nodes edges Hnd) as Hinit. cbn zeta in Hinit.
  destruct (kahn_loop_inv edges (id <$> nodes) (List.length nodes) _ _ _ Hinit)
    as (r & deg' & Hr & [H1 H2 H3 H4 H5 H6 H7]).
  { rewrite length_fmap. cbn. lia. }
  rewrite app_nil_r in *.
  exists r. by repeat split; try apply H5.
Qed.

Lemma omap_nodeIndex_ids (nodes : list WorkflowNodes) (r : list string) :
  NoDup (id <$> nodes) →
  (∀ v, v ∈ r → v ∈ (id <$> nodes)) →
  id <$> omap (λ i, build_nodeIndex nodes !! i) r = r.
Proof.
  intros Hnd. induction r as [|v r IH]; intros Hr; [done|].
  destruct (proj1 (list_elem_of_fmap _ _ _) (Hr v ltac:(left))) as (n & -> & Hn).
  cbn [omap list_omap]. rewrite (build_nodeIndex_lookup nodes n Hnd Hn). cbn.
  f_equal. apply IH. intros w Hw. apply Hr. by right.
Qed.

(** An edge list whose edges all go up along some ranking has no cycle. *)
Lemma ranked_acyclic (edges : list Edge) (rank : string → nat) :
  (∀ e, e ∈ edges → (rank (source e) < rank (target e))%nat) →
  ∀ v, ¬ path edges v v.
Proof.
  intros Hrank.
  assert (∀ u v, path edges u v → (rank u < rank v)%nat) as Hp.
  { intros u v Huv. induction Huv as [u v (e & He & <- & <-)|u w v (e & He & <- & <-) _ IH].
    - by apply Hrank.
    - pose proof (Hrank e He). lia. }
  intros v Hv. apply Hp in Hv. lia.
Qed.

Lemma topologicalSort_ids (nodes : list WorkflowNodes) (edges : list Edge) :
  NoDup (id <$> nodes) →
  ∃ r out, sorted_ids nodes edges = Some r
    ∧ topologicalSort nodes edges = Some out
    ∧ id <$> out = r
    ∧ NoDup r
    ∧ NoDup out
    ∧ (∀ n, n ∈ out ↔ n ∈ nodes ∧ id n ∈ r).
Proof.
  intros Hnd.
  destruct (sorted_ids_spec nodes edges Hnd) as (r & Hr & Hndr & Hsub & _).
  exists r, (omap (λ i, build_nodeIndex nodes !! i) r).
  pose proof (omap_nodeIndex_ids nodes r Hnd Hsub) as Hmap.
  unfold topologicalSort. rewrite Hr.
  split; [done|]. split; [done|]. split; [done|]. split; [done|]. split.
  - apply (NoDup_fmap_1 id). by rewrite Hmap.
  - intros n. split.
    + intros (i & Hi & Hl)%list_elem_of_omap.
      apply build_nodeIndex_elem in Hl as [Hn <-]. done.
    + intros [Hn Hi]. apply list_elem_of_omap. exists (id n). split; [done|].
      by apply build_nodeIndex_lookup.
Qed.

(** Along a list in which sources come first, whatever leads to an element
    stands before it. *)
Lemma sources_first_path (edges : list Edge) (l : list string) (u v : string) :
  sources_first edges l →
  path edges u v →
  ∀ l1 l2, l = l1 ++ v :: l2 → u ∈ l1.
Proof.
  intros Hsf Hp.
  induction Hp as [u v (e & He & <- & <-)|u y v (e & He & <- & <-) _ IH]; intros l1 l2 Hl.
  - by eapply Hsf.
  - pose proof (IH l1 l2 Hl) as (l1a & l1b & ->)%list_elem_of_split.
    rewrite <- app_assoc in Hl. cbn [app] in Hl.
    pose proof (Hsf _ _ _ e Hl He eq_refl). set_solver.
Qed.

(** In a list without repetition in which sources come first, nothing stands
    that lies on a directed cycle or can be reached from one. *)
Lemma sources_first_no_cycle (edges : list Edge) (l : list string) (v w : string) :
  sources_first edges l →
  NoDup l →
  path edges v v →
  reach edges v w →
  w ∉ l.
Proof.
  intros Hsf Hnd Hcyc Hreach Hw.
  assert (path edges v w) as Hvw.
  { apply rtc_tc in Hreach as [<-|Hp]; done. }
  assert (v ∈ l) as (l1 & l2 & ->)%list_elem_of_split.
  { apply list_elem_of_split in Hw as (l1 & l2 & ->).
    pose proof (sources_first_path edges _ v w Hsf Hvw l1 l2 eq_refl). set_solver. }
  pose proof (sources_first_path edges _ v v Hsf Hcyc l1 l2 eq_refl) as Hin.
  apply NoDup_app in Hnd as (_ & Hdisj & _). apply (Hdisj v Hin). left.
Qed.

(** C4 (amended). On every graph with distinct node ids (cyclic or not) the
    sorter returns a result, never an error: the result holds no node twice
    and is a subsequence of some ordering of the input nodes; a node that
    cannot be reached from a node without incoming edges is absent from it,
    and so is every node that lies on a directed cycle or can be reached from
    one, whether or not it can also be reached from a node without incoming
    edges. *)
Theorem topologicalSort_any_graph (nodes : list WorkflowNodes) (edges : list Edge) :
  NoDup (id <$> nodes) →
  ∃ out, topologicalSort nodes edges = Some out
    ∧ NoDup out
    ∧ (∃ ordering, ordering ≡ₚ nodes ∧ out `sublist_of` ordering)
    ∧ (∀ n, n ∈ nodes → ¬ from_seed edges (id <$> nodes) (id n) → n ∉ out)
    ∧ (∀ n v, n ∈ nodes → path edges v v → reach edges v (id n) → n ∉ out).
Proof.
  intros Hnd.
  destruct (topologicalSort_ids nodes edges Hnd) as (r & out & Hr & Hout & Hmap & Hndr & Hndo & Hin).
  destruct (sorted_ids_spec nodes edges Hnd) as (r' & Hr' & _ & _ & Hsf & Hseed & _).
  assert (r' = r) as -> by congruence.
  exists out. split; [done|]. split; [done|]. split; [|split].
  - assert (out ⊆+ nodes) as (ordering & Hsub & Hperm)%submseteq_sublist_l.
    { apply NoDup_submseteq; [done|]. intros n Hn. by apply Hin. }
    by exists ordering.
  - intros n _ Hno Hn. apply Hno, Hseed. by apply Hin.
  - intros n v _ Hcyc Hreach Hn.
    apply (sources_first_no_cycle edges r v (id n) Hsf Hndr Hcyc Hreach). by apply Hin.
Qed.

(** C3 (amended). On a graph with distinct node ids, no cycle through a node,
    and no edge that enters a node from an id that is not a node, the sorter
    returns every input node exactly once, and the source of every edge
    between two input nodes stands before its target. *)
Theorem topologicalSort_dag (nodes : list WorkflowNodes) (edges : list Edge) :
  NoDup (id <$> nodes) →
  acyclic_on edges (id <$> nodes) →
  (∀ e, e ∈ edges → target e ∈ (id <$> nodes) → source e ∈ (id <$> nodes)) →
  ∃ out, topologicalSort nodes edges = Some out
    ∧ out ≡ₚ nodes
    ∧ NoDup out
    ∧ (∀ e, e ∈ edges → source e ∈ (id <$> nodes) → target e ∈ (id <$> nodes) →
            before (id <$> out) (source e) (target e)).
Proof.
  intros Hnd Hacyc Hclosed.
  destruct (topologicalSort_ids nodes edges Hnd) as (r & out & Hr & Hout & Hmap & _ & Hndo & Hin).
  destruct (sorted_ids_spec nodes edges Hnd) as (r' & Hr' & _ & Hsub & Hord & _ & Hready).
  assert (r' = r) as -> by congruence.
  assert (∀ v, v ∈ (id <$> nodes) → v ∈ r) as Hall.
  { intros v Hv. destruct (decide (v ∈ r)) as [|Hnot]; [done|]. exfalso.
    apply (no_predecessor_closed_set edges (filter (λ x, x ∉ r) (id <$> nodes))).
    - intros x [_ Hx]%list_elem_of_filter. by apply Hacyc.
    - intros Hnil. assert (v ∈ filter (λ x, x ∉ r) (id <$> nodes)) as Hv'
        by (by apply list_elem_of_filter).
      rewrite Hnil in Hv'. by inversion Hv'.
    - intros x [Hxr Hx]%list_elem_of_filter.
      destruct (pending_pos_elem edges x r) as (e & He & Ht & Hs).
      { intros Hz. by apply Hxr, Hready. }
      exists (source e). split.
      + apply list_elem_of_filter. split; [done|]. apply Hclosed; [done|]. by rewrite Ht.
      + apply tc_once. by exists e. }
  exists out. split; [done|]. split; [|split; [done|]].
  - apply NoDup_Permutation; [done|by apply (NoDup_fmap_1 id)|].
    intros n. rewrite Hin. split; [by intros [? _]|]. intros Hn. split; [done|].
    by apply Hall, list_elem_of_fmap_2.
  - intros e He _ Ht. rewrite Hmap. apply (sources_first_before edges); [done..|].
    by apply Hall.
Qed.

(** ** Reasoning about traces *)

Lemma emits_mret {A} (P : Effect → Prop) (a : A) : emits P (mret a).
Proof. intros tr. exists []. by rewrite app_nil_r. Qed.

Lemma emits_throw {A} (P : Effect → Prop) (e : JsValue) : emits P (throw (A := A) e).
Proof. intros tr. exists []. by rewrite app_nil_r. Qed.

Lemma emits_await {A} (P : Effect → Prop) (answer : list Effect → JsValue + A) :
  emits P (await answer).
Proof. intros tr. exists []. unfold await. rewrite app_nil_r. by destruct (answer tr). Qed.

Lemma emits_observe {A} (P : Effect → Prop) (value : list Effect → A) :
  emits P (observe value).
Proof. intros tr. exists []. by rewrite app_nil_r. Qed.

Lemma emits_emit (P : Effect → Prop) (e : Effect) : P e → emits P (emit e).
Proof. intros He tr. exists [e]. split; [done|]. by constructor. Qed.

Lemma emits_postMessage (P : Effect → Prop) (m : WorkflowFromExtension) :
  P (PostMessage m) → emits P (postMessage m).
Proof. apply emits_emit. Qed.

Lemma emits_bind {A B} (P : Effect → Prop) (m : Exec A) (f : A → Exec B) :
  emits P m → (∀ a, emits P (f a)) → emits P (m ≫= f).
Proof.
  intros Hm Hf tr. destruct (Hm tr) as (n1 & H1 & HP1).
  unfold mbind, Exec_bind. destruct (m tr) as [tr1 [a|e]]; cbn in H1; subst tr1.
  - destruct (Hf a (tr ++ n1)) as (n2 & H2 & HP2).
    exists (n1 ++ n2). rewrite H2, app_assoc. split; [done|]. by apply Forall_app.
  - by exists n1.
Qed.

Lemma emits_try_catch {A} (P : Effect → Prop) (body : Exec A) (handler : JsValue → Exec A) :
  emits P body → (∀ e, emits P (handler e)) → emits P (try_catch body handler).
Proof.
  intros Hm Hf tr. destruct (Hm tr) as (n1 & H1 & HP1).
  unfold try_catch. destruct (body tr) as [tr1 [a|e]]; cbn in H1; subst tr1.
  - by exists n1.
  - destruct (Hf e (tr ++ n1)) as (n2 & H2 & HP2).
    exists (n1 ++ n2). rewrite H2, app_assoc. split; [done|]. by apply Forall_app.
Qed.

Lemma emits_mono {A} (P Q : Effect → Prop) (m : Exec A) :
  (∀ e, P e → Q e) → emits P m → emits Q m.
Proof.
  intros HPQ Hm tr. destruct (Hm tr) as (new & H1 & HP).
  exists new. split; [done|]. eapply Forall_impl; eauto.
Qed.

Ltac emits_step :=
  first
    [ apply emits_mret | apply emits_throw | apply emits_await | apply emits_observe
    | apply emits_postMessage | apply emits_emit
    | apply emits_bind; [|intros ?] | apply emits_try_catch; [|intros ?] ].

Ltac emits_auto :=
  repeat (first [ emits_step | case_match ]).

Lemma executeCLINode_emits (env : Collaborators) (node : WorkflowNodes) :
  emits (λ e, concerns (id node) e ∧ executor_effect e) (executeCLINode env node).
Proof.
  unfold executeCLINode. emits_auto; unfold concerns, executor_effect; cbn; naive_solver.
Qed.

Lemma executeLLMNode_emits (env : Collaborators) (node : WorkflowNodes) :
  emits (λ e, concerns (id node) e ∧ executor_effect e) (executeLLMNode env node).
Proof.
  unfold executeLLMNode. emits_auto; unfold concerns, executor_effect; cbn; naive_solver.
Qed.

Lemma executePreviewNode_emits (env : Collaborators) (input nodeId : string) :
  emits (λ e, concerns nodeId e ∧ executor_effect e) (executePreviewNode env input nodeId).
Proof.
  unfold executePreviewNode. emits_auto; unfold concerns, executor_effect; cbn; naive_solver.
Qed.

Lemma executeInputNode_emits (P : Effect → Prop) (input : string) :
  emits P (executeInputNode input).
Proof. unfold executeInputNode. emits_auto. Qed.

Lemma executeSearchContextNode_emits (env : Collaborators) (input i : string) :
  emits (λ e, concerns i e ∧ executor_effect e) (executeSearchContextNode env input).
Proof.
  unfold executeSearchContextNode. emits_auto; unfold concerns, executor_effect; cbn; naive_solver.
Qed.

Lemma emits_run {A} (P : Effect → Prop) (m : Exec A) tr tr' r :
  emits P m → m tr = (tr', r) → ∃ new, tr' = tr ++ new ∧ Forall P new.
Proof. intros Hm Hr. destruct (Hm tr) as (new & H1 & HP). rewrite Hr in H1. by exists new. Qed.

Lemma dispatch_emits (env : Collaborators) (node : WorkflowNodes)
    (context : IndexedExecutionContext) :
  emits (concerns (id node)) (dispatch env node context).
Proof.
  unfold dispatch. destruct (type node).
  - apply emits_try_catch.
    + apply emits_bind; [|intros; apply emits_mret].
      eapply emits_mono; [|apply executeCLINode_emits]. by intros e [? _].
    + intros e. emits_auto; unfold concerns; cbn; naive_solver.
  - apply emits_bind; [|intros; apply emits_mret].
    eapply emits_mono; [|apply executeLLMNode_emits]. by intros e [? _].
  - apply emits_bind; [|intros; apply emits_mret].
    eapply emits_mono; [|apply executePreviewNode_emits]. by intros e [? _].
  - apply emits_bind; [|intros; apply emits_mret]. apply executeInputNode_emits.
  - apply emits_bind; [|intros; apply emits_mret].
    eapply emits_mono; [|apply (executeSearchContextNode_emits _ _ (id node))].
    by intros e [? _].
  - emits_auto; unfold concerns; cbn; naive_solver.
Qed.

(** A dispatch that does not end in the early return reports no failure and
    does not announce the end of the run. *)
Lemma dispatch_quiet (env : Collaborators) (node : WorkflowNodes)
    (context : IndexedExecutionContext) tr tr' r :
  dispatch env node context tr = (tr', r) →
  r ≠ Returned None →
  ∃ new, tr' = tr ++ new ∧ Forall executor_effect new.
Proof.
  unfold dispatch. destruct (type node); intros Hrun Hr.
  - unfold try_catch, mbind, Exec_bind in Hrun.
    match type of Hrun with context [executeCLINode ?e ?n ?t] =>
      destruct (executeCLINode e n t) as [tr1 [a|x]] eqn:Hcli end.
    + injection Hrun as <- <-.
      destruct (emits_run _ _ _ _ _ (executeCLINode_emits _ _) Hcli) as (new & -> & HP).
      exists new. split; [done|]. eapply Forall_impl; [exact HP|]. by intros e [_ ?].
    + cbn in Hrun. injection Hrun as _ <-. done.
  - eapply emits_run; [|exact Hrun].
    apply emits_bind; [|intros; apply emits_mret].
    eapply emits_mono; [|apply executeLLMNode_emits]. by intros e [_ ?].
  - eapply emits_run; [|exact Hrun].
    apply emits_bind; [|intros; apply emits_mret].
    eapply emits_mono; [|apply executePreviewNode_emits]. by intros e [_ ?].
  - eapply emits_run; [|exact Hrun].
    apply emits_bind; [|intros; apply emits_mret]. apply executeInputNode_emits.
  - eapply emits_run; [|exact Hrun].
    apply emits_bind; [|intros; apply emits_mret].
    eapply emits_mono; [|apply (executeSearchContextNode_emits _ _ (id node))].
    by intros e [_ ?].
  - eapply emits_run; [|exact Hrun].
    emits_auto; unfold executor_effect; cbn; naive_solver.
Qed.

(** What a turn of the loop may name: the node of the turn, when it is not
    skipped. *)
Lemma execute_node_emits (env : Collaborators) (inactive : gset string)
    (node : WorkflowNodes) (context : IndexedExecutionContext) :
  emits (λ e, ∀ j, event_node e = Some j → j = id node ∧ j ∉ inactive)
    (execute_node env inactive node context).
Proof.
  unfold execute_node. case_decide as Hin; [apply emits_mret|].
  apply emits_bind; [apply emits_postMessage; cbn; naive_solver|intros _].
  apply emits_bind.
  - eapply emits_mono; [|apply dispatch_emits]. intros e He j Hj.
    apply He in Hj as ->. done.
  - intros [result|]; emits_auto; cbn; naive_solver.
Qed.

Lemma execute_node_quiet (env : Collaborators) (inactive : gset string)
    (node : WorkflowNodes) (context : IndexedExecutionContext) tr tr' r :
  execute_node env inactive node context tr = (tr', r) →
  r ≠ Returned Return →
  ∃ new, tr' = tr ++ new ∧ Forall executor_effect new.
Proof.
  unfold execute_node. case_decide as Hin.
  - intros [= <- <-] _. exists []. by rewrite app_nil_r.
  - unfold mbind, Exec_bind, postMessage, emit, mret, Exec_ret.
    destruct (dispatch env node context _) as [tr1 [[result|]|x]] eqn:Hd.
    + intros [= <- <-] _.
      destruct (dispatch_quiet _ _ _ _ _ _ Hd ltac:(done)) as (new & -> & HP).
      eexists. rewrite <- !app_assoc. split; [done|].
      constructor; [done|]. apply Forall_app. split; [done|]. by constructor.
    + by intros [= <- <-].
    + intros [= <- <-] _.
      destruct (dispatch_quiet _ _ _ _ _ _ Hd ltac:(done)) as (new & -> & HP).
      eexists. rewrite <- !app_assoc. split; [done|]. by constructor.
Qed.

Lemma run_nodes_emits (env : Collaborators) (inactive : gset string)
    (sortedNodes : list WorkflowNodes) :
  ∀ context,
    emits (λ e, ∀ j, event_node e = Some j → j ∈ id <$> sortedNodes ∧ j ∉ inactive)
      (run_nodes env inactive sortedNodes context).
Proof.
  induction sortedNodes as [|node rest IH]; intros context; [apply emits_mret|].
  cbn [run_nodes]. apply emits_bind.
  - eapply emits_mono; [|apply execute_node_emits].
    intros e He j Hj. apply He in Hj as [-> ?]. split; [|done]. rewrite fmap_cons. left.
  - intros [context'|]; [|apply emits_mret].
    eapply emits_mono; [|apply IH].
    intros e He j Hj. apply He in Hj as [? ?]. split; [|done]. rewrite fmap_cons. by right.
Qed.

Lemma run_nodes_quiet (env : Collaborators) (inactive : gset string)
    (sortedNodes : list WorkflowNodes) :
  ∀ context tr tr' r,
    run_nodes env inactive sortedNodes context tr = (tr', r) →
    r ≠ Returned Return →
    ∃ new, tr' = tr ++ new ∧ Forall executor_effect new.
Proof.
  induction sortedNodes as [|node rest IH]; intros context tr tr' r.
  - intros [= <- <-] _. exists []. by rewrite app_nil_r.
  - cbn [run_nodes]. unfold mbind, Exec_bind.
    destruct (execute_node env inactive node context tr) as [tr1 [[context'|]|x]] eqn:Hn.
    + intros Hrest Hr.
      destruct (execute_node_quiet _ _ _ _ _ _ _ Hn ltac:(done)) as (n1 & -> & HP1).
      destruct (IH _ _ _ _ Hrest Hr) as (n2 & -> & HP2).
      exists (n1 ++ n2). rewrite app_assoc. split; [done|]. by apply Forall_app.
    + by intros [= <- <-].
    + intros [= <- <-] _. by eapply execute_node_quiet.
Qed.

(** The loop over a list that is split in two. *)
Lemma run_nodes_app (env : Collaborators) (inactive : gset string)
    (pre rest : list WorkflowNodes) :
  ∀ context tr,
    run_nodes env inactive (pre ++ rest) context tr =
      match run_nodes env inactive pre context tr with
      | (tr', Returned (Next context')) => run_nodes env inactive rest context' tr'
      | r => r
      end.
Proof.
  induction pre as [|node pre IH]; intros context tr; [done|].
  cbn [app run_nodes]. unfold mbind, Exec_bind.
  destruct (execute_node env inactive node context tr) as [tr1 [[context'|]|x]]; [|done..].
  apply IH.
Qed.

(** ** The inactive closure *)

Lemma elem_of_successors (edges : list Edge) (seen : gset string) (y : string) :
  y ∈ successors edges seen ↔ ∃ e, e ∈ edges ∧ source e ∈ seen ∧ target e = y.
Proof.
  unfold successors. rewrite elem_of_list_to_set, list_elem_of_fmap. split.
  - intros (e & -> & [Hs He]%list_elem_of_filter). by exists e.
  - intros (e & He & Hs & <-). exists e. split; [done|]. by apply list_elem_of_filter.
Qed.

Lemma size_list_to_set_le (l : list string) :
  (size (list_to_set l : gset string) ≤ List.length l)%nat.
Proof.
  induction l as [|x l IH]; [done|]. cbn [list_to_set List.length].
  destruct (decide (x ∈ (list_to_set l : gset string))) as [Hin|Hout].
  - assert ({[x]} ∪ list_to_set l = (list_to_set l : gset string)) as -> by set_solver. lia.
  - rewrite size_union by set_solver. rewrite size_singleton. lia.
Qed.

Lemma saturate_subseteq (edges : list Edge) (rounds : nat) :
  ∀ seen, seen ⊆ saturate rounds edges seen.
Proof.
  induction rounds as [|rounds IH]; intros seen; [done|].
  cbn [saturate]. etrans; [|apply IH]. set_solver.
Qed.

Lemma saturate_sound (edges : list Edge) (rounds : nat) :
  ∀ seen y, y ∈ saturate rounds edges seen → ∃ x, x ∈ seen ∧ reach edges x y.
Proof.
  induction rounds as [|rounds IH]; intros seen y Hy.
  - exists y. split; [done|]. apply rtc_refl.
  - cbn [saturate] in Hy. apply IH in Hy as (x & Hx & Hxy).
    apply elem_of_union in Hx as [Hx|Hx]; [by exists x|].
    apply elem_of_successors in Hx as (e & He & Hs & Ht).
    exists (source e). split; [done|].
    eapply rtc_l; [|exact Hxy]. by exists e.
Qed.

Lemma saturate_closed_id (edges : list Edge) (rounds : nat) (seen : gset string) :
  closed_under edges seen → saturate rounds edges seen = seen.
Proof.
  intros Hc. induction rounds as [|rounds IH]; [done|]. cbn [saturate].
  assert (seen ∪ successors edges seen = seen) as ->; [|done].
  apply set_eq. intros y. rewrite elem_of_union, elem_of_successors.
  split; [|by left]. intros [?|(e & He & Hs & <-)]; [done|]. by apply Hc.
Qed.

Lemma saturate_closed (edges : list Edge) (rounds : nat) :
  ∀ seen,
    (size ((list_to_set (target <$> edges) : gset string) ∖ seen) ≤ rounds)%nat →
    closed_under edges (saturate rounds edges seen).
Proof.
  induction rounds as [|rounds IH]; intros seen Hsize.
  - cbn [saturate]. intros e He Hs.
    assert (size ((list_to_set (target <$> edges) : gset string) ∖ seen) = 0%nat) as Hz by lia.
    apply size_empty_iff in Hz.
    destruct (decide (target e ∈ seen)) as [|Hn]; [done|]. exfalso.
    assert (target e ∈ (list_to_set (target <$> edges) : gset string) ∖ seen) as Hin.
    { apply elem_of_difference. split; [|done].
      apply elem_of_list_to_set, list_elem_of_fmap_2. done. }
    rewrite Hz in Hin. set_solver.
  - cbn [saturate].
    destruct (decide (successors edges seen ∖ seen = ∅)) as [Hfix|Hnew].
    + assert (closed_under edges seen) as Hc.
      { intros e He Hs. destruct (decide (target e ∈ seen)) as [|Hn]; [done|]. exfalso.
        assert (target e ∈ successors edges seen ∖ seen) as Hin.
        { apply elem_of_difference. split; [|done]. apply elem_of_successors. by exists e. }
        rewrite Hfix in Hin. set_solver. }
      assert (seen ∪ successors edges seen = seen) as ->.
      { apply set_eq. intros y. rewrite elem_of_union, elem_of_successors.
        split; [|by left]. intros [?|(e & He & Hs & <-)]; [done|]. by apply Hc. }
      by rewrite saturate_closed_id.
    + apply set_choose_L in Hnew as (t & [Ht Hnot]%elem_of_difference).
      apply IH.
      assert ((list_to_set (target <$> edges) : gset string) ∖ (seen ∪ successors edges seen)
                ⊂ (list_to_set (target <$> edges) : gset string) ∖ seen) as Hlt.
      { split; [set_solver|]. intros Hsub. 
        assert (t ∈ (list_to_set (target <$> edges) : gset string) ∖ seen) as Hin.
        { apply elem_of_difference. split; [|done].
          apply elem_of_successors in Ht as (e & He & _ & <-).
          apply elem_of_list_to_set, list_elem_of_fmap_2. done. }
        apply Hsub in Hin. set_solver. }
      apply subset_size in Hlt. lia.
Qed.

Lemma closed_under_reach (edges : list Edge) (seen : gset string) (x y : string) :
  closed_under edges seen → x ∈ seen → reach edges x y → y ∈ seen.
Proof.
  intros Hc Hx Hxy. induction Hxy as [|x z y (e & He & <- & <-) _ IH]; [done|].
  apply IH. by apply Hc.
Qed.

(** The modelled [getInactiveNodes] is forward reachability from the start. *)
Lemma getInactiveNodes_spec (edges : list Edge) (x y : string) :
  y ∈ getInactiveNodes edges x ↔ reach edges x y.
Proof.
  unfold getInactiveNodes. split.
  - intros (x' & Hx & Hxy)%saturate_sound. by apply elem_of_singleton in Hx as ->.
  - apply closed_under_reach.
    + apply saturate_closed.
      pose proof (size_list_to_set_le (target <$> edges)) as Hle.
      rewrite length_fmap in Hle.
      assert (size ((list_to_set (target <$> edges) : gset string) ∖ {[x]})
                ≤ size (list_to_set (target <$> edges) : gset string))%nat as Hsub
        by (apply subseteq_size; set_solver).
      lia.
    + apply saturate_subseteq. set_solver.
Qed.

(** The skip set is the union, over the nodes marked inactive, of what can be
    reached from them. *)
Lemma allInactiveNodes_spec (nodes : list WorkflowNodes) (edges : list Edge) (i : string) :
  i ∈ allInactiveNodes nodes edges ↔
    ∃ x, x ∈ nodes ∧ active (data x) = Some false ∧ reach edges (id x) i.
Proof.
  unfold allInactiveNodes.
  induction nodes as [|n nodes IH] using rev_ind.
  - cbn. split; [set_solver|]. intros (x & Hx & _). by inversion Hx.
  - rewrite fold_left_app. cbn [fold_left].
    destruct (active (data n)) as [[|]|] eqn:Hact.
    + rewrite IH. split.
      * intros (x & Hx & Ha & Hr). exists x. split; [set_solver|done].
      * intros (x & [Hx|Hx]%elem_of_app & Ha & Hr); [by exists x|].
        apply list_elem_of_singleton in Hx as ->. congruence.
    + rewrite elem_of_union, IH, getInactiveNodes_spec. split.
      * intros [(x & Hx & Ha & Hr)|Hr]; [exists x|exists n]; (split; [set_solver|done]).
      * intros (x & [Hx|Hx]%elem_of_app & Ha & Hr); [left; by exists x|].
        apply list_elem_of_singleton in Hx as ->. by right.
    + rewrite IH. split.
      * intros (x & Hx & Ha & Hr). exists x. split; [set_solver|done].
      * intros (x & [Hx|Hx]%elem_of_app & Ha & Hr); [by exists x|].
        apply list_elem_of_singleton in Hx as ->. congruence.
Qed.

(** ** The sorter terminates on every input *)

Lemma relax_edge_potential (deg : gmap string jsnum) (q : list string) (e : Edge) :
  (List.length (relax_edge (deg, q) e).2 + waiting (relax_edge (deg, q) e).1
   = List.length q + waiting deg)%nat.
Proof.
  unfold relax_edge, waiting. cbn [fst snd].
  destruct (deg !! target e) as [[z|]|] eqn:Hl; cbn [js_pred js_is_zero].
  - destruct (decide (z = 1%Z)) as [->|Hz1].
    + change (1 - 1)%Z with 0%Z. rewrite Z.eqb_refl.
      rewrite length_app. cbn [List.length].
      rewrite map_filter_insert_False by (cbn; done).
      rewrite map_filter_delete, map_size_delete_Some.
      * assert (size (filter (λ kv : string * jsnum, is_positive kv.2 = true) deg) ≠ 0%nat);
          [|lia].
        apply map_size_non_empty_iff. intros Hempty.
        assert (filter (λ kv : string * jsnum, is_positive kv.2 = true) deg !! target e
                = Some (Num 1)) as Hin by (by apply map_lookup_filter_Some).
        by rewrite Hempty, lookup_empty in Hin.
      * exists (Num 1). by apply map_lookup_filter_Some.
    + rewrite (proj2 (Z.eqb_neq (z - 1) 0)) by lia.
      destruct (decide (0 < z)%Z) as [Hpos|Hneg].
      * rewrite map_filter_insert_True by (cbn; apply Z.ltb_lt; lia).
        rewrite map_size_insert_Some; [done|].
        exists (Num z). apply map_lookup_filter_Some. split; [done|]. cbn. apply Z.ltb_lt. lia.
      * rewrite map_filter_insert_False by (cbn; rewrite (proj2 (Z.ltb_ge _ _)); [done|lia]).
        rewrite map_filter_delete, map_size_delete_None; [done|].
        apply map_lookup_filter_None. right. intros x Hx. rewrite Hl in Hx.
        injection Hx as <-. cbn. rewrite (proj2 (Z.ltb_ge _ _)); [done|lia].
  - rewrite map_filter_insert_False by (cbn; done).
    rewrite map_filter_delete, map_size_delete_None; [done|].
    apply map_lookup_filter_None. right. intros x Hx. rewrite Hl in Hx. by injection Hx as <-.
  - rewrite map_filter_insert_False by (cbn; done).
    rewrite map_filter_delete, map_size_delete_None; [done|].
    apply map_lookup_filter_None. by left.
Qed.

Lemma relax_fold_potential (es : list Edge) :
  ∀ deg q,
    (List.length (fold_left relax_edge es (deg, q)).2
     + waiting (fold_left relax_edge es (deg, q)).1
     = List.length q + waiting deg)%nat.
Proof.
  induction es as [|e es IH]; intros deg q; [done|].
  cbn [fold_left]. destruct (relax_edge (deg, q) e) as [deg1 q1] eqn:Hr.
  rewrite IH. pose proof (relax_edge_potential deg q e) as Hp. by rewrite Hr in Hp.
Qed.

Lemma kahn_loop_total (idx : IndexedEdges) (fuel : nat) :
  ∀ deg queue result,
    (List.length queue + waiting deg ≤ fuel)%nat →
    is_Some (kahn_loop fuel idx deg queue result).
Proof.
  induction fuel as [|fuel IH]; intros deg queue result Hle.
  - destruct queue; [done|]. cbn in Hle. lia.
  - destruct queue as [|u queue]; [done|]. cbn [kahn_loop]. apply IH.
    rewrite relax_fold_potential. cbn in Hle. lia.
Qed.

Lemma filter_disjoint_length {A} (P Q : A → Prop)
    `{!∀ x, Decision (P x)} `{!∀ x, Decision (Q x)} (l : list A) :
  (∀ x, P x → Q x → False) →
  (List.length (filter P l) + List.length (filter Q l) ≤ List.length l)%nat.
Proof.
  intros Hdisj. induction l as [|x l IH]; [done|].
  rewrite !filter_cons. destruct (decide (P x)), (decide (Q x)); cbn [List.length];
    [by destruct (Hdisj x)|lia..].
Qed.

(** The sorter returns on every input, with or without cycles, dangling
    edges or repeated ids: the fuel of the model is never used up. *)
Lemma topologicalSort_total (nodes : list WorkflowNodes) (edges : list Edge) :
  is_Some (topologicalSort nodes edges).
Proof.
  unfold topologicalSort.
  assert (is_Some (sorted_ids nodes edges)) as [r ->]; [|done].
  unfold sorted_ids. apply kahn_loop_total.
  set (deg := init_inDegree (createEdgeIndex edges) nodes).
  rewrite length_fmap.
  assert (waiting deg
          ≤ List.length (filter (λ n, is_positive (default NaN (deg !! id n)) = true) nodes))%nat
    as Hw.
  { unfold waiting. rewrite <- (size_dom (D := gset string)).
    rewrite <- (length_fmap id).
    etrans; [|apply size_list_to_set_le]. apply subseteq_size.
    intros k [v [Hk Hv]%map_lookup_filter_Some]%elem_of_dom. cbn in Hv.
    apply elem_of_list_to_set.
    assert (k ∈ id <$> nodes) as (n & -> & Hn)%list_elem_of_fmap.
    { unfold deg in Hk. rewrite init_inDegree_lookup in Hk. by case_decide. }
    apply list_elem_of_fmap_2, list_elem_of_filter. split; [|done]. by rewrite Hk. }
  pose proof (filter_disjoint_length
                (λ n, deg !! id n = Some (Num 0))
                (λ n, is_positive (default NaN (deg !! id n)) = true) nodes) as Hd.
  etrans; [|apply Hd].
  - lia.
  - intros n H0. by rewrite H0.
Qed.

(** ** How a run ends at a failing node *)

Lemma execute_node_cli_throws (env : Collaborators) (inactive : gset string)
    (node : WorkflowNodes) (context : IndexedExecutionContext) tr tr' e :
  id node ∉ inactive →
  type node = CLI →
  executeCLINode env (cli_node_to_run node context) (tr ++ [running_event node]) = (tr', Threw e) →
  execute_node env inactive node context tr = (tr' ++ cli_failure_tail node e, Returned Return).
Proof.
  intros Hact Htype Hcli. unfold cli_node_to_run, running_event in Hcli.
  unfold execute_node, dispatch. rewrite decide_False by done. rewrite Htype.
  unfold mbind, Exec_bind, try_catch, postMessage, emit. rewrite Hcli.
  unfold cli_failure_tail, failure_report, mret, Exec_ret.
  by rewrite <- !app_assoc.
Qed.

Lemma execute_node_llm_throws (env : Collaborators) (inactive : gset string)
    (node : WorkflowNodes) (context : IndexedExecutionContext) tr tr' e :
  id node ∉ inactive →
  type node = LLM →
  executeLLMNode env (llm_node_to_run node context) (tr ++ [running_event node]) = (tr', Threw e) →
  execute_node env inactive node context tr = (tr', Threw e).
Proof.
  intros Hact Htype Hllm. unfold llm_node_to_run, running_event in Hllm.
  unfold execute_node, dispatch. rewrite decide_False by done. rewrite Htype.
  unfold mbind, Exec_bind, postMessage, emit. by rewrite Hllm.
Qed.

Lemma execute_node_unknown (env : Collaborators) (inactive : gset string)
    (node : WorkflowNodes) (context : IndexedExecutionContext) tr name :
  id node ∉ inactive →
  type node = OTHER name →
  execute_node env inactive node context tr =
    (tr ++ [running_event node; ShellDispose],
     Threw (new_Error ("Unknown node type: " +:+ name))).
Proof.
  intros Hact Htype.
  unfold execute_node, dispatch. rewrite decide_False by done. rewrite Htype.
  unfold mbind, Exec_bind, postMessage, emit, throw, running_event.
  by rewrite <- !app_assoc.
Qed.

(** A run whose loop stops at [node], by the early return or by an exception:
    nothing of the rest of the list is touched. *)
Lemma run_sorted_stops (env : Collaborators) (inactive : gset string)
    (pre post : list WorkflowNodes) (node : WorkflowNodes)
    (context0 context : IndexedExecutionContext) tr tr2 r :
  run_nodes env inactive pre context0 [PostMessage execution_started]
    = (tr, Returned (Next context)) →
  execute_node env inactive node context tr = (tr2, r) →
  (∀ c, r ≠ Returned (Next c)) →
  run_sorted env inactive (pre ++ node :: post) context0 [] =
    (tr2, match r with Threw e => Threw e | Returned _ => Returned tt end).
Proof.
  intros Hpre Hnode Hstop.
  unfold run_sorted, mbind, Exec_bind, postMessage, emit. cbn [app].
  rewrite run_nodes_app, Hpre. cbn [run_nodes]. unfold mbind, Exec_bind. rewrite Hnode.
  destruct r as [[c|]|e]; [by destruct (Hstop c)|done..].
Qed.

Lemma no_failure_reports (l : list Effect) :
  Forall executor_effect l → filter (λ ev, is_failure_report ev = true) l = [].
Proof.
  induction 1 as [|ev l [Hf _] _ IH]; [done|].
  rewrite filter_cons_False by congruence. done.
Qed.

(** C2. When a run reaches a CLI node whose executor throws, the orchestrator
    disposes the shell, emits one failure report for that node ([error], or
    [interrupted] when the message says aborted), emits [execution_completed]
    and returns: the trace ends there, it holds exactly one failure report,
    and it names no node behind the failing one. *)
Theorem cli_failure_halts_run (env : Collaborators) (nodes : list WorkflowNodes)
    (edges : list Edge) (pre post : list WorkflowNodes) (node : WorkflowNodes)
    (context : IndexedExecutionContext) (tr tr' : list Effect) (e : JsValue) :
  topologicalSort nodes edges = Some (pre ++ node :: post) →
  run_nodes env (allInactiveNodes nodes edges) pre (initial_context nodes edges)
    [PostMessage execution_started] = (tr, Returned (Next context)) →
  id node ∉ allInactiveNodes nodes edges →
  type node = CLI →
  executeCLINode env (cli_node_to_run node context) (tr ++ [running_event node])
    = (tr', Threw e) →
  executeWorkflow env nodes edges [] =
    (tr' ++ [ ShellDispose;
              ShowErrorMessage ("CLI Node Error: " +:+ error_message e);
              failure_report node e;
              PostMessage execution_completed ],
     Returned tt)
  ∧ filter (λ ev, is_failure_report ev = true) (executeWorkflow env nodes edges []).1
      = [failure_report node e]
  ∧ (∀ ev j, ev ∈ (executeWorkflow env nodes edges []).1 → event_node ev = Some j →
             j ∈ id <$> (pre ++ [node])).
Proof.
  intros Hsort Hpre Hact Htype Hcli.
  pose proof (execute_node_cli_throws env _ node context tr tr' e Hact Htype Hcli) as Hnode.
  pose proof (run_sorted_stops env _ pre post node _ context tr _ _ Hpre Hnode ltac:(done))
    as Hrun.
  assert (executeWorkflow env nodes edges [] =
            (tr' ++ cli_failure_tail node e, Returned tt)) as Heq.
  { unfold executeWorkflow. by rewrite Hsort. }
  rewrite Heq. cbn [fst]. split; [done|].
  destruct (run_nodes_quiet _ _ _ _ _ _ _ Hpre ltac:(done)) as (n1 & -> & Hq1).
  destruct (emits_run _ _ _ _ _ (run_nodes_emits env _ pre _) Hpre) as (n1' & Hn1 & Hc1).
  apply app_inv_head in Hn1 as <-.
  destruct (emits_run _ _ _ _ _ (executeCLINode_emits _ _) Hcli) as (n2 & -> & Hc2).
  split.
  - rewrite !filter_app.
    rewrite (no_failure_reports n1) by done.
    rewrite (no_failure_reports n2)
      by (eapply Forall_impl; [exact Hc2|]; by intros ev [_ ?]).
    unfold cli_failure_tail, failure_report.
    by destruct (includes (error_message e) "aborted").
  - intros ev j Hev Hj. rewrite fmap_app. apply elem_of_app.
    rewrite !elem_of_app in Hev.
    destruct Hev as [[[[Hev|Hev]|Hev]|Hev]|Hev].
    + apply list_elem_of_singleton in Hev as ->. done.
    + left. rewrite Forall_forall in Hc1. by apply (Hc1 ev Hev j).
    + apply list_elem_of_singleton in Hev as ->. right. injection Hj as <-. left.
    + right. rewrite Forall_forall in Hc2. destruct (Hc2 ev Hev) as [Hc _].
      apply Hc in Hj as ->. left.
    + right. unfold cli_failure_tail, failure_report in Hev.
      repeat (apply elem_of_cons in Hev as [->|Hev]); try done.
      * injection Hj as <-. left.
      * by inversion Hev.
Qed.

(** C10. When a run reaches a node whose type is none of the five known
    kinds, the orchestrator emits [running] for it, disposes the shell and
    throws [Unknown node type]: the trace ends there, without
    [execution_completed] and without a failure report; when node ids are
    distinct no [completed] status for that node is in the trace. *)
Theorem unknown_node_type_throws (env : Collaborators) (nodes : list WorkflowNodes)
    (edges : list Edge) (pre post : list WorkflowNodes) (node : WorkflowNodes)
    (context : IndexedExecutionContext) (tr : list Effect) (name : string) :
  topologicalSort nodes edges = Some (pre ++ node :: post) →
  run_nodes env (allInactiveNodes nodes edges) pre (initial_context nodes edges)
    [PostMessage execution_started] = (tr, Returned (Next context)) →
  id node ∉ allInactiveNodes nodes edges →
  type node = OTHER name →
  executeWorkflow env nodes edges [] =
    (tr ++ [running_event node; ShellDispose],
     Threw (new_Error ("Unknown node type: " +:+ name)))
  ∧ (PostMessage execution_completed ∉ (executeWorkflow env nodes edges []).1)
  ∧ filter (λ ev, is_failure_report ev = true) (executeWorkflow env nodes edges []).1 = []
  ∧ (∀ ev j, ev ∈ (executeWorkflow env nodes edges []).1 → event_node ev = Some j →
             j ∈ id <$> (pre ++ [node]))
  ∧ (NoDup (id <$> nodes) →
     ∀ result,
       ¬ (PostMessage (node_execution_status (id node) completed result)
            ∈ (executeWorkflow env nodes edges []).1)).
Proof.
  intros Hsort Hpre Hact Htype.
  pose proof (execute_node_unknown env _ node context tr name Hact Htype) as Hnode.
  pose proof (run_sorted_stops env _ pre post node _ context tr _ _ Hpre Hnode ltac:(done))
    as Hrun.
  assert (executeWorkflow env nodes edges [] =
            (tr ++ [running_event node; ShellDispose],
             Threw (new_Error ("Unknown node type: " +:+ name)))) as Heq.
  { unfold executeWorkflow. by rewrite Hsort. }
  rewrite Heq. cbn [fst]. split; [done|].
  destruct (run_nodes_quiet _ _ _ _ _ _ _ Hpre ltac:(done)) as (n1 & -> & Hq1).
  destruct (emits_run _ _ _ _ _ (run_nodes_emits env _ pre _) Hpre) as (n1' & Hn1 & Hc1).
  apply app_inv_head in Hn1 as <-.
  pose proof (no_failure_reports n1 Hq1) as Hnone.
  rewrite Forall_forall in Hq1. rewrite Forall_forall in Hc1.
  split; [|split; [|split]].
  - rewrite !elem_of_app. intros [[Hev|Hev]|Hev].
    + by apply list_elem_of_singleton in Hev.
    + by destruct (Hq1 _ Hev) as [_ ?].
    + repeat (apply elem_of_cons in Hev as [?|Hev]); try done. by inversion Hev.
  - rewrite !filter_app. by rewrite Hnone.
  - intros ev j Hev Hj. rewrite fmap_app. apply elem_of_app.
    rewrite !elem_of_app in Hev. destruct Hev as [[Hev|Hev]|Hev].
    + apply list_elem_of_singleton in Hev as ->. done.
    + left. by apply (Hc1 ev Hev j).
    + right. repeat (apply elem_of_cons in Hev as [->|Hev]); try done.
      * injection Hj as <-. left.
      * by inversion Hev.
  - intros Hnd result. rewrite !elem_of_app. intros [[Hev|Hev]|Hev].
    + by apply list_elem_of_singleton in Hev.
    + destruct (Hc1 _ Hev (id node) eq_refl) as [Hin _].
      destruct (topologicalSort_ids nodes edges Hnd) as (r & out & _ & Hout & Hmap & Hn & _).
      assert (out = pre ++ node :: post) as -> by congruence.
      rewrite <- Hmap, fmap_app, fmap_cons in Hn.
      apply NoDup_app in Hn as (_ & Hdisj & _).
      apply (Hdisj _ Hin). left.
    + repeat (apply elem_of_cons in Hev as [?|Hev]); try done. by inversion Hev.
Qed.

(** ** LLM failures *)

Lemma executeLLMNode_rejected (env : Collaborators) (node : WorkflowNodes)
    (prompt : string) (tr : list Effect) (events : list StreamEvent) (name message : string) :
  content (data node) = Some prompt →
  prompt ≠ "" →
  chat env (tr ++ [chat_request node prompt]) prompt = chat_streams events →
  read_stream events [] = inl (JsError name message) →
  name ≠ "AbortError" →
  executeLLMNode env node tr =
    (tr ++ [chat_request node prompt],
     Threw (new_Error ("Failed to execute LLM node: " +:+ message))).
Proof.
  intros Hc Hp Hchat Hread Hname. unfold executeLLMNode. rewrite Hc.
  assert (truthy (Some prompt) = true) as -> by (by destruct prompt).
  cbn [negb]. change (default "" (Some prompt)) with prompt.
  unfold try_catch, mbind, Exec_bind, emit, await. fold (chat_request node prompt).
  rewrite Hchat, Hread. apply String.eqb_neq in Hname. by rewrite Hname.
Qed.

(** C5 (amended). When a run reaches an LLM node whose request is rejected
    with an error other than an abort (a stream error, among others), the LLM
    executor throws [Failed to execute LLM node: ...] and the exception leaves
    the orchestrator: the trace ends with the request, no later node is
    executed, and the orchestrator emits no failure report and no
    [execution_completed]. *)
Theorem llm_failure_leaves_run (env : Collaborators) (nodes : list WorkflowNodes)
    (edges : list Edge) (pre post : list WorkflowNodes) (node : WorkflowNodes)
    (context : IndexedExecutionContext) (tr : list Effect)
    (prompt : string) (events : list StreamEvent) (name message : string) :
  topologicalSort nodes edges = Some (pre ++ node :: post) →
  run_nodes env (allInactiveNodes nodes edges) pre (initial_context nodes edges)
    [PostMessage execution_started] = (tr, Returned (Next context)) →
  id node ∉ allInactiveNodes nodes edges →
  type node = LLM →
  prompt = render node (sanitizeForPrompt <$> combineParentOutputsByConnectionOrder (id node) context) →
  prompt ≠ "" →
  chat env (tr ++ [running_event node; chat_request node prompt]) prompt = chat_streams events →
  read_stream events [] = inl (JsError name message) →
  name ≠ "AbortError" →
  executeWorkflow env nodes edges [] =
    (tr ++ [running_event node; chat_request node prompt],
     Threw (new_Error ("Failed to execute LLM node: " +:+ message)))
  ∧ (PostMessage execution_completed ∉ (executeWorkflow env nodes edges []).1)
  ∧ filter (λ ev, is_failure_report ev = true) (executeWorkflow env nodes edges []).1 = []
  ∧ (∀ ev j, ev ∈ (executeWorkflow env nodes edges []).1 → event_node ev = Some j →
             j ∈ id <$> (pre ++ [node])).
Proof.
  intros Hsort Hpre Hact Htype Hprompt Hne Hchat Hread Hname.
  assert (executeLLMNode env (llm_node_to_run node context) (tr ++ [running_event node]) =
            (tr ++ [running_event node; chat_request node prompt],
             Threw (new_Error ("Failed to execute LLM node: " +:+ message)))) as Hllm.
  { rewrite (executeLLMNode_rejected env _ prompt _ events name message); try done.
    - by rewrite <- app_assoc.
    - unfold llm_node_to_run. cbn. by rewrite Hprompt.
    - by rewrite <- app_assoc. }
  pose proof (execute_node_llm_throws env _ node context tr _ _ Hact Htype Hllm) as Hnode.
  pose proof (run_sorted_stops env _ pre post node _ context tr _ _ Hpre Hnode ltac:(done))
    as Hrun.
  assert (executeWorkflow env nodes edges [] =
            (tr ++ [running_event node; chat_request node prompt],
             Threw (new_Error ("Failed to execute LLM node: " +:+ message)))) as Heq.
  { unfold executeWorkflow. by rewrite Hsort. }
  rewrite Heq. cbn [fst]. split; [done|].
  destruct (run_nodes_quiet _ _ _ _ _ _ _ Hpre ltac:(done)) as (n1 & -> & Hq1).
  destruct (emits_run _ _ _ _ _ (run_nodes_emits env _ pre _) Hpre) as (n1' & Hn1 & Hc1).
  apply app_inv_head in Hn1 as <-.
  split; [|split].
  - rewrite Forall_forall in Hq1. rewrite !elem_of_app. intros [[Hev|Hev]|Hev].
    + by apply list_elem_of_singleton in Hev.
    + by destruct (Hq1 _ Hev) as [_ ?].
    + repeat (apply elem_of_cons in Hev as [?|Hev]); try done. by inversion Hev.
  - rewrite !filter_app. by rewrite (no_failure_reports n1).
  - rewrite Forall_forall in Hc1.
    intros ev j Hev Hj. rewrite fmap_app. apply elem_of_app.
    rewrite !elem_of_app in Hev. destruct Hev as [[Hev|Hev]|Hev].
    + apply list_elem_of_singleton in Hev as ->. done.
    + left. by apply (Hc1 ev Hev j).
    + right. repeat (apply elem_of_cons in Hev as [->|Hev]); try done.
      * injection Hj as <-. left.
      * by inversion Hev.
Qed.

(** ** Skipped nodes *)

Lemma executeWorkflow_emits (env : Collaborators) (nodes : list WorkflowNodes)
    (edges : list Edge) :
  emits (λ e, ∀ j, event_node e = Some j → j ∉ allInactiveNodes nodes edges)
    (executeWorkflow env nodes edges).
Proof.
  unfold executeWorkflow. destruct (topologicalSort nodes edges) as [sorted|];
    [|apply emits_throw].
  unfold run_sorted. apply emits_bind; [by apply emits_postMessage|intros _].
  apply emits_bind.
  - eapply emits_mono; [|apply run_nodes_emits]. intros e He j Hj. by apply He in Hj as [_ ?].
  - intros [c|]; emits_auto; done.
Qed.

(** Skipping the inactive nodes is running the list without them. *)
Lemma run_nodes_filter (env : Collaborators) (inactive : gset string)
    (sortedNodes : list WorkflowNodes) :
  ∀ context tr,
    run_nodes env inactive sortedNodes context tr =
    run_nodes env ∅ (filter (λ n, id n ∉ inactive) sortedNodes) context tr.
Proof.
  induction sortedNodes as [|node rest IH]; intros context tr; [done|].
  rewrite filter_cons. destruct (decide (id node ∉ inactive)) as [Hout|Hin].
  - cbn [run_nodes]. unfold mbind, Exec_bind.
    assert (execute_node env inactive node context tr = execute_node env ∅ node context tr)
      as ->.
    { unfold execute_node. rewrite decide_False by done. by rewrite decide_False by set_solver. }
    destruct (execute_node env ∅ node context tr) as [tr1 [[c|]|x]]; [apply IH|done..].
  - cbn [run_nodes]. unfold mbind, Exec_bind, execute_node.
    rewrite decide_True by (by apply dec_stable). cbn. apply IH.
Qed.

(** C9. A node that can be reached from a node marked inactive belongs to the
    skip set; no event of the run names it, and the run is the run of the
    sorted list without the nodes of the skip set: they are never executed. *)
Theorem inactive_closure_is_skipped (env : Collaborators) (nodes : list WorkflowNodes)
    (edges : list Edge) (x : WorkflowNodes) (y : string) :
  x ∈ nodes →
  active (data x) = Some false →
  reach edges (id x) y →
  y ∈ allInactiveNodes nodes edges
  ∧ (∀ ev, ev ∈ (executeWorkflow env nodes edges []).1 → event_node ev ≠ Some y)
  ∧ (∃ sortedNodes, topologicalSort nodes edges = Some sortedNodes
       ∧ executeWorkflow env nodes edges [] =
         run_sorted env ∅
           (filter (λ n, id n ∉ allInactiveNodes nodes edges) sortedNodes)
           (initial_context nodes edges) []).
Proof.
  intros Hx Hact Hreach.
  assert (y ∈ allInactiveNodes nodes edges) as Hy.
  { apply allInactiveNodes_spec. by exists x. }
  split; [done|]. split.
  - intros ev Hev Hnode.
    destruct (executeWorkflow_emits env nodes edges []) as (new & Hnew & HP).
    rewrite Hnew in Hev. cbn in Hev. rewrite Forall_forall in HP.
    by apply (HP ev Hev y).
  - destruct (topologicalSort_total nodes edges) as [sortedNodes Hsort].
    exists sortedNodes. split; [done|]. unfold executeWorkflow. rewrite Hsort.
    unfold run_sorted, mbind, Exec_bind, postMessage, emit. cbn [app].
    by rewrite run_nodes_filter.
Qed.

(** ** Placeholder substitution *)

Lemma append_nil_l (s : string) : "" +:+ s = s.
Proof. reflexivity. Qed.

Lemma append_cons (c : ascii) (s r : string) : String c s +:+ r = String c (s +:+ r).
Proof. reflexivity. Qed.

Ltac str_simpl := repeat first [rewrite append_cons | rewrite append_nil_l].

Lemma append_assoc (s1 s2 s3 : string) : (s1 +:+ s2) +:+ s3 = s1 +:+ (s2 +:+ s3).
Proof. induction s1 as [|c s1 IH]; str_simpl; [done|]. by rewrite IH. Qed.

Lemma length_append (s1 s2 : string) :
  String.length (s1 +:+ s2) = (String.length s1 + String.length s2)%nat.
Proof. induction s1 as [|c s1 IH]; str_simpl; [done|]. cbn [String.length]. by rewrite IH. Qed.

Lemma read_digits_length (s : string) :
  ∀ acc len v l rest,
    read_digits s acc len = (v, l, rest) →
    (l + String.length rest = len + String.length s)%nat.
Proof.
  induction s as [|c s IH]; intros acc len v l rest; cbn [read_digits].
  - intros [= <- <- <-]. done.
  - destruct (is_digit c).
    + intros H. apply IH in H. cbn [String.length]. lia.
    + intros [= <- <- <-]. done.
Qed.

(** What follows a run of digits does not change what is read, as long as it
    does not start with a digit. *)
Lemma read_digits_append (s : string) (c : ascii) (r : string) :
  is_digit c = false →
  ∀ acc len,
    read_digits (s +:+ String c r) acc len =
      ((read_digits s acc len).1.1, (read_digits s acc len).1.2,
       (read_digits s acc len).2 +:+ String c r).
Proof.
  intros Hc. induction s as [|d s IH]; intros acc len; str_simpl; cbn [read_digits].
  - by rewrite Hc.
  - destruct (is_digit d); [apply IH|done].
Qed.

Lemma read_digits_all (ds : string) :
  all_digits ds = true →
  ∀ acc len,
    (read_digits ds acc len).1.2 = (len + String.length ds)%nat
    ∧ (read_digits ds acc len).2 = "".
Proof.
  induction ds as [|d ds IH]; intros Hall acc len; cbn [read_digits String.length].
  - split; [cbn; lia|done].
  - cbn [all_digits] in Hall. apply andb_true_iff in Hall as [Hd Hall].
    rewrite Hd. destruct (IH Hall (10 * acc + digit_value d)%N (S len)) as [-> ->].
    split; [lia|done].
Qed.

Lemma match_placeholder_length (s : string) (index : N) (len : nat) :
  match_placeholder s = Some (index, len) → (1 ≤ len ≤ String.length s)%nat.
Proof.
  unfold match_placeholder. destruct s as [|c0 [|c1 s1]]; [done..|].
  destruct (Ascii.eqb c0 "$" && Ascii.eqb c1 "{"); [|done].
  destruct (read_digits s1 0%N 0%nat) as [[v l] rest] eqn:Hr.
  apply read_digits_length in Hr.
  destruct rest as [|c2 rest]; [done|].
  destruct ((0 <? l)%nat && Ascii.eqb c2 "}"); [|done].
  intros [= <- <-]. cbn [String.length] in *. lia.
Qed.

(** A match cannot run into a following [$]: what stands before a [$] is
    matched as if nothing followed. *)
Lemma match_placeholder_before_dollar (s r : string) :
  s ≠ "" →
  match_placeholder (s +:+ String "$" r) = match_placeholder s.
Proof.
  intros Hs. destruct s as [|c0 s]; [done|]. str_simpl.
  destruct s as [|c1 s1]; str_simpl; cbn [match_placeholder].
  - destruct (Ascii.eqb c0 "$"); done.
  - destruct (Ascii.eqb c0 "$" && Ascii.eqb c1 "{"); [|done].
    rewrite read_digits_append by done.
    destruct (read_digits s1 0%N 0%nat) as [[v l] rest]. cbn [fst snd].
    destruct rest as [|c2 rest]; str_simpl; [|done].
    by rewrite andb_false_r.
Qed.

Lemma replace_placeholders_before_dollar (outs : list string) (r : string) (pre : string) :
  ∀ skip,
    (skip ≤ String.length pre)%nat →
    replace_placeholders skip (pre +:+ String "$" r) outs =
      replace_placeholders skip pre outs +:+ replace_placeholders 0 (String "$" r) outs.
Proof.
  induction pre as [|c pre IH]; intros skip Hskip.
  - cbn [String.length] in Hskip. assert (skip = 0%nat) as -> by lia. done.
  - rewrite append_cons. cbn [replace_placeholders]. destruct skip as [|skip].
    + rewrite <- append_cons.
      rewrite match_placeholder_before_dollar by done.
      destruct (match_placeholder (String c pre)) as [[index len]|] eqn:Hm.
      * apply match_placeholder_length in Hm. cbn [String.length] in Hm.
        rewrite IH by lia. by rewrite append_assoc.
      * rewrite IH by (cbn; lia). done.
    + cbn [String.length] in Hskip. apply IH. lia.
Qed.

Lemma replace_placeholders_match (outs : list string) (c : ascii) (rest : string)
    (index : N) (len : nat) :
  match_placeholder (String c rest) = Some (index, len) →
  replace_placeholders 0 (String c rest) outs =
    indexed_input index outs +:+ replace_placeholders (len - 1) rest outs.
Proof. intros Hm. cbn [replace_placeholders]. by rewrite Hm. Qed.

Lemma replace_placeholders_skip (outs : list string) (post : string) (s : string) :
  replace_placeholders (String.length s) (s +:+ post) outs = replace_placeholders 0 post outs.
Proof.
  induction s as [|c s IH]; [by destruct post|].
  rewrite append_cons. cbn [String.length replace_placeholders]. apply IH.
Qed.

Lemma match_placeholder_exact (ds post : string) :
  all_digits ds = true →
  ds ≠ "" →
  match_placeholder ("${" +:+ ds +:+ "}" +:+ post)
    = Some (parseInt ds, (3 + String.length ds)%nat).
Proof.
  intros Hall Hne. str_simpl. cbn [match_placeholder Ascii.eqb Bool.eqb andb].
  rewrite read_digits_append by done.
  destruct (read_digits_all ds Hall 0%N 0%nat) as [Hl Hr].
  rewrite Hl, Hr. str_simpl.
  destruct ds as [|d ds]; [done|]. cbn [String.length]. done.
Qed.

Lemma indexed_input_spec (index : N) (outs : list string) :
  ((1 ≤ index ≤ N.of_nat (List.length outs))%N →
     outs !! (N.to_nat index - 1)%nat = Some (indexed_input index outs))
  ∧ ((index = 0 ∨ N.of_nat (List.length outs) < index)%N → indexed_input index outs = "").
Proof.
  unfold indexed_input. split.
  - intros [H1 H2].
    rewrite (proj2 (Z.leb_le _ _)) by lia. rewrite (proj2 (Z.ltb_lt _ _)) by lia.
    cbn [andb].
    replace (Z.to_nat (Z.of_N index - 1)) with (N.to_nat index - 1)%nat by lia.
    destruct (lookup_lt_is_Some_2 outs (N.to_nat index - 1)%nat) as [v Hv]; [lia|].
    by rewrite Hv.
  - intros [->|H]; [done|].
    destruct (0 <=? Z.of_N index - 1)%Z; [|done]. cbn [andb].
    rewrite (proj2 (Z.ltb_ge _ _)) by lia. done.
Qed.

Lemma replace_placeholders_no_dollar (outs : list string) (template : string) :
  has_char "$" template = false → replace_placeholders 0 template outs = template.
Proof.
  induction template as [|c template IH]; [done|].
  cbn [has_char]. intros [Hc Hrest]%orb_false_iff.
  cbn [replace_placeholders].
  assert (match_placeholder (String c template) = None) as ->.
  { unfold match_placeholder. destruct template; [done|].
    rewrite Ascii.eqb_sym in Hc. by rewrite Hc. }
  by rewrite IH.
Qed.

(** C8. Every placeholder [${n}] of the template is replaced by the n-th
    parent output (counting from 1) when there is one, and by the empty string
    when [n] is 0 or larger than the number of outputs; the text before and
    after the placeholder is treated on its own, and text without [$] is left
    as it is. *)
Theorem replaceIndexedInputs_spec :
  (∀ (pre ds post : string) (parentOutputs : list string),
     all_digits ds = true →
     ds ≠ "" →
     ∃ value,
       replaceIndexedInputs (pre +:+ "${" +:+ ds +:+ "}" +:+ post) parentOutputs
         = replaceIndexedInputs pre parentOutputs +:+ value
             +:+ replaceIndexedInputs post parentOutputs
       ∧ ((1 ≤ parseInt ds ≤ N.of_nat (List.length parentOutputs))%N →
            parentOutputs !! (N.to_nat (parseInt ds) - 1)%nat = Some value)
       ∧ ((parseInt ds = 0 ∨ N.of_nat (List.length parentOutputs) < parseInt ds)%N →
            value = ""))
  ∧ (∀ (template : string) (parentOutputs : list string),
       has_char "$" template = false →
       replaceIndexedInputs template parentOutputs = template)
  ∧ replaceIndexedInputs "Hello ${1} and ${2}" ["A"; "B"] = "Hello A and B"
  ∧ replaceIndexedInputs "${5}" ["A"] = "".
Proof.
  split; [|split; [|split; reflexivity]].
  - intros pre ds post outs Hall Hne.
    exists (indexed_input (parseInt ds) outs).
    split; [|apply indexed_input_spec].
    unfold replaceIndexedInputs.
    pose proof (match_placeholder_exact ds post Hall Hne) as Hm.
    revert Hm. str_simpl. intros Hm.
    rewrite replace_placeholders_before_dollar by lia. f_equal.
    rewrite (replace_placeholders_match _ _ _ _ _ Hm). f_equal.
    replace (3 + String.length ds - 1)%nat
      with (String.length (String "{" (ds +:+ "}")))
      by (cbn [String.length]; rewrite length_append; cbn; lia).
    replace (String "{" (ds +:+ String "}" post))
      with (String "{" (ds +:+ "}") +:+ post)
      by (rewrite append_cons, append_assoc; by str_simpl).
    apply replace_placeholders_skip.
  - intros template outs. apply replace_placeholders_no_dollar.
Qed.

(** ** Parent-output combiner *)

Lemma trimStart_spec (s : string) :
  ∃ pre, s = pre +:+ trimStart s ∧ all_ws pre = true ∧ starts_clean (trimStart s).
Proof.
  induction s as [|c s (pre & Hs & Hpre & Hclean)]; [by exists ""|].
  cbn [trimStart]. destruct (is_ws c) eqn:Hc.
  - exists (String c pre). rewrite append_cons, <- Hs. cbn [all_ws]. by rewrite Hc, Hpre.
  - by exists "".
Qed.

Lemma trimEnd_spec (s : string) :
  ∃ post, s = trimEnd s +:+ post ∧ all_ws post = true ∧ ends_clean (trimEnd s)
          ∧ (starts_clean s → starts_clean (trimEnd s)).
Proof.
  induction s as [|c s (post & Hs & Hpost & Hclean & _)]; [by exists ""|].
  cbn [trimEnd]. destruct (trimEnd s) as [|d r] eqn:Hr.
  - destruct (is_ws c) eqn:Hc.
    + exists (String c post). rewrite append_nil_l in *. cbn [all_ws].
      subst s. rewrite Hc, Hpost. by repeat split.
    + exists post. rewrite append_cons. rewrite <- Hs. by repeat split.
  - exists post. rewrite append_cons, <- Hs. by repeat split.
Qed.

(** [trim] removes white space at both ends and nothing else: the string is
    white space, then the trimmed string, then white space, and the trimmed
    string neither starts nor ends with white space. *)
Lemma trim_spec (s : string) :
  ∃ pre post,
    s = pre +:+ trim s +:+ post
    ∧ all_ws pre = true ∧ all_ws post = true
    ∧ starts_clean (trim s) ∧ ends_clean (trim s).
Proof.
  destruct (trimStart_spec s) as (pre & Hs & Hpre & Hstart).
  destruct (trimEnd_spec (trimStart s)) as (post & Ht & Hpost & Hend & Hkeep).
  exists pre, post. unfold trim. rewrite <- Ht.
  split; [done|]. split; [done|]. split; [done|]. split; [by apply Hkeep|done].
Qed.

(** The replace of CR LF, two characters at a time. *)
Lemma replace_crlf_cons (c d : ascii) (s : string) :
  replace_crlf (String c (String d s)) =
    if Ascii.eqb c "013" && Ascii.eqb d "010"
    then String "010" (replace_crlf s)
    else String c (replace_crlf (String d s)).
Proof. reflexivity. Qed.

Lemma replace_crlf_pair_bounded (n : nat) :
  ∀ pre post,
    (String.length pre ≤ n)%nat →
    replace_crlf (pre +:+ CRLF +:+ post) = replace_crlf pre +:+ LF +:+ replace_crlf post.
Proof.
  induction n as [|n IH]; intros pre post Hlen.
  - destruct pre; [|cbn in Hlen; lia]. unfold CRLF, LF. str_simpl.
    by rewrite replace_crlf_cons.
  - destruct pre as [|c [|d pre]].
    + unfold CRLF, LF. str_simpl. by rewrite replace_crlf_cons.
    + unfold CRLF, LF. str_simpl. rewrite !replace_crlf_cons.
      change (Ascii.eqb "013" "010") with false. rewrite andb_false_r.
      change (Ascii.eqb "013" "013" && Ascii.eqb "010" "010") with true. cbn iota.
      change (replace_crlf (String c "")) with (String c ""). by str_simpl.
    + str_simpl. rewrite !replace_crlf_cons.
      destruct (Ascii.eqb c "013" && Ascii.eqb d "010").
      * str_simpl. f_equal. apply IH. cbn in Hlen. lia.
      * str_simpl. f_equal. rewrite <- append_cons. apply IH. cbn in Hlen. cbn. lia.
Qed.

(** Every CR LF becomes LF: the text before the pair and the text behind it
    are treated on their own. *)
Lemma replace_crlf_pair (pre post : string) :
  replace_crlf (pre +:+ CRLF +:+ post) = replace_crlf pre +:+ LF +:+ replace_crlf post.
Proof. by apply (replace_crlf_pair_bounded (String.length pre)). Qed.

(** A text without CR LF is left as it is. *)
Lemma replace_crlf_id (text : string) :
  includes text CRLF = false → replace_crlf text = text.
Proof.
  induction text as [|c text IH]; [done|]. cbn [includes].
  intros [Hstart Hrest]%orb_false_iff. destruct text as [|d text]; [done|].
  rewrite replace_crlf_cons.
  assert (Ascii.eqb c "013" && Ascii.eqb d "010" = false) as ->.
  { unfold CRLF in Hstart. cbn [startsWith] in Hstart.
    rewrite (Ascii.eqb_sym c), (Ascii.eqb_sym d).
    destruct (Ascii.eqb "013" c); [|done]. destruct (Ascii.eqb "010" d); [|done].
    by destruct text. }
  by rewrite (IH Hrest).
Qed.

(** C7. The combiner returns one entry per incoming edge of the node, in the
    order of the edge list: the empty string when nothing is recorded for the
    source of the edge, else the recorded output with CR LF turned into LF
    and then trimmed.  The two steps are stated by what they do, not by their
    code: the entry is what is left of the normalised output when the white
    space at both ends is taken away, with no white space left at either
    end; the normalisation turns each CR LF into LF, treating the text before
    the pair and the text behind it on their own, and leaves a text without
    CR LF as it is.  The combiner is a total function.  For the edges
    [a → n], [b → n] and the outputs [a ↦ X CR LF], [b ↦ Y] it returns
    [X; Y], whichever output was recorded first; a CR LF inside an output
    becomes LF. *)
Theorem combineParentOutputs_spec :
  (∀ (nodeId : string) (edges : list Edge) (outputs : gmap string string)
     (nodeIndex : gmap string WorkflowNodes),
     combineParentOutputsByConnectionOrder nodeId
       {| nodeOutputs := outputs; nodeIndex := nodeIndex;
          edgeIndex := createEdgeIndex edges |}
     = parent_output outputs <$> filter (λ e, target e = nodeId) edges)
  ∧ (∀ (outputs : gmap string string) (edge : Edge),
       outputs !! source edge = None → parent_output outputs edge = "")
  ∧ (∀ (outputs : gmap string string) (edge : Edge) (output : string),
       outputs !! source edge = Some output →
       ∃ pre post,
         replace_crlf output = pre +:+ parent_output outputs edge +:+ post
         ∧ all_ws pre = true ∧ all_ws post = true
         ∧ starts_clean (parent_output outputs edge)
         ∧ ends_clean (parent_output outputs edge))
  ∧ (∀ pre post : string,
       replace_crlf (pre +:+ CRLF +:+ post)
       = replace_crlf pre +:+ LF +:+ replace_crlf post)
  ∧ (∀ text : string, includes text CRLF = false → replace_crlf text = text)
  ∧ (∀ (nodeIndex : gmap string WorkflowNodes),
       let edges := [mkEdge "e1" "a" "n"; mkEdge "e2" "b" "n"] in
       combineParentOutputsByConnectionOrder "n"
         {| nodeOutputs := <["b" := "Y"]> (<["a" := "X" +:+ CRLF]> ∅);
            nodeIndex := nodeIndex; edgeIndex := createEdgeIndex edges |}
       = ["X"; "Y"]
       ∧ combineParentOutputsByConnectionOrder "n"
           {| nodeOutputs := <["a" := "X" +:+ CRLF]> (<["b" := "Y"]> ∅);
              nodeIndex := nodeIndex; edgeIndex := createEdgeIndex edges |}
         = ["X"; "Y"]
       ∧ combineParentOutputsByConnectionOrder "n"
           {| nodeOutputs :=
                <["a" := " X" +:+ CRLF +:+ "Z " +:+ CRLF]> (<["b" := "Y"]> ∅);
              nodeIndex := nodeIndex; edgeIndex := createEdgeIndex edges |}
         = ["X" +:+ LF +:+ "Z"; "Y"]).
Proof.
  split; [|split; [|split; [|split; [|split]]]].
  - intros nodeId edges outputs nodeIndex.
    unfold combineParentOutputsByConnectionOrder. cbn [edgeIndex nodeOutputs].
    by rewrite byTarget_spec.
  - intros outputs edge Hnone. unfold parent_output. by rewrite Hnone.
  - intros outputs edge output Hsome. unfold parent_output. rewrite Hsome.
    destruct (trim_spec (replace_crlf output)) as (pre & post & Heq & Hpre & Hpost & Hs & He).
    by exists pre, post.
  - apply replace_crlf_pair.
  - apply replace_crlf_id.
  - intros nodeIndex edges. repeat split; vm_compute; reflexivity.
Qed.

(** ** The denylist and the approved command *)

(** C1 (what the code does). The denylist is checked against the command
    derived from the node, not against the command that is run: when the
    derived command passes the denylist and the approval callback returns a
    replacement, the replacement is handed to the shell whatever it starts
    with. *)
Theorem approved_replacement_is_not_checked (env : Collaborators) (node : WorkflowNodes)
    (tr : list Effect) (c replacement out : string) :
  env_shell env = true →
  workspace_isTrusted env = true →
  content (data node) = Some c →
  trim c ≠ "" →
  needsUserApproval (data node) = true →
  denied (prepared_command env c) = false →
  approvalHandler env
    (tr ++ [PostMessage (node_execution_status (id node) pending_approval
                           (Some (prepared_command env c)));
            AskApproval (id node)])
    (id node) = inr (Some replacement) →
  replacement ≠ "" →
  shell_execute env
    (tr ++ [PostMessage (node_execution_status (id node) pending_approval
                           (Some (prepared_command env c)));
            AskApproval (id node);
            ShellExecute replacement])
    replacement = inr out →
  executeCLINode env node tr =
    (tr ++ [PostMessage (node_execution_status (id node) pending_approval
                           (Some (prepared_command env c)));
            AskApproval (id node);
            ShellExecute replacement],
     Returned out).
Proof.
  intros Hshell Htrust Hc Htrim Happr Hdeny Hanswer Hrep Hexec.
  unfold executeCLINode. rewrite Hshell, Htrust, Hc, Happr. cbn [negb orb fmap option_fmap option_map].
  assert (truthy (Some (trim c)) = true) as -> by (by destruct (trim c)).
  cbn [negb]. fold (prepared_command env c). rewrite Hdeny.
  unfold try_catch, mbind, Exec_bind, postMessage, emit, await, mret, Exec_ret.
  rewrite <- !app_assoc. cbn [app]. rewrite Hanswer.
  assert (truthy (Some replacement) = true) as -> by (by destruct replacement).
  cbn [default from_option Datatypes.id].
  rewrite <- !app_assoc. cbn [app]. by rewrite Hexec.
Qed.

(** ** The size ceiling of the LLM response *)

(** The ceiling as the code tests it: a chunk that arrives when the text
    gathered so far is already over the ceiling makes the request fail. *)
Lemma read_stream_too_large (text : string) (rest : list StreamEvent)
    (responseBuilder : list string) :
  (strlen (join "" responseBuilder) > response_limit)%Z →
  read_stream (yields (change text) :: rest) responseBuilder
    = inl (new_Error "Response too large").
Proof.
  intros Hlen. cbn [read_stream].
  by rewrite (proj2 (Z.gtb_gt _ _)) by lia.
Qed.

(** C6 (what the code does). The size of the response is tested before a
    chunk is appended, so the last chunk is never measured: a response that
    arrives as one chunk followed by [complete] is resolved whatever its
    length. *)
Theorem last_chunk_is_not_measured (env : Collaborators) (node : WorkflowNodes)
    (tr : list Effect) (prompt text : string) :
  content (data node) = Some prompt →
  prompt ≠ "" →
  chat env (tr ++ [chat_request node prompt]) prompt
    = chat_streams [yields (change text); yields complete] →
  executeLLMNode env node tr = (tr ++ [chat_request node prompt], Returned text).
Proof.
  intros Hc Hp Hchat. unfold executeLLMNode. rewrite Hc.
  assert (truthy (Some prompt) = true) as -> by (by destruct prompt).
  cbn [negb]. change (default "" (Some prompt)) with prompt.
  unfold try_catch, mbind, Exec_bind, emit, await. fold (chat_request node prompt).
  rewrite Hchat. reflexivity.
Qed.

(** ** Concrete runs *)

Ltac by_computation := vm_compute; reflexivity.
Ltac decide_by_computation := apply (bool_decide_unpack _); vm_compute; exact I.

Lemma cli_failure_halts_run_witness :
  executeWorkflow sample_env sudo_nodes sudo_edges [] =
    ([ PostMessage execution_started;
       PostMessage (node_execution_status "a" running None);
       ShowErrorMessage "Cody cannot execute this command";
       ShellDispose;
       ShowErrorMessage "CLI Node Error: Cody cannot execute this command";
       PostMessage (node_execution_status "a" error (Some "Cody cannot execute this command"));
       PostMessage execution_completed ],
     Returned tt)
  ∧ filter (λ ev, is_failure_report ev = true)
      (executeWorkflow sample_env sudo_nodes sudo_edges []).1
    = [PostMessage (node_execution_status "a" error (Some "Cody cannot execute this command"))]
  ∧ (∀ ev j, ev ∈ (executeWorkflow sample_env sudo_nodes sudo_edges []).1 →
             event_node ev = Some j → j ∈ ["a"]).
Proof.
  refine (cli_failure_halts_run sample_env sudo_nodes sudo_edges
            [] [sample_node "b" INPUT "x"] (sample_node "a" CLI "sudo ls")
            (initial_context sudo_nodes sudo_edges)
            [PostMessage execution_started]
            [PostMessage execution_started;
             PostMessage (node_execution_status "a" running None);
             ShowErrorMessage "Cody cannot execute this command"]
            (new_Error "Cody cannot execute this command") _ _ _ _ _).
  - by_computation.
  - by_computation.
  - decide_by_computation.
  - reflexivity.
  - by_computation.
Defined.

Lemma approved_replacement_is_not_checked_witness :
  denied "sudo reboot" = true
  ∧ executeCLINode replacing_env approval_node [] =
      ([ PostMessage (node_execution_status "a" pending_approval (Some "echo hi"));
         AskApproval "a";
         ShellExecute "sudo reboot" ],
       Returned "output of sudo reboot").
Proof.
  split; [reflexivity|].
  refine (approved_replacement_is_not_checked replacing_env approval_node []
            "echo hi" "sudo reboot" "output of sudo reboot" _ _ _ _ _ _ _ _ _);
    first [reflexivity | by vm_compute].
Defined.

Lemma topologicalSort_drops_node_behind_dangling_edge :
  NoDup (id <$> dangling_nodes)
  ∧ (∀ v, ¬ path dangling_edges v v)
  ∧ topologicalSort dangling_nodes dangling_edges = Some []
  ∧ ¬ (∃ out, topologicalSort dangling_nodes dangling_edges = Some out
              ∧ out ≡ₚ dangling_nodes).
Proof.
  split; [decide_by_computation|]. split; [|split; [by_computation|]].
  - apply (ranked_acyclic _ (λ s, if String.eqb s "a" then 0 else 1)%nat).
    intros e ->%list_elem_of_singleton. vm_compute. lia.
  - intros (out & Hout & Hperm).
    assert (out = []) as -> by (vm_compute in Hout; congruence).
    by apply Permutation_nil_l in Hperm.
Qed.

Lemma topologicalSort_dag_witness :
  ∃ out, topologicalSort chain_nodes chain_edges = Some out
    ∧ out ≡ₚ chain_nodes
    ∧ NoDup out
    ∧ (∀ e, e ∈ chain_edges → source e ∈ id <$> chain_nodes → target e ∈ id <$> chain_nodes →
            before (id <$> out) (source e) (target e)).
Proof.
  apply (topologicalSort_dag chain_nodes chain_edges).
  - decide_by_computation.
  - intros v _.
    apply (ranked_acyclic _ (λ s, if String.eqb s "a" then 0
                                  else if String.eqb s "b" then 1 else 2)%nat).
    intros e He. repeat (apply elem_of_cons in He as [->|He]); [vm_compute; lia..|].
    by inversion He.
  - intros e He _. repeat (apply elem_of_cons in He as [->|He]);
      [decide_by_computation..|by inversion He].
Defined.

Lemma topologicalSort_any_graph_witness :
  topologicalSort cyclic_nodes cyclic_edges = Some [sample_node "a" INPUT "x"]
  ∧ path cyclic_edges "b" "b"
  ∧ from_seed cyclic_edges (id <$> cyclic_nodes) "b"
  ∧ ∃ out, topologicalSort cyclic_nodes cyclic_edges = Some out
      ∧ NoDup out
      ∧ (∃ ordering, ordering ≡ₚ cyclic_nodes ∧ out `sublist_of` ordering)
      ∧ (∀ n, n ∈ cyclic_nodes → ¬ from_seed cyclic_edges (id <$> cyclic_nodes) (id n) →
              n ∉ out)
      ∧ (∀ n v, n ∈ cyclic_nodes → path cyclic_edges v v → reach cyclic_edges v (id n) →
                n ∉ out).
Proof.
  split; [by_computation|]. split; [|split].
  - eapply tc_l; [|apply tc_once].
    + exists (mkEdge "e2" "b" "c"). split; [|done]. set_solver.
    + exists (mkEdge "e3" "c" "b"). split; [|done]. set_solver.
  - exists "a". split; [set_solver|]. split; [by_computation|].
    apply rtc_once. exists (mkEdge "e1" "a" "b"). split; [|done]. set_solver.
  - apply (topologicalSort_any_graph cyclic_nodes cyclic_edges). decide_by_computation.
Defined.

(** With a repeated node id the node index keeps the last node of that id:
    the sorter returns that node once for every node of the id, so a node
    stands twice in the result, which is no subsequence of any ordering of
    the input nodes. *)
Lemma topologicalSort_repeats_node_of_repeated_id :
  topologicalSort repeated_nodes []
    = Some [sample_node "a" INPUT "second"; sample_node "a" INPUT "second"]
  ∧ ¬ (∃ out, topologicalSort repeated_nodes [] = Some out ∧ NoDup out)
  ∧ ¬ (∃ out ordering, topologicalSort repeated_nodes [] = Some out
                       ∧ ordering ≡ₚ repeated_nodes ∧ out `sublist_of` ordering).
Proof.
  assert (topologicalSort repeated_nodes []
          = Some [sample_node "a" INPUT "second"; sample_node "a" INPUT "second"]) as Hrun
    by by_computation.
  split; [done|]. split.
  - intros (out & Hout & Hnd). rewrite Hrun in Hout. injection Hout as <-.
    apply NoDup_cons in Hnd as [Hnot _]. apply Hnot. left.
  - intros (out & ordering & Hout & Hperm & Hsub). rewrite Hrun in Hout. injection Hout as <-.
    assert ([sample_node "a" INPUT "second"; sample_node "a" INPUT "second"] ≡ₚ ordering)
      as Hall.
    { apply submseteq_length_Permutation; [by apply sublist_submseteq|].
      by rewrite (Permutation_length Hperm). }
    assert (sample_node "a" INPUT "first"
            ∈ [sample_node "a" INPUT "second"; sample_node "a" INPUT "second"]) as Hfirst.
    { rewrite Hall, Hperm. left. }
    repeat (apply elem_of_cons in Hfirst as [Heq|Hfirst]); try discriminate Heq.
    by inversion Hfirst.
Qed.

(** The run does not go on to the node behind the failing LLM node. *)
Lemma llm_failure_stops_later_nodes :
  topologicalSort llm_nodes llm_edges
    = Some [sample_node "a" LLM "hi"; sample_node "b" INPUT "x"]
  ∧ ("b" ∉ allInactiveNodes llm_nodes llm_edges)
  ∧ executeWorkflow failing_chat_env llm_nodes llm_edges [] =
      ([ PostMessage execution_started;
         PostMessage (node_execution_status "a" running None);
         ChatRequest "hi" 1000 true 0 ],
       Threw (new_Error "Failed to execute LLM node: boom"))
  ∧ ¬ (∃ ev, ev ∈ (executeWorkflow failing_chat_env llm_nodes llm_edges []).1
             ∧ event_node ev = Some "b").
Proof.
  split; [by_computation|]. split; [decide_by_computation|]. split; [by_computation|].
  intros (ev & Hev & Hb).
  assert ((executeWorkflow failing_chat_env llm_nodes llm_edges []).1 =
            [ PostMessage execution_started;
              PostMessage (node_execution_status "a" running None);
              ChatRequest "hi" 1000 true 0 ]) as Htr by by_computation.
  rewrite Htr in Hev.
  repeat (apply elem_of_cons in Hev as [->|Hev]); try done. by inversion Hev.
Qed.

Lemma llm_failure_leaves_run_witness :
  executeWorkflow failing_chat_env llm_nodes llm_edges [] =
    ([ PostMessage execution_started;
       PostMessage (node_execution_status "a" running None);
       ChatRequest "hi" 1000 true 0 ],
     Threw (new_Error "Failed to execute LLM node: boom"))
  ∧ (PostMessage execution_completed
       ∉ (executeWorkflow failing_chat_env llm_nodes llm_edges []).1)
  ∧ filter (λ ev, is_failure_report ev = true)
      (executeWorkflow failing_chat_env llm_nodes llm_edges []).1 = []
  ∧ (∀ ev j, ev ∈ (executeWorkflow failing_chat_env llm_nodes llm_edges []).1 →
             event_node ev = Some j → j ∈ ["a"]).
Proof.
  refine (llm_failure_leaves_run failing_chat_env llm_nodes llm_edges
            [] [sample_node "b" INPUT "x"] (sample_node "a" LLM "hi")
            (initial_context llm_nodes llm_edges)
            [PostMessage execution_started] "hi"
            [yields (stream_error (JsError "Error" "boom"))] "Error" "boom"
            _ _ _ _ _ _ _ _ _).
  - by_computation.
  - by_computation.
  - decide_by_computation.
  - reflexivity.
  - by_computation.
  - done.
  - reflexivity.
  - reflexivity.
  - done.
Defined.

Lemma strlen_text_of_length (n : N) : strlen (text_of_length n) = Z.of_N n.
Proof.
  unfold text_of_length, strlen.
  induction n as [|n IH] using N.peano_ind; [done|].
  rewrite N.iter_succ. cbn [String.length]. lia.
Qed.

Lemma last_chunk_is_not_measured_witness :
  (strlen oversized_text > response_limit)%Z
  ∧ executeLLMNode oversized_chat_env (sample_node "a" LLM "hi") [] =
      ([ChatRequest "hi" 1000 true 0], Returned oversized_text).
Proof.
  split.
  - unfold oversized_text. rewrite strlen_text_of_length. reflexivity.
  - refine (last_chunk_is_not_measured oversized_chat_env (sample_node "a" LLM "hi") []
              "hi" oversized_text _ _ _); [reflexivity|done|reflexivity].
Defined.

Lemma replaceIndexedInputs_spec_witness :
  ∃ value,
    replaceIndexedInputs ("Hello " +:+ "${" +:+ "1" +:+ "}" +:+ " and ${2}") ["A"; "B"]
      = replaceIndexedInputs "Hello " ["A"; "B"] +:+ value
          +:+ replaceIndexedInputs " and ${2}" ["A"; "B"]
    ∧ ((1 ≤ parseInt "1" ≤ N.of_nat (List.length ["A"; "B"]))%N →
         ["A"; "B"] !! (N.to_nat (parseInt "1") - 1)%nat = Some value)
    ∧ ((parseInt "1" = 0 ∨ N.of_nat (List.length ["A"; "B"]) < parseInt "1")%N →
         value = "").
Proof.
  apply (proj1 replaceIndexedInputs_spec "Hello " "1" " and ${2}" ["A"; "B"]);
    [reflexivity|done].
Defined.

Lemma inactive_closure_is_skipped_witness :
  executeWorkflow sample_env xyz_nodes xyz_edges [] =
    ([PostMessage execution_started; ShellDispose; PostMessage execution_completed],
     Returned tt)
  ∧ "Z" ∈ allInactiveNodes xyz_nodes xyz_edges
  ∧ (∀ ev, ev ∈ (executeWorkflow sample_env xyz_nodes xyz_edges []).1 →
           event_node ev ≠ Some "Z")
  ∧ (∃ sortedNodes, topologicalSort xyz_nodes xyz_edges = Some sortedNodes
       ∧ executeWorkflow sample_env xyz_nodes xyz_edges [] =
         run_sorted sample_env ∅
           (filter (λ n, id n ∉ allInactiveNodes xyz_nodes xyz_edges) sortedNodes)
           (initial_context xyz_nodes xyz_edges) []).
Proof.
  split; [by_computation|].
  refine (inactive_closure_is_skipped sample_env xyz_nodes xyz_edges
            {| id := "X"; type := INPUT;
               data := {| title := "X"; content := Some "x"; active := Some false;
                          needsUserApproval := false; maxTokens := None;
                          temperature := None; fast := None |} |} "Z" _ _ _).
  - left.
  - reflexivity.
  - eapply rtc_l; [exists (mkEdge "e1" "X" "Y"); split; [left|done]|].
    eapply rtc_l; [exists (mkEdge "e2" "Y" "Z"); split; [right; left|done]|].
    apply rtc_refl.
Defined.

Lemma unknown_node_type_throws_witness :
  executeWorkflow sample_env unknown_nodes unknown_edges [] =
    ([ PostMessage execution_started;
       PostMessage (node_execution_status "a" running None);
       PostMessage (node_execution_status "a" completed (Some "x"));
       PostMessage (node_execution_status "b" running None);
       ShellDispose ],
     Threw (new_Error "Unknown node type: mystery"))
  ∧ (PostMessage execution_completed
       ∉ (executeWorkflow sample_env unknown_nodes unknown_edges []).1)
  ∧ filter (λ ev, is_failure_report ev = true)
      (executeWorkflow sample_env unknown_nodes unknown_edges []).1 = []
  ∧ (∀ ev j, ev ∈ (executeWorkflow sample_env unknown_nodes unknown_edges []).1 →
             event_node ev = Some j → j ∈ ["a"; "b"])
  ∧ (NoDup (id <$> unknown_nodes) →
     ∀ result,
       ¬ (PostMessage (node_execution_status "b" completed result)
            ∈ (executeWorkflow sample_env unknown_nodes unknown_edges []).1)).
Proof.
  refine (unknown_node_type_throws sample_env unknown_nodes unknown_edges
            [sample_node "a" INPUT "x"] [sample_node "c" INPUT "z"]
            (sample_node "b" (OTHER "mystery") "y")
            (set_output (initial_context unknown_nodes unknown_edges) "a" "x")
            [ PostMessage execution_started;
              PostMessage (node_execution_status "a" running None);
              PostMessage (node_execution_status "a" completed (Some "x")) ]
            "mystery" _ _ _ _).
  - by_computation.
  - by_computation.
  - decide_by_computation.
  - reflexivity.
Defined.

(** * Part IV: further properties of the code *)

(** ** The edge index, key by key *)

(** X1. The edge index, key by key: [bySource] holds under a key exactly the
    edges with that source, in edge-list order, and has no entry for a key
    that no edge starts at; [byTarget] likewise for targets; [byId] holds
    under an id the last edge of the list with that id (an edge with a
    repeated id replaces the earlier one). *)
Theorem createEdgeIndex_lookup (edges : list Edge) (k : string) :
  bySource (createEdgeIndex edges) !! k
    = (match filter (λ e, source e = k) edges with [] => None | l => Some l end)
  ∧ byTarget (createEdgeIndex edges) !! k
    = (match filter (λ e, target e = k) edges with [] => None | l => Some l end)
  ∧ byId (createEdgeIndex edges) !! k = last (filter (λ e, edge_id e = k) edges).
Proof.
  induction edges as [|e es (IHs & IHt & IHi)] using rev_ind; [done|].
  rewrite createEdgeIndex_snoc. unfold index_edge. cbn [bySource byTarget byId].
  rewrite !filter_app, !filter_cons, !filter_nil.
  split; [|split].
  - destruct (decide (source e = k)) as [Heq|Hne].
    + rewrite Heq, lookup_insert_eq, IHs.
      by destruct (filter (λ e0, source e0 = k) es).
    + rewrite lookup_insert_ne, app_nil_r by done. exact IHs.
  - destruct (decide (target e = k)) as [Heq|Hne].
    + rewrite Heq, lookup_insert_eq, IHt.
      by destruct (filter (λ e0, target e0 = k) es).
    + rewrite lookup_insert_ne, app_nil_r by done. exact IHt.
  - destruct (decide (edge_id e = k)) as [Heq|Hne].
    + by rewrite Heq, lookup_insert_eq, last_snoc.
    + rewrite lookup_insert_ne, app_nil_r by done. exact IHi.
Qed.

(** ** More about the sorter *)

Lemma kahn_loop_bound (idx : IndexedEdges) (fuel : nat) :
  ∀ deg queue result r,
    kahn_loop fuel idx deg queue result = Some r →
    (List.length r ≤ List.length result + List.length queue + waiting deg)%nat.
Proof.
  induction fuel as [|fuel IH]; intros deg queue result r Hr.
  - destruct queue; [|done]. injection Hr as <-. lia.
  - destruct queue as [|u queue]. { injection Hr as <-. lia. }
    cbn [kahn_loop] in Hr. apply IH in Hr. rewrite length_app in Hr. cbn [List.length] in *.
    pose proof (relax_fold_potential (default [] (bySource idx !! u)) deg queue). lia.
Qed.

(** The queue is served first in, first out: what is in the queue is emitted
    next, in order. *)
Lemma kahn_loop_prefix (idx : IndexedEdges) (fuel : nat) :
  ∀ deg queue result r,
    kahn_loop fuel idx deg queue result = Some r → ∃ rest, r = result ++ queue ++ rest.
Proof.
  induction fuel as [|fuel IH]; intros deg queue result r Hr.
  - destruct queue; [|done]. injection Hr as <-. exists []. by rewrite !app_nil_r.
  - destruct queue as [|u queue]. { injection Hr as <-. exists []. by rewrite !app_nil_r. }
    cbn [kahn_loop] in Hr. apply IH in Hr as [rest ->].
    destruct (relax_fold (default [] (bySource idx !! u)) deg queue) as [_ (news & -> & _)].
    exists (news ++ rest). by rewrite <- !app_assoc.
Qed.

(** The ids that start in the queue or can still enter it are no more than
    the nodes. *)
Lemma initial_potential (nodes : list WorkflowNodes) (edges : list Edge) :
  let deg := init_inDegree (createEdgeIndex edges) nodes in
  (List.length (id <$> filter (λ node, deg !! id node = Some (Num 0)) nodes) + waiting deg
   ≤ List.length nodes)%nat.
Proof.
  intros deg. rewrite length_fmap.
  assert (waiting deg
          ≤ List.length (filter (λ n, is_positive (default NaN (deg !! id n)) = true) nodes))%nat
    as Hw.
  { unfold waiting. rewrite <- (size_dom (D := gset string)).
    rewrite <- (length_fmap id).
    etrans; [|apply size_list_to_set_le]. apply subseteq_size.
    intros k [v [Hk Hv]%map_lookup_filter_Some]%elem_of_dom. cbn in Hv.
    apply elem_of_list_to_set.
    assert (k ∈ id <$> nodes) as (n & -> & Hn)%list_elem_of_fmap.
    { unfold deg in Hk. rewrite init_inDegree_lookup in Hk. by case_decide. }
    apply list_elem_of_fmap_2, list_elem_of_filter. split; [|done]. by rewrite Hk. }
  pose proof (filter_disjoint_length
                (λ n, deg !! id n = Some (Num 0))
                (λ n, is_positive (default NaN (deg !! id n)) = true) nodes) as Hd.
  etrans; [|apply Hd].
  - lia.
  - intros n H0. by rewrite H0.
Qed.

Lemma sorted_ids_length (nodes : list WorkflowNodes) (edges : list Edge) (r : list string) :
  sorted_ids nodes edges = Some r → (List.length r ≤ List.length nodes)%nat.
Proof.
  unfold sorted_ids. intros Hr%kahn_loop_bound.
  pose proof (initial_potential nodes edges) as Hp. cbn zeta in Hp. cbn [List.length] in Hr. lia.
Qed.

Lemma length_omap_le {A B} (f : A → option B) (l : list A) :
  (List.length (omap f l) ≤ List.length l)%nat.
Proof.
  induction l as [|x l IH]; [done|]. cbn [omap list_omap]. destruct (f x); cbn [List.length]; lia.
Qed.

Lemma topologicalSort_length (nodes : list WorkflowNodes) (edges : list Edge)
    (out : list WorkflowNodes) :
  topologicalSort nodes edges = Some out → (List.length out ≤ List.length nodes)%nat.
Proof.
  unfold topologicalSort.
  destruct (sorted_ids nodes edges) as [r|] eqn:Hr; [|done]. intros [= <-].
  etrans; [apply length_omap_le|]. by eapply sorted_ids_length.
Qed.

(** X2. The sorter returns on every input (cyclic graphs, edges to or from
    ids that are no nodes and repeated node ids included): the loop ends, the
    result is never longer than the node list, and every node in it is one of
    the input nodes. *)
Theorem topologicalSort_returns_input_nodes (nodes : list WorkflowNodes) (edges : list Edge) :
  ∃ out, topologicalSort nodes edges = Some out
    ∧ (List.length out ≤ List.length nodes)%nat
    ∧ (∀ n, n ∈ out → n ∈ nodes).
Proof.
  destruct (topologicalSort_total nodes edges) as [out Hout]. exists out.
  split; [done|]. split; [by eapply topologicalSort_length|].
  unfold topologicalSort in Hout.
  destruct (sorted_ids nodes edges) as [r|] eqn:Hr; [|done]. injection Hout as <-.
  intros n (i & _ & Hl)%list_elem_of_omap. by apply build_nodeIndex_elem in Hl as [Hn _].
Qed.

Lemma omap_nodeIndex_nodes (nodes l : list WorkflowNodes) :
  NoDup (id <$> nodes) →
  (∀ n, n ∈ l → n ∈ nodes) →
  omap (λ i, build_nodeIndex nodes !! i) (id <$> l) = l.
Proof.
  intros Hnd. induction l as [|n l IH]; intros Hl; [done|].
  cbn [fmap list_fmap omap list_omap].
  rewrite (build_nodeIndex_lookup nodes n Hnd) by (apply Hl; left).
  f_equal. apply IH. intros m Hm. apply Hl. by right.
Qed.

Lemma filter_ext_elem {A} (P Q : A → Prop)
    `{!∀ x, Decision (P x)} `{!∀ x, Decision (Q x)} (l : list A) :
  (∀ x, x ∈ l → P x ↔ Q x) → filter P l = filter Q l.
Proof.
  induction l as [|x l IH]; intros Hext; [done|].
  rewrite !filter_cons. rewrite IH by (intros y Hy; apply Hext; by right).
  pose proof (Hext x ltac:(left)) as Hx.
  destruct (decide (P x)), (decide (Q x)); naive_solver.
Qed.

(** X3. On a graph with distinct node ids the result of the sorter starts
    with the nodes that no edge points at, in the order of the node list (the
    queue is served first in, first out); without edges the result is the
    node list itself. *)
Theorem topologicalSort_sources_lead (nodes : list WorkflowNodes) (edges : list Edge) :
  NoDup (id <$> nodes) →
  (∃ rest, topologicalSort nodes edges
           = Some (filter (λ n, hits (id n) edges = 0%Z) nodes ++ rest))
  ∧ topologicalSort nodes [] = Some nodes.
Proof.
  intros Hnd.
  assert (∀ es, ∃ rest, topologicalSort nodes es
                        = Some (filter (λ n, hits (id n) es = 0%Z) nodes ++ rest)) as Hlead.
  { intros es. unfold topologicalSort.
    destruct (sorted_ids nodes es) as [r|] eqn:Hr.
    - unfold sorted_ids in Hr. apply kahn_loop_prefix in Hr as [rest ->].
      cbn [app]. rewrite omap_app.
      exists (omap (λ i, build_nodeIndex nodes !! i) rest). do 2 f_equal.
      rewrite omap_nodeIndex_nodes; [|done|by intros n [_ Hn]%list_elem_of_filter].
      apply filter_ext_elem. intros n Hn.
      rewrite init_inDegree_lookup, decide_True by (by apply list_elem_of_fmap_2).
      rewrite byTarget_spec. fold (hits (id n) es). split; [congruence|by intros ->].
    - destruct (topologicalSort_total nodes es) as [out Hout].
      unfold topologicalSort in Hout. by rewrite Hr in Hout. }
  split; [apply Hlead|].
  destruct (Hlead []) as [rest Hrest].
  pose proof (topologicalSort_length nodes [] _ Hrest) as Hlen.
  rewrite Hrest. f_equal.
  assert (filter (λ n, hits (id n) [] = 0%Z) nodes = nodes) as Hall.
  { clear. induction nodes as [|n l IH]; [done|]. rewrite filter_cons, decide_True by done.
    by rewrite IH. }
  rewrite Hall in *. rewrite length_app in Hlen.
  destruct rest; [by rewrite app_nil_r|cbn in Hlen; lia].
Qed.

(** X4. On a graph with distinct node ids, nothing on a directed cycle and
    nothing that can be reached from a cycle is in the result of the sorter:
    such nodes are dropped without an error. *)
Theorem topologicalSort_drops_cycles (nodes : list WorkflowNodes) (edges : list Edge)
    (v w : string) :
  NoDup (id <$> nodes) →
  path edges v v →
  reach edges v w →
  ∃ out, topologicalSort nodes edges = Some out ∧ ¬ (w ∈ id <$> out).
Proof.
  intros Hnd Hcyc Hreach.
  destruct (topologicalSort_ids nodes edges Hnd) as (r & out & Hr & Hout & Hmap & Hndr & _).
  destruct (sorted_ids_spec nodes edges Hnd) as (r' & Hr' & _ & _ & Hsf & _).
  assert (r' = r) as -> by congruence.
  exists out. split; [done|]. rewrite Hmap.
  by apply (sources_first_no_cycle edges r v w).
Qed.

Lemma topologicalSort_sources_lead_witness :
  (∃ rest, topologicalSort chain_nodes chain_edges
           = Some (filter (λ n, hits (id n) chain_edges = 0%Z) chain_nodes ++ rest))
  ∧ topologicalSort chain_nodes [] = Some chain_nodes.
Proof.
  apply topologicalSort_sources_lead. apply (bool_decide_unpack _). vm_compute. exact I.
Defined.

Lemma topologicalSort_drops_cycles_witness :
  ∃ out, topologicalSort cyclic_nodes cyclic_edges = Some out ∧ ¬ ("c" ∈ id <$> out).
Proof.
  apply (topologicalSort_drops_cycles cyclic_nodes cyclic_edges "b" "c").
  - apply (bool_decide_unpack _). vm_compute. exact I.
  - eapply tc_l; [|apply tc_once].
    + exists (mkEdge "e2" "b" "c"). split; [|done]. set_solver.
    + exists (mkEdge "e3" "c" "b"). split; [|done]. set_solver.
  - apply rtc_once. exists (mkEdge "e2" "b" "c"). split; [|done]. set_solver.
Defined.

(** ** The sanitizers *)

Lemma startsWith_spec (s p : string) : startsWith s p = true ↔ ∃ rest, s = p +:+ rest.
Proof.
  revert s. induction p as [|a p IH]; intros s.
  - split; [intros _; by exists s|by destruct s].
  - destruct s as [|b s]; cbn [startsWith].
    + split; [done|]. by intros [rest Hr].
    + destruct (Ascii.eqb_spec a b) as [->|Hne].
      * rewrite IH. split; intros [rest Hr]; exists rest.
        -- by rewrite append_cons, Hr.
        -- rewrite append_cons in Hr. by injection Hr.
      * split; [done|]. intros [rest Hr]. rewrite append_cons in Hr. by injection Hr.
Qed.

Lemma startsWith_nil (s : string) : startsWith s "" = true.
Proof. by destruct s. Qed.

Lemma escape_backslashes_cons (c : ascii) (rest : string) :
  escape_backslashes (String c rest) =
    if Ascii.eqb c "\" then String "\" (String "\" (escape_backslashes rest))
    else String c (escape_backslashes rest).
Proof. destruct c as [[] [] [] [] [] [] [] []]; reflexivity. Qed.

Lemma escape_placeholders_cons (c : ascii) (rest : string) :
  escape_placeholders (String c rest) =
    if Ascii.eqb c "$" && startsWith rest "{"
    then String "\" (String "$" (escape_placeholders rest))
    else String c (escape_placeholders rest).
Proof.
  destruct (Ascii.eqb_spec c "$") as [->|Hne].
  - destruct rest as [|d rest]; [reflexivity|].
    destruct (Ascii.eqb_spec d "{") as [->|Hd].
    + cbn [startsWith]. change (Ascii.eqb "{" "{") with true. cbn iota.
      by rewrite startsWith_nil.
    + destruct d as [[] [] [] [] [] [] [] []]; try reflexivity. by destruct Hd.
  - destruct c as [[] [] [] [] [] [] [] []]; try reflexivity. by destruct Hne.
Qed.

Lemma escape_placeholders_head (s : string) :
  startsWith (escape_placeholders s) "{" = startsWith s "{".
Proof.
  destruct s as [|c rest]; [done|]. rewrite escape_placeholders_cons.
  destruct (Ascii.eqb_spec c "$") as [->|Hne]; [|cbn [andb startsWith]; by rewrite !startsWith_nil].
  by destruct (startsWith rest "{").
Qed.

Lemma escape_placeholders_guarded (s : string) :
  ∀ guarded, bare_placeholder guarded (escape_placeholders s) = false.
Proof.
  induction s as [|c rest IH]; intros guarded; [done|].
  rewrite escape_placeholders_cons.
  destruct (Ascii.eqb c "$" && startsWith rest "{") eqn:Hm.
  - cbn [bare_placeholder]. change (Ascii.eqb "\" "$") with false.
    change (Ascii.eqb "\" "\") with true. change (Ascii.eqb "$" "\") with false.
    cbn [negb andb orb]. rewrite andb_false_r. apply IH.
  - cbn [bare_placeholder]. rewrite escape_placeholders_head, Hm, IH. done.
Qed.

Lemma escape_placeholders_id (s : string) :
  includes s "${" = false → escape_placeholders s = s.
Proof.
  induction s as [|c rest IH]; [done|]. cbn [includes]. intros [Hs Hi]%orb_false_iff.
  rewrite escape_placeholders_cons.
  assert (Ascii.eqb c "$" && startsWith rest "{" = false) as ->.
  { cbn [startsWith] in Hs. rewrite Ascii.eqb_sym.
    destruct (Ascii.eqb "$" c); [|done]. destruct rest as [|d rest]; [done|].
    cbn [startsWith andb] in *. destruct (Ascii.eqb "{" d); [|done].
    by destruct rest. }
  by rewrite IH.
Qed.

(** X5. In what either sanitizer returns, every [$] followed by an opening
    brace stands right behind a backslash; the prompt sanitizer leaves a text
    without any such pair unchanged. *)
Theorem sanitized_placeholders_are_guarded :
  (∀ input, bare_placeholder false (sanitizeForPrompt input) = false)
  ∧ (∀ input, bare_placeholder false (sanitizeForShell input) = false)
  ∧ (∀ input, includes input "${" = false → sanitizeForPrompt input = input).
Proof.
  split; [|split].
  - intros input. apply escape_placeholders_guarded.
  - intros input. apply escape_placeholders_guarded.
  - intros input. apply escape_placeholders_id.
Qed.

Lemma unescape_sanitizeForShell (input : string) : unescape (sanitizeForShell input) = input.
Proof.
  unfold sanitizeForShell. induction input as [|c rest IH]; [done|].
  rewrite escape_backslashes_cons.
  destruct (Ascii.eqb_spec c "\") as [->|Hne].
  - rewrite !escape_placeholders_cons.
    change (Ascii.eqb "\" "$") with false. cbn [andb].
    cbn [unescape]. change (Ascii.eqb "\" "\") with true. cbn iota. by rewrite IH.
  - rewrite escape_placeholders_cons.
    destruct (Ascii.eqb c "$" && startsWith (escape_backslashes rest) "{") eqn:Hm.
    + apply andb_true_iff in Hm as [->%Ascii.eqb_eq _].
      cbn [unescape]. change (Ascii.eqb "\" "\") with true. cbn iota. by rewrite IH.
    + cbn [unescape]. rewrite (proj2 (Ascii.eqb_neq _ _) Hne). by rewrite IH.
Qed.

(** X6. The shell sanitizer loses nothing: dropping each escaping backslash
    gives the input back, so two inputs with the same sanitized text are
    equal; on a text without backslashes it does what the prompt sanitizer
    does. *)
Theorem sanitizeForShell_round_trip :
  (∀ input, unescape (sanitizeForShell input) = input)
  ∧ (∀ input1 input2, sanitizeForShell input1 = sanitizeForShell input2 → input1 = input2)
  ∧ (∀ input, has_char "\" input = false → sanitizeForShell input = sanitizeForPrompt input).
Proof.
  split; [apply unescape_sanitizeForShell|]. split.
  - intros input1 input2 Heq.
    by rewrite <- (unescape_sanitizeForShell input1), Heq, unescape_sanitizeForShell.
  - intros input Hno. unfold sanitizeForShell, sanitizeForPrompt. f_equal.
    induction input as [|c rest IH]; [done|]. cbn [has_char] in Hno.
    apply orb_false_iff in Hno as [Hc Hrest]. rewrite escape_backslashes_cons.
    rewrite Ascii.eqb_sym, Hc. by rewrite IH.
Qed.

(** ** Preparing the shell command *)

Lemma convert_quotes_guarded (s : string) :
  ∀ escaped, bare_quote escaped (convert_quotes escaped s) = false.
Proof.
  induction s as [|c rest IH]; intros escaped; [done|].
  cbn [convert_quotes bare_quote].
  destruct (Ascii.eqb_spec c "034") as [->|Hne].
  - destruct escaped; cbn [negb andb].
    + change (Ascii.eqb "034" "\") with false. cbn [orb]. apply IH.
    + change (Ascii.eqb "'" "034") with false. change (Ascii.eqb "'" "\") with false.
      change (Ascii.eqb "034" "\") with false. cbn [andb orb]. apply IH.
  - cbn [andb]. rewrite (proj2 (Ascii.eqb_neq _ _) Hne). cbn [andb orb]. apply IH.
Qed.

Lemma convert_quotes_length (s : string) :
  ∀ escaped, String.length (convert_quotes escaped s) = String.length s.
Proof.
  induction s as [|c rest IH]; intros escaped; [done|].
  cbn [convert_quotes String.length]. by rewrite IH.
Qed.

Lemma convert_quotes_id (s : string) :
  has_char "034" s = false → ∀ escaped, convert_quotes escaped s = s.
Proof.
  induction s as [|c rest IH]; intros Hno escaped; [done|].
  cbn [has_char] in Hno. apply orb_false_iff in Hno as [Hc Hrest].
  cbn [convert_quotes]. rewrite Ascii.eqb_sym, Hc. cbn [andb]. by rewrite IH.
Qed.

(** X7. The quote conversion of the CLI executor keeps the length of the
    command, leaves a command without double quotes unchanged, and leaves no
    double quote except right behind a backslash; so the command the CLI
    executor prepares has no such quote. *)
Theorem convert_quotes_spec :
  (∀ s, bare_quote false (convert_quotes false s) = false)
  ∧ (∀ s, String.length (convert_quotes false s) = String.length s)
  ∧ (∀ s, has_char "034" s = false → convert_quotes false s = s)
  ∧ (∀ env c, bare_quote false (prepared_command env c) = false).
Proof.
  split; [|split; [|split]].
  - intros s. apply convert_quotes_guarded.
  - intros s. apply convert_quotes_length.
  - intros s Hno. by apply convert_quotes_id.
  - intros env c. apply convert_quotes_guarded.
Qed.

Lemma get_substitution_plain (matched before after capture template : string) :
  has_char "$" template = false →
  get_substitution matched before after capture template = template.
Proof.
  induction template as [|x rest IH]; [done|]. cbn [has_char].
  intros [Hx Hrest]%orb_false_iff.
  assert (get_substitution matched before after capture (String x rest)
          = String x (get_substitution matched before after capture rest)) as ->.
  { destruct x as [[] [] [] [] [] [] [] []]; try reflexivity. discriminate Hx. }
  by rewrite IH.
Qed.

Lemma expand_home_no_match (replacement before : string) (c : ascii) (rest : string) :
  startsWith rest "~/" = false →
  expand_home replacement before 0 (String c rest)
    = String c (expand_home replacement (String c before) 0 rest).
Proof.
  intros Hs. destruct rest as [|d rest]; [reflexivity|].
  destruct (Ascii.eqb_spec d "~") as [->|Hd].
  - destruct rest as [|e rest]; [reflexivity|].
    destruct (Ascii.eqb_spec e "/") as [->|He].
    + cbn in Hs. by destruct rest.
    + destruct e as [[] [] [] [] [] [] [] []]; try reflexivity. by destruct He.
  - destruct d as [[] [] [] [] [] [] [] []]; try reflexivity. by destruct Hd.
Qed.

Lemma expand_home_not_ws (replacement before : string) (c : ascii) (rest : string) :
  is_ws c = false →
  expand_home replacement before 0 (String c rest)
    = String c (expand_home replacement (String c before) 0 rest).
Proof.
  intros Hc. destruct (startsWith rest "~/") eqn:Hs.
  - apply startsWith_spec in Hs as [after ->]. cbn [expand_home]. str_simpl.
    cbn iota. by rewrite Hc.
  - by apply expand_home_no_match.
Qed.

Lemma expand_home_before (replacement : string) :
  has_char "$" replacement = false →
  ∀ s before1 before2 skip,
    expand_home replacement before1 skip s = expand_home replacement before2 skip s.
Proof.
  intros Hplain. induction s as [|c rest IH]; intros before1 before2 skip; [done|].
  destruct skip as [|skip]; [|cbn [expand_home]; apply IH].
  destruct (startsWith rest "~/") eqn:Hs.
  - apply startsWith_spec in Hs as [after ->]. cbn [expand_home]. str_simpl. cbn iota.
    destruct (is_ws c).
    + rewrite !get_substitution_plain by done. f_equal. apply IH.
    + f_equal. apply IH.
  - rewrite !expand_home_no_match by done. f_equal. apply IH.
Qed.

Lemma expand_home_id (replacement : string) (s : string) :
  has_char "~" s = false → ∀ before, expand_home replacement before 0 s = s.
Proof.
  induction s as [|c rest IH]; intros Hno before; [done|].
  cbn [has_char] in Hno. apply orb_false_iff in Hno as [_ Hrest].
  rewrite expand_home_no_match.
  - by rewrite IH.
  - destruct rest as [|d rest]; [done|]. cbn [has_char] in Hrest.
    apply orb_false_iff in Hrest as [Hd _]. cbn [startsWith]. by rewrite Hd.
Qed.

(** X8. The home expansion of the CLI executor, for a replacement text
    without [$]: a command without a tilde is unchanged; the first white
    space character followed by a tilde and a slash is replaced, white space
    included, by the replacement text, and the expansion goes on behind it; a
    tilde and a slash at the very start of the command are not expanded. *)
Theorem expand_home_spec (replacement : string) :
  has_char "$" replacement = false →
  (∀ s, has_char "~" s = false → expand_home replacement "" 0 s = s)
  ∧ (∀ pre w post,
       has_char "~" pre = false →
       is_ws w = true →
       expand_home replacement "" 0 (pre +:+ String w ("~/" +:+ post))
         = pre +:+ replacement +:+ expand_home replacement "" 0 post)
  ∧ (∀ post,
       expand_home replacement "" 0 ("~/" +:+ post)
         = "~/" +:+ expand_home replacement "" 0 post).
Proof.
  intros Hplain. split; [|split].
  - intros s Hno. by apply expand_home_id.
  - intros pre w post Hno Hw. generalize "" at 1 as before.
    induction pre as [|c pre IH]; intros before.
    + str_simpl. cbn [expand_home]. rewrite Hw.
      rewrite get_substitution_plain by done. f_equal. by apply expand_home_before.
    + cbn [has_char] in Hno. apply orb_false_iff in Hno as [_ Hpre].
      str_simpl. rewrite expand_home_no_match.
      * f_equal. by apply IH.
      * destruct pre as [|d pre]; str_simpl; cbn [startsWith].
        -- destruct (Ascii.eqb_spec "~" w) as [<-|]; [discriminate Hw|done].
        -- cbn [has_char] in Hpre. apply orb_false_iff in Hpre as [Hd _]. by rewrite Hd.
  - intros post. str_simpl. rewrite expand_home_no_match by done.
    rewrite expand_home_not_ws by done. do 2 f_equal. by apply expand_home_before.
Qed.

Lemma expand_home_spec_witness :
  (∀ s, has_char "~" s = false → expand_home " /home/user/" "" 0 s = s)
  ∧ (∀ pre w post,
       has_char "~" pre = false →
       is_ws w = true →
       expand_home " /home/user/" "" 0 (pre +:+ String w ("~/" +:+ post))
         = pre +:+ " /home/user/" +:+ expand_home " /home/user/" "" 0 post)
  ∧ (∀ post,
       expand_home " /home/user/" "" 0 ("~/" +:+ post)
         = "~/" +:+ expand_home " /home/user/" "" 0 post).
Proof. apply expand_home_spec. reflexivity. Defined.

(** ** The CLI executor, case by case *)

Lemma executeCLINode_unfold (env : Collaborators) (node : WorkflowNodes) (tr : list Effect) :
  executeCLINode env node tr =
    if negb (env_shell env) || negb (workspace_isTrusted env)
    then (tr, Threw (new_Error "Shell command is not supported in your current workspace."))
    else
      match content (data node) with
      | None => (tr, Threw (new_Error "CLI Node requires a non-empty command"))
      | Some c =>
          if decide (trim c = "")
          then (tr, Threw (new_Error "CLI Node requires a non-empty command"))
          else
            let convertQuotes := prepared_command env c in
            if needsUserApproval (data node)
            then
              let tr1 := tr ++ approval_request node convertQuotes in
              match approvalHandler env tr1 (id node) with
              | inl e => (tr1, Threw e)
              | inr approval =>
                  check_and_execute env convertQuotes tr1
                    (if truthy approval then default convertQuotes approval else convertQuotes)
              end
            else check_and_execute env convertQuotes tr convertQuotes
      end.
Proof.
  unfold executeCLINode.
  destruct (negb (env_shell env) || negb (workspace_isTrusted env)); [done|].
  destruct (content (data node)) as [c|]; [|done].
  cbn [fmap option_fmap option_map]. case_decide as Htrim.
  { by rewrite Htrim. }
  assert (truthy (Some (trim c)) = true) as -> by (by destruct (trim c)).
  cbn [negb]. fold (prepared_command env c). cbn zeta.
  unfold check_and_execute, approval_request, try_catch, mbind, Exec_bind, postMessage, emit,
    await, throw, mret, Exec_ret.
  destruct (needsUserApproval (data node)).
  - rewrite <- !app_assoc. cbn [app].
    destruct (approvalHandler env _ (id node)) as [e|approval]; [done|].
    destruct (denied (prepared_command env c)); [by rewrite <- !app_assoc|].
    rewrite <- !app_assoc. cbn [app].
    destruct (shell_execute env _ _) as [e|out]; [|done].
    by rewrite <- !app_assoc.
  - destruct (denied (prepared_command env c)); [done|].
    destruct (shell_execute env _ _) as [e|out]; [|done].
    by rewrite <- !app_assoc.
Qed.

Lemma app_self_nil {A} (l new : list A) : l = l ++ new → new = [].
Proof. intros Heq. apply (app_inv_head l). by rewrite app_nil_r. Qed.

Lemma denied_spec (command : string) :
  denied command = true ↔ ∃ cmd rest, cmd ∈ commandsNotAllowed ∧ command = cmd +:+ rest.
Proof.
  unfold denied. rewrite existsb_exists. split.
  - intros (cmd & Hin%list_elem_of_In & [rest Hr]%startsWith_spec). by exists cmd, rest.
  - intros (cmd & rest & Hin & Hr). exists cmd. split; [by apply list_elem_of_In|].
    apply startsWith_spec. by exists rest.
Qed.

Lemma denied_ws (w : ascii) (command : string) :
  is_ws w = true → denied (String w command) = false.
Proof.
  intros Hw. destruct w as [[] [] [] [] [] [] [] []]; vm_compute in Hw; try discriminate Hw;
    reflexivity.
Qed.

(** X9. The denylist test is a case-sensitive prefix test on the command as
    it stands: a command is denied exactly when it begins with an entry of
    the list, whatever follows ([rm], [su], [user] and [init] deny every
    command that begins with these letters), and a command that begins with a
    white space character is never denied. *)
Theorem denylist_is_a_prefix_test :
  (∀ command,
     denied command = true ↔ ∃ cmd rest, cmd ∈ commandsNotAllowed ∧ command = cmd +:+ rest)
  ∧ (∀ w command, is_ws w = true → denied (String w command) = false)
  ∧ (∀ rest, denied ("rm" +:+ rest) = true ∧ denied ("su" +:+ rest) = true
             ∧ denied ("user" +:+ rest) = true ∧ denied ("init" +:+ rest) = true).
Proof.
  split; [exact denied_spec|]. split; [exact denied_ws|].
  intros rest. repeat split; apply denied_spec; eexists _, rest; (split; [|reflexivity]);
    set_solver.
Qed.

Lemma prepared_command_head (env : Collaborators) (w : ascii) (c : string) :
  is_ws w = true →
  ∃ w' rest, prepared_command env (String w c) = String w' rest ∧ is_ws w' = true.
Proof.
  intros Hw. unfold prepared_command.
  assert (∃ w' rest, expand_home (" " +:+ homeDir env +:+ path_sep env) "" 0 (String w c)
                     = String w' rest ∧ is_ws w' = true) as (w' & rest & -> & Hw').
  { destruct (startsWith c "~/") eqn:Hs.
    - apply startsWith_spec in Hs as [after ->]. str_simpl. cbn [expand_home]. rewrite Hw.
      cbn [get_substitution]. str_simpl. by eexists _, _.
    - rewrite expand_home_no_match by done. by eexists _, _. }
  cbn [convert_quotes].
  assert (Ascii.eqb w' "034" = false) as ->.
  { apply Ascii.eqb_neq. intros ->. discriminate Hw'. }
  by eexists _, _.
Qed.

(** X10. A CLI node whose command begins with white space, is not blank and
    needs no approval is run whatever it says: the emptiness test trims, the
    denylist test does not, so the executor hands the prepared command to the
    shell and returns its output. *)
Theorem leading_white_space_passes_the_denylist (env : Collaborators) (node : WorkflowNodes)
    (tr : list Effect) (w : ascii) (c out : string) :
  env_shell env = true →
  workspace_isTrusted env = true →
  content (data node) = Some (String w c) →
  is_ws w = true →
  trim c ≠ "" →
  needsUserApproval (data node) = false →
  shell_execute env (tr ++ [ShellExecute (prepared_command env (String w c))])
    (prepared_command env (String w c)) = inr out →
  executeCLINode env node tr
    = (tr ++ [ShellExecute (prepared_command env (String w c))], Returned out).
Proof.
  intros Hshell Htrust Hc Hw Htrim Happr Hexec.
  rewrite executeCLINode_unfold, Hshell, Htrust, Hc, Happr. cbn [negb orb].
  assert (trim (String w c) = trim c) as Ht by (unfold trim; cbn [trimStart]; by rewrite Hw).
  rewrite decide_False by (by rewrite Ht). cbn zeta. unfold check_and_execute.
  destruct (prepared_command_head env w c Hw) as (w' & rest & Heq & Hw').
  assert (denied (prepared_command env (String w c)) = false) as ->
    by (rewrite Heq; by apply denied_ws).
  by rewrite Hexec.
Qed.

(** X11. When the CLI executor hands a command to the shell, the workspace
    is trusted and has a shell, the content of the node is not blank, the
    command prepared from it passed the denylist, and the command handed over
    is that prepared command or the non-empty replacement the approval
    callback returned for a node that needs approval. *)
Theorem shell_runs_only_checked_commands (env : Collaborators) (node : WorkflowNodes)
    (tr new : list Effect) (r : Outcome string) (command : string) :
  executeCLINode env node tr = (tr ++ new, r) →
  ShellExecute command ∈ new →
  env_shell env = true
  ∧ workspace_isTrusted env = true
  ∧ ∃ c, content (data node) = Some c
       ∧ trim c ≠ ""
       ∧ denied (prepared_command env c) = false
       ∧ (command = prepared_command env c
          ∨ (needsUserApproval (data node) = true
             ∧ command ≠ ""
             ∧ approvalHandler env (tr ++ approval_request node (prepared_command env c))
                 (id node) = inr (Some command))).
Proof.
  rewrite executeCLINode_unfold. intros Hrun Hin.
  destruct (env_shell env), (workspace_isTrusted env); cbn [negb orb] in Hrun;
    try (injection Hrun as ->%app_self_nil _; set_solver).
  split; [done|]. split; [done|].
  destruct (content (data node)) as [c|];
    [|injection Hrun as ->%app_self_nil _; set_solver].
  case_decide as Htrim; [injection Hrun as ->%app_self_nil _; set_solver|].
  exists c. split; [done|]. split; [done|]. cbn zeta in Hrun.
  unfold check_and_execute in Hrun.
  destruct (needsUserApproval (data node)).
  - destruct (approvalHandler env _ (id node)) as [e|approval] eqn:Happroval.
    { injection Hrun as Hnew%app_inv_head _. subst new. unfold approval_request in Hin.
      set_solver. }
    destruct (denied (prepared_command env c)).
    { injection Hrun as Hnew _. rewrite <- app_assoc in Hnew. apply app_inv_head in Hnew.
      subst new. unfold approval_request in Hin. set_solver. }
    split; [done|].
    assert (command = if truthy approval then default (prepared_command env c) approval
                      else prepared_command env c) as Hcmd.
    { destruct (shell_execute env _ _); injection Hrun as Hnew _;
        rewrite <- app_assoc in Hnew; apply app_inv_head in Hnew; subst new;
        unfold approval_request in Hin; set_solver. }
    destruct approval as [[|a replacement]|]; cbn in Hcmd; [by left| |by left].
    right. by rewrite Hcmd.
  - destruct (denied (prepared_command env c)).
    { injection Hrun as Hnew%app_inv_head _. subst new. set_solver. }
    split; [done|]. left.
    destruct (shell_execute env _ _); injection Hrun as Hnew%app_inv_head _; subst new;
      set_solver.
Qed.

(** X12. When the command prepared from the content of a CLI node is on the
    denylist, the CLI executor throws and hands no command to the shell,
    whatever the workspace, the approval setting and the answer of the
    approval callback are. *)
Theorem denied_command_is_never_run (env : Collaborators) (node : WorkflowNodes)
    (tr : list Effect) (c : string) :
  content (data node) = Some c →
  denied (prepared_command env c) = true →
  ∃ new e, executeCLINode env node tr = (tr ++ new, Threw e)
           ∧ (∀ command, ShellExecute command ∉ new).
Proof.
  intros Hc Hdenied. rewrite executeCLINode_unfold, Hc. cbn zeta. unfold check_and_execute.
  rewrite Hdenied.
  destruct (negb (env_shell env) || negb (workspace_isTrusted env)).
  { eexists [], _. rewrite app_nil_r. split; [done|]. set_solver. }
  case_decide as Htrim.
  { eexists [], _. rewrite app_nil_r. split; [done|]. set_solver. }
  destruct (needsUserApproval (data node)).
  - destruct (approvalHandler env _ (id node)) as [e|approval].
    + exists (approval_request node (prepared_command env c)), e. split; [done|].
      unfold approval_request. set_solver.
    + eexists _, _. rewrite <- app_assoc. split; [done|].
      unfold approval_request. set_solver.
  - eexists _, _. split; [done|]. set_solver.
Qed.

(** What the CLI case of the orchestrator makes of a command the shell
    rejects. *)
Lemma dispatch_cli_throws (env : Collaborators) (node : WorkflowNodes)
    (context : IndexedExecutionContext) tr tr' e :
  type node = CLI →
  executeCLINode env (cli_node_to_run node context) tr = (tr', Threw e) →
  dispatch env node context tr = (tr' ++ cli_failure_tail node e, Returned None).
Proof.
  intros Ht Hrun. unfold dispatch. rewrite Ht.
  unfold try_catch, mbind, Exec_bind. fold (cli_node_to_run node context). rewrite Hrun.
  unfold emit, postMessage, emit, mret, Exec_ret, cli_failure_tail, failure_report.
  by rewrite <- !app_assoc.
Qed.

(** X13. When the shell rejects the command of a CLI node, with or without
    an approval step before it and whether the command is the rendered one
    or the replacement the approval callback returned, the executor disposes
    the shell and rethrows with the prefix [CLI Node execution failed: ], and
    the orchestrator disposes the shell a second time, shows the error, posts
    the status ([interrupted] when the message includes [aborted], else
    [error]) and [execution_completed], and returns. *)
Theorem shell_failure_disposes_twice (env : Collaborators) (node : WorkflowNodes)
    (context : IndexedExecutionContext) (tr pre : list Effect) (c command : string)
    (e : JsValue) :
  type node = CLI →
  env_shell env = true →
  workspace_isTrusted env = true →
  render node (sanitizeForShell <$> combineParentOutputsByConnectionOrder (id node) context) = c →
  trim c ≠ "" →
  denied (prepared_command env c) = false →
  reaches_shell env node tr (prepared_command env c) pre command →
  shell_execute env (tr ++ pre ++ [ShellExecute command]) command = inl e →
  let message := "CLI Node execution failed: " +:+ error_message e in
  dispatch env node context tr =
    (tr ++ pre
        ++ [ ShellExecute command;
             ShellDispose;
             ShellDispose;
             ShowErrorMessage ("CLI Node Error: " +:+ message);
             PostMessage (node_execution_status (id node)
                            (if includes message "aborted" then interrupted else error)
                            (Some message));
             PostMessage execution_completed ],
     Returned None).
Proof.
  intros Ht Hshell Htrust Hrender Htrim Hdenied Hreach Hexec message.
  rewrite (dispatch_cli_throws env node context tr
             (tr ++ pre ++ [ShellExecute command; ShellDispose])
             (new_Error ("CLI Node execution failed: " +:+ error_message e)) Ht).
  - unfold cli_failure_tail, failure_report. cbn [error_message new_Error].
    by rewrite <- !app_assoc.
  - rewrite executeCLINode_unfold. unfold cli_node_to_run, reaches_shell, approval_request in *.
    cbn [with_content content data needsUserApproval id].
    rewrite Hshell, Htrust, Hrender. cbn [negb orb].
    rewrite decide_False by done. cbn zeta. unfold check_and_execute.
    destruct (needsUserApproval (data node)).
    + destruct Hreach as (-> & approval & Happroval & ->).
      rewrite Happroval, Hdenied. rewrite <- !app_assoc in *. cbn [app] in *.
      by rewrite Hexec.
    + destruct Hreach as [-> ->]. cbn [app] in Hexec. rewrite Hdenied, Hexec. done.
Qed.

(** X14. When the approval callback rejects, the CLI executor lets the
    rejection through as it is, after the approval request and before any
    denylist test or shell call; the orchestrator disposes the shell, reports
    the message of the rejection as the status of the node and ends the
    run. *)
Theorem approval_rejection_ends_the_run (env : Collaborators) (node : WorkflowNodes)
    (context : IndexedExecutionContext) (tr : list Effect) (c : string) (e : JsValue) :
  type node = CLI →
  env_shell env = true →
  workspace_isTrusted env = true →
  render node (sanitizeForShell <$> combineParentOutputsByConnectionOrder (id node) context) = c →
  trim c ≠ "" →
  needsUserApproval (data node) = true →
  approvalHandler env (tr ++ approval_request node (prepared_command env c)) (id node)
    = inl e →
  dispatch env node context tr =
    (tr ++ [ PostMessage (node_execution_status (id node) pending_approval
                            (Some (prepared_command env c)));
             AskApproval (id node);
             ShellDispose;
             ShowErrorMessage ("CLI Node Error: " +:+ error_message e);
             PostMessage (node_execution_status (id node)
                            (if includes (error_message e) "aborted" then interrupted else error)
                            (Some (error_message e)));
             PostMessage execution_completed ],
     Returned None).
Proof.
  intros Ht Hshell Htrust Hrender Htrim Happr Hreject.
  erewrite dispatch_cli_throws; [|done|].
  2: { rewrite executeCLINode_unfold. unfold cli_node_to_run, approval_request in *.
       cbn [with_content content data needsUserApproval id].
       rewrite Hshell, Htrust, Hrender, Happr. cbn [negb orb].
       rewrite decide_False by done. cbn zeta. rewrite Hreject. reflexivity. }
  unfold cli_failure_tail, failure_report, approval_request. by rewrite <- app_assoc.
Qed.

Lemma leading_white_space_passes_the_denylist_witness :
  denied "sudo reboot" = true
  ∧ executeCLINode sample_env (sample_node "a" CLI " sudo reboot") []
    = ([ShellExecute " sudo reboot"], Returned "output of  sudo reboot").
Proof.
  split; [reflexivity|].
  apply (leading_white_space_passes_the_denylist sample_env
           (sample_node "a" CLI " sudo reboot") [] " " "sudo reboot" "output of  sudo reboot");
    try reflexivity.
  vm_compute. discriminate.
Defined.

Lemma shell_runs_only_checked_commands_witness :
  env_shell replacing_env = true
  ∧ workspace_isTrusted replacing_env = true
  ∧ ∃ c, content (data approval_node) = Some c
       ∧ trim c ≠ ""
       ∧ denied (prepared_command replacing_env c) = false
       ∧ ("sudo reboot" = prepared_command replacing_env c
          ∨ (needsUserApproval (data approval_node) = true
             ∧ "sudo reboot" ≠ ""
             ∧ approvalHandler replacing_env
                 ([] ++ approval_request approval_node (prepared_command replacing_env c))
                 (id approval_node) = inr (Some "sudo reboot"))).
Proof.
  apply (shell_runs_only_checked_commands replacing_env approval_node []
           [ PostMessage (node_execution_status "a" pending_approval (Some "echo hi"));
             AskApproval "a"; ShellExecute "sudo reboot" ]
           (Returned "output of sudo reboot") "sudo reboot").
  - reflexivity.
  - set_solver.
Defined.

Lemma denied_command_is_never_run_witness :
  ∃ new e, executeCLINode sample_env (sample_node "a" CLI "sudo ls") [] = ([] ++ new, Threw e)
           ∧ (∀ command, ShellExecute command ∉ new).
Proof.
  apply (denied_command_is_never_run sample_env (sample_node "a" CLI "sudo ls") [] "sudo ls");
    reflexivity.
Defined.

Lemma shell_failure_disposes_twice_witness :
  dispatch failing_shell_env (sample_node "a" CLI "make") (initial_context [] []) [] =
    ([] ++ []
        ++ [ ShellExecute "make";
             ShellDispose;
             ShellDispose;
             ShowErrorMessage "CLI Node Error: CLI Node execution failed: Command aborted by user";
             PostMessage (node_execution_status "a" interrupted
                            (Some "CLI Node execution failed: Command aborted by user"));
             PostMessage execution_completed ],
     Returned None)
  ∧ dispatch replacing_failing_shell_env approval_node (initial_context [] []) [] =
      ([] ++ [ PostMessage (node_execution_status "a" pending_approval (Some "echo hi"));
               AskApproval "a" ]
          ++ [ ShellExecute "make all";
               ShellDispose;
               ShellDispose;
               ShowErrorMessage "CLI Node Error: CLI Node execution failed: exit code 2";
               PostMessage (node_execution_status "a" error
                              (Some "CLI Node execution failed: exit code 2"));
               PostMessage execution_completed ],
       Returned None).
Proof.
  split.
  - apply (shell_failure_disposes_twice failing_shell_env (sample_node "a" CLI "make")
             (initial_context [] []) [] [] "make" "make"
             (JsError "Error" "Command aborted by user")); try reflexivity.
    + vm_compute. discriminate.
    + by split.
  - apply (shell_failure_disposes_twice replacing_failing_shell_env approval_node
             (initial_context [] []) []
             [ PostMessage (node_execution_status "a" pending_approval (Some "echo hi"));
               AskApproval "a" ]
             "echo hi" "make all" (JsError "Error" "exit code 2")); try reflexivity.
    + vm_compute. discriminate.
    + split; [reflexivity|]. by exists (Some "make all").
Defined.

Lemma approval_rejection_ends_the_run_witness :
  dispatch rejecting_env approval_node (initial_context [] []) [] =
    ([ PostMessage (node_execution_status "a" pending_approval (Some "echo hi"));
       AskApproval "a";
       ShellDispose;
       ShowErrorMessage "CLI Node Error: Workflow aborted";
       PostMessage (node_execution_status "a" interrupted (Some "Workflow aborted"));
       PostMessage execution_completed ],
     Returned None).
Proof.
  apply (approval_rejection_ends_the_run rejecting_env approval_node (initial_context [] []) []
           "echo hi" (JsError "Error" "Workflow aborted")); try reflexivity.
  vm_compute. discriminate.
Defined.

(** ** The LLM executor, case by case *)

Lemma executeLLMNode_unfold (env : Collaborators) (node : WorkflowNodes) (tr : list Effect) :
  executeLLMNode env node tr =
    if truthy (content (data node))
    then
      let prompt := default "" (content (data node)) in
      let tr1 := tr ++ [chat_request node prompt] in
      match chat_settles env tr1 prompt with
      | inr text => (tr1, Returned text)
      | inl e => (tr1, Threw (llm_error e))
      end
    else (tr, Threw (no_prompt_error node)).
Proof.
  unfold executeLLMNode. destruct (truthy (content (data node))); [|done].
  cbn [negb]. cbn zeta.
  unfold try_catch, mbind, Exec_bind, emit, await, throw, chat_settles.
  fold (chat_request node (default "" (content (data node)))).
  destruct (chat env _ _) as [e|events].
  - destruct e as [name message|text]; [|done]. cbn [llm_error].
    by destruct (String.eqb name "AbortError").
  - destruct (read_stream events []) as [e|text]; [|done].
    destruct e as [name message|text]; [|done]. cbn [llm_error].
    by destruct (String.eqb name "AbortError").
Qed.

(** X15. Whatever makes the LLM executor fail, it throws a new [Error] with
    one of four messages: without a prompt, before any request is sent, the
    message that names the node; after the one request, [Workflow execution
    aborted] for an [AbortError], [Failed to execute LLM node: ] followed by
    the message for any other error, and [Unknown error in LLM node
    execution] for a rejection that is no error. *)
Theorem executeLLMNode_errors (env : Collaborators) (node : WorkflowNodes)
    (tr tr' : list Effect) (e : JsValue) :
  executeLLMNode env node tr = (tr', Threw e) →
  (truthy (content (data node)) = false ∧ tr' = tr ∧ e = no_prompt_error node)
  ∨ (truthy (content (data node)) = true
     ∧ tr' = tr ++ [chat_request node (default "" (content (data node)))]
     ∧ ∃ rejection,
         chat_settles env tr' (default "" (content (data node))) = inl rejection
         ∧ e = llm_error rejection
         ∧ (e = new_Error "Workflow execution aborted"
            ∨ e = new_Error ("Failed to execute LLM node: " +:+ error_message rejection)
            ∨ e = new_Error "Unknown error in LLM node execution")).
Proof.
  rewrite executeLLMNode_unfold. destruct (truthy (content (data node))).
  - cbn zeta. intros Hrun. right. split; [done|].
    destruct (chat_settles env _ _) as [rejection|text] eqn:Hs; [|done].
    injection Hrun as <- <-. split; [done|]. exists rejection. split; [done|]. split; [done|].
    destruct rejection as [name message|text]; cbn [llm_error error_message].
    + destruct (String.eqb name "AbortError"); auto.
    + auto.
  - intros [= <- <-]. by left.
Qed.

Lemma append_nil_r (s : string) : s +:+ "" = s.
Proof. induction s as [|c s IH]; [done|]. by rewrite append_cons, IH. Qed.

Lemma join_empty_cons (p : string) (ps : list string) : join "" (p :: ps) = p +:+ join "" ps.
Proof. destruct ps; cbn [join]; [by rewrite append_nil_r|by rewrite append_nil_l]. Qed.

Lemma join_empty_snoc (ps : list string) (p : string) : join "" (ps ++ [p]) = join "" ps +:+ p.
Proof.
  induction ps as [|q ps IH].
  - cbn [app join]. by rewrite append_nil_l.
  - change ((q :: ps) ++ [p]) with (q :: (ps ++ [p])).
    by rewrite !join_empty_cons, IH, append_assoc.
Qed.

Lemma read_stream_resolved (events : list StreamEvent) :
  ∀ responseBuilder text,
    read_stream events responseBuilder = inr text →
    text = join "" responseBuilder
    ∨ ∃ body last,
        yields (change last) ∈ events ∧ text = body +:+ last
        ∧ (strlen body ≤ response_limit)%Z.
Proof.
  induction events as [|ev events IH]; intros responseBuilder text Hr; [done|].
  destruct ev as [[chunk| |e|]|e|]; cbn [read_stream] in Hr; try done.
  - destruct (strlen (join "" responseBuilder) >? response_limit)%Z eqn:Hsize; [done|].
    right. apply IH in Hr as [->|(body & last & Hin & -> & Hle)].
    + exists (join "" responseBuilder), chunk. split; [left|]. split; [apply join_empty_snoc|].
      lia.
    + exists body, last. split; [by right|done].
  - injection Hr as <-. by left.
  - apply IH in Hr as [->|(body & last & Hin & -> & Hle)]; [by left|].
    right. exists body, last. split; [by right|done].
Qed.

(** X16. What the size ceiling of the LLM executor does guarantee: a
    resolved response comes from a stream that yielded [complete], and it is
    empty or ends with one chunk of the stream in front of which stand at
    most 1,000,000 characters. *)
Theorem resolved_response_exceeds_by_one_chunk (env : Collaborators) (node : WorkflowNodes)
    (tr tr' : list Effect) (text : string) :
  executeLLMNode env node tr = (tr', Returned text) →
  ∃ events,
    chat env tr' (default "" (content (data node))) = chat_streams events
    ∧ yields complete ∈ events
    ∧ (text = ""
       ∨ ∃ body last,
           yields (change last) ∈ events ∧ text = body +:+ last
           ∧ (strlen body ≤ response_limit)%Z).
Proof.
  rewrite executeLLMNode_unfold. destruct (truthy (content (data node))); [|done].
  cbn zeta. unfold chat_settles.
  destruct (chat env _ _) as [e|events] eqn:Hchat; [done|].
  destruct (read_stream events []) as [e|text'] eqn:Hread; [done|].
  intros [= <- <-]. exists events. split; [done|]. split.
  - clear Hchat. revert Hread. generalize (@nil string).
    induction events as [|ev events IH]; intros b Hr; [done|].
    destruct ev as [[chunk| |e|]|e|]; cbn [read_stream] in Hr; try done.
    + destruct (strlen (join "" b) >? response_limit)%Z; [done|]. right. by eapply IH.
    + left.
    + right. by eapply IH.
  - by apply read_stream_resolved in Hread.
Qed.

(** X17. An LLM node whose prompt is empty once the parent outputs are
    substituted (a prompt of placeholders that all resolve to nothing, for
    one) fails with [No prompt specified ...] before any request is sent. *)
Theorem llm_empty_prompt_sends_no_request (env : Collaborators) (node : WorkflowNodes)
    (context : IndexedExecutionContext) (tr : list Effect) :
  type node = LLM →
  render node (sanitizeForPrompt <$> combineParentOutputsByConnectionOrder (id node) context)
    = "" →
  dispatch env node context tr = (tr, Threw (no_prompt_error node)).
Proof.
  intros Ht Hrender. unfold dispatch. rewrite Ht. unfold mbind, Exec_bind.
  rewrite executeLLMNode_unfold, Hrender. done.
Qed.

(** ** The preview and input executors *)

Lemma trimStart_clean (s : string) : starts_clean s → trimStart s = s.
Proof. destruct s as [|c s]; [done|]. cbn. by intros ->. Qed.

Lemma trimEnd_clean (s : string) : ends_clean s → trimEnd s = s.
Proof.
  induction s as [|c s IH]; [done|]. destruct s as [|d s].
  - cbn. by intros ->.
  - intros Hclean. change (ends_clean (String d s)) in Hclean.
    cbn [trimEnd] in *. by rewrite (IH Hclean).
Qed.

Lemma trim_clean (s : string) : starts_clean s → ends_clean s → trim s = s.
Proof. intros Hs He. unfold trim. rewrite (trimStart_clean s Hs). by apply trimEnd_clean. Qed.

Lemma trim_idempotent (s : string) : trim (trim s) = trim s.
Proof.
  destruct (trim_spec s) as (pre & post & _ & _ & _ & Hs & He). by apply trim_clean.
Qed.

(** X18. A preview node ignores its own content: its result is the parent
    outputs joined by line feeds and trimmed, the one event it posts is the
    token count of that text, and the result neither begins nor ends with
    white space; without a parent it is empty, and with one parent it is what
    the combiner made of that parent output. *)
Theorem preview_shows_the_trimmed_inputs (env : Collaborators) (node : WorkflowNodes)
    (context : IndexedExecutionContext) (tr : list Effect) :
  type node = PREVIEW →
  ∃ text,
    dispatch env node context tr
      = (tr ++ [PostMessage (token_count (id node) (encode_length env text))],
         Returned (Some text))
    ∧ text = trim (join LF (combineParentOutputsByConnectionOrder (id node) context))
    ∧ starts_clean text ∧ ends_clean text
    ∧ (byTarget (edgeIndex context) !! id node = None → text = "")
    ∧ (∀ edge, byTarget (edgeIndex context) !! id node = Some [edge] →
         text = parent_output (nodeOutputs context) edge).
Proof.
  intros Ht. eexists. split; [|split; [reflexivity|]].
  - unfold dispatch. rewrite Ht. reflexivity.
  - destruct (trim_spec (join LF (combineParentOutputsByConnectionOrder (id node) context)))
      as (pre & post & _ & _ & _ & Hs & He).
    split; [done|]. split; [done|]. unfold combineParentOutputsByConnectionOrder. split.
    + by intros ->.
    + intros edge ->. change (default [] (Some [edge])) with [edge].
      cbn [fmap list_fmap join]. unfold parent_output.
      destruct (nodeOutputs context !! source edge); [apply trim_idempotent|done].
Qed.

(** ** The search executor *)

Lemma find_splits_at_first {A} (f : A → bool) (l : list A) (x : A) :
  List.find f l = Some x →
  ∃ pre post, l = pre ++ x :: post ∧ Forall (λ y, f y = false) pre ∧ f x = true.
Proof.
  induction l as [|y l IH]; [done|]. cbn [List.find]. destruct (f y) eqn:Hy.
  - intros [= ->]. by exists [], l.
  - intros (pre & post & -> & Hpre & Hx)%IH. exists (y :: pre), post.
    split; [done|]. split; [by constructor|done].
Qed.

Lemma find_none_of {A} (f : A → bool) (l : list A) :
  Forall (λ y, f y = false) l → List.find f l = None.
Proof. induction 1 as [|y l Hy _ IH]; [done|]. cbn [List.find]. by rewrite Hy. Qed.

(** X19. The search executor returns the empty text without asking the
    retriever while the corpus is pending or holds no [tree] or [repository]
    item; when it asks, it asks once, with the text of the node, for the
    first such item of the corpus, and it returns the entries joined by blank
    lines or lets the rejection of the retriever through. *)
Theorem search_asks_for_the_first_repository (env : Collaborators) (input : string)
    (tr : list Effect) :
  (corpusContextItems env tr = pendingOperation
   ∨ (∃ items, corpusContextItems env tr = corpus items
               ∧ Forall (λ i, is_repo i = false) items) →
   executeSearchContextNode env input tr = (tr, Returned ""))
  ∧ (∀ new r name query,
       executeSearchContextNode env input tr = (tr ++ new, r) →
       RetrieveContext name query ∈ new →
       new = [RetrieveContext name input]
       ∧ query = input
       ∧ ∃ pre repo post,
           corpusContextItems env tr = corpus (pre ++ repo :: post)
           ∧ Forall (λ i, is_repo i = false) pre
           ∧ is_repo repo = true
           ∧ item_name repo = name
           ∧ match retrieveContext env (tr ++ new) repo input with
             | inl e => r = Threw e
             | inr context => r = Returned (join (LF +:+ LF) (context_entry <$> context))
             end).
Proof.
  unfold executeSearchContextNode, mbind, Exec_bind, observe, emit, await, mret, Exec_ret.
  split.
  - intros [->|(items & -> & Hnone)]; [done|]. by rewrite find_none_of.
  - intros new r name query Hrun Hin.
    destruct (corpusContextItems env tr) as [|items] eqn:Hitems.
    { injection Hrun as ->%app_self_nil _. set_solver. }
    destruct (List.find is_repo items) as [repo|] eqn:Hfind.
    2: { injection Hrun as ->%app_self_nil _. set_solver. }
    apply find_splits_at_first in Hfind as (pre & post & -> & Hpre & Hrepo).
    assert (new = [RetrieveContext (item_name repo) input]) as ->.
    { destruct (retrieveContext env _ repo input); by injection Hrun as ->%app_inv_head _. }
    apply list_elem_of_singleton in Hin. injection Hin as -> ->.
    split; [done|]. split; [done|]. exists pre, repo, post.
    split; [done|]. split; [done|]. split; [done|]. split; [done|].
    destruct (retrieveContext env _ repo input); by injection Hrun as <-.
Qed.

Example search_sample :
  executeSearchContextNode corpus_env "query" []
  = ([RetrieveContext "workspace" "query"],
     Returned ("/src/a.ts" +:+ LF +:+ "let a = 1" +:+ LF +:+ LF +:+ "/src/b.ts" +:+ LF)).
Proof. by_computation. Qed.

(** ** What the combiner hands on *)

(** X20. The combiner returns one text per incoming edge of the index, each
    neither beginning nor ending with white space; a recorded output that is
    trimmed already and has no carriage return is handed on unchanged. *)
Theorem parent_outputs_are_trimmed (nodeId : string) (context : IndexedExecutionContext) :
  Forall (λ output, starts_clean output ∧ ends_clean output)
    (combineParentOutputsByConnectionOrder nodeId context)
  ∧ List.length (combineParentOutputsByConnectionOrder nodeId context)
    = List.length (default [] (byTarget (edgeIndex context) !! nodeId))
  ∧ (∀ index edge output,
       default [] (byTarget (edgeIndex context) !! nodeId) !! index = Some edge →
       nodeOutputs context !! source edge = Some output →
       starts_clean output → ends_clean output → has_char "013" output = false →
       combineParentOutputsByConnectionOrder nodeId context !! index = Some output).
Proof.
  unfold combineParentOutputsByConnectionOrder. split; [|split].
  - apply Forall_fmap, Forall_forall. intros edge _. cbn.
    destruct (nodeOutputs context !! source edge) as [output|]; [|done].
    by destruct (trim_spec (replace_crlf output)) as (pre & post & _ & _ & _ & Hs & He).
  - apply length_fmap.
  - intros index edge output Hedge Hout Hs He Hcr.
    rewrite list_lookup_fmap, Hedge. cbn. rewrite Hout. f_equal.
    assert (replace_crlf output = output) as ->; [|by apply trim_clean].
    clear -Hcr. induction output as [|c s IH]; [done|].
    cbn [has_char] in Hcr. apply orb_false_iff in Hcr as [Hc Hrest].
    cbn [replace_crlf]. destruct s as [|d s]; [done|].
    rewrite Ascii.eqb_sym, Hc. cbn [andb]. by rewrite (IH Hrest).
Qed.

Lemma executeLLMNode_errors_witness :
  (truthy (content (data (sample_node "a" LLM "hi"))) = false
   ∧ [chat_request (sample_node "a" LLM "hi") "hi"] = []
   ∧ new_Error "Workflow execution aborted" = no_prompt_error (sample_node "a" LLM "hi"))
  ∨ (truthy (content (data (sample_node "a" LLM "hi"))) = true
     ∧ [chat_request (sample_node "a" LLM "hi") "hi"]
       = [] ++ [chat_request (sample_node "a" LLM "hi")
                  (default "" (content (data (sample_node "a" LLM "hi"))))]
     ∧ ∃ rejection,
         chat_settles aborted_chat_env [chat_request (sample_node "a" LLM "hi") "hi"]
           (default "" (content (data (sample_node "a" LLM "hi")))) = inl rejection
         ∧ new_Error "Workflow execution aborted" = llm_error rejection
         ∧ (new_Error "Workflow execution aborted" = new_Error "Workflow execution aborted"
            ∨ new_Error "Workflow execution aborted"
              = new_Error ("Failed to execute LLM node: " +:+ error_message rejection)
            ∨ new_Error "Workflow execution aborted"
              = new_Error "Unknown error in LLM node execution")).
Proof.
  apply (executeLLMNode_errors aborted_chat_env (sample_node "a" LLM "hi") []). reflexivity.
Defined.

Lemma resolved_response_exceeds_by_one_chunk_witness :
  ∃ events,
    chat oversized_chat_env [chat_request (sample_node "a" LLM "hi") "hi"]
      (default "" (content (data (sample_node "a" LLM "hi")))) = chat_streams events
    ∧ yields complete ∈ events
    ∧ (oversized_text = ""
       ∨ ∃ body last,
           yields (change last) ∈ events ∧ oversized_text = body +:+ last
           ∧ (strlen body ≤ response_limit)%Z).
Proof.
  apply (resolved_response_exceeds_by_one_chunk oversized_chat_env (sample_node "a" LLM "hi") []).
  reflexivity.
Defined.

Lemma llm_empty_prompt_sends_no_request_witness :
  dispatch sample_env placeholder_only_node (initial_context [placeholder_only_node] []) []
  = ([], Threw (new_Error "No prompt specified for LLM node a with a")).
Proof.
  apply (llm_empty_prompt_sends_no_request sample_env placeholder_only_node
           (initial_context [placeholder_only_node] []) []); reflexivity.
Defined.

Lemma preview_shows_the_trimmed_inputs_witness :
  ∃ text,
    dispatch sample_env (sample_node "p" PREVIEW "ignored")
      {| nodeOutputs := {[ "i" := "  abc " +:+ CRLF ]};
         nodeIndex := ∅;
         edgeIndex := createEdgeIndex [mkEdge "e" "i" "p"] |} []
      = ([] ++ [PostMessage (token_count "p" (String.length text))], Returned (Some text))
    ∧ text = "abc".
Proof.
  destruct (preview_shows_the_trimmed_inputs sample_env (sample_node "p" PREVIEW "ignored")
              {| nodeOutputs := {[ "i" := "  abc " +:+ CRLF ]};
                 nodeIndex := ∅;
                 edgeIndex := createEdgeIndex [mkEdge "e" "i" "p"] |} [] eq_refl)
    as (text & Hrun & Htext & _).
  exists text. split; [exact Hrun|]. rewrite Htext. vm_compute. reflexivity.
Defined.

(** ** The shape of a turn of the loop *)

Lemma executeCLINode_node_effect (env : Collaborators) (node : WorkflowNodes) :
  emits (node_effect (id node)) (executeCLINode env node).
Proof.
  unfold executeCLINode.
  emits_auto; unfold node_effect, concerns, executor_effect; cbn; naive_solver.
Qed.

Lemma executeLLMNode_node_effect (env : Collaborators) (node : WorkflowNodes) :
  emits (node_effect (id node)) (executeLLMNode env node).
Proof.
  unfold executeLLMNode.
  emits_auto; unfold node_effect, concerns, executor_effect; cbn; naive_solver.
Qed.

Lemma executePreviewNode_node_effect (env : Collaborators) (input nodeId : string) :
  emits (node_effect nodeId) (executePreviewNode env input nodeId).
Proof.
  unfold executePreviewNode.
  emits_auto; unfold node_effect, concerns, executor_effect; cbn; naive_solver.
Qed.

Lemma executeSearchContextNode_node_effect (env : Collaborators) (input i : string) :
  emits (node_effect i) (executeSearchContextNode env input).
Proof.
  unfold executeSearchContextNode.
  emits_auto; unfold node_effect, concerns, executor_effect; cbn; naive_solver.
Qed.

Lemma bind_Returned {A B} (m : Exec A) (f : A → Exec B) tr tr' a :
  m tr = (tr', Returned a) → (m ≫= f) tr = f a tr'.
Proof. intros Hm. unfold mbind, Exec_bind. by rewrite Hm. Qed.

Lemma bind_Threw {A B} (m : Exec A) (f : A → Exec B) tr tr' e :
  m tr = (tr', Threw e) → (m ≫= f) tr = (tr', Threw e).
Proof. intros Hm. unfold mbind, Exec_bind. by rewrite Hm. Qed.

(** A dispatch appends what the executor did and, on the early return, the
    failure tail of the CLI case. *)
Lemma dispatch_shape (env : Collaborators) (node : WorkflowNodes)
    (context : IndexedExecutionContext) tr tr' r :
  dispatch env node context tr = (tr', r) →
  ∃ mid, Forall (node_effect (id node)) mid
    ∧ match r with
      | Returned None => ∃ e, tr' = tr ++ mid ++ cli_failure_tail node e
      | _ => tr' = tr ++ mid
      end.
Proof.
  assert (∀ (m : Exec string),
            emits (node_effect (id node)) m →
            (m ≫= λ result, mret (Some result)) tr = (tr', r) →
            ∃ mid, Forall (node_effect (id node)) mid
              ∧ match r with
                | Returned None => ∃ e, tr' = tr ++ mid ++ cli_failure_tail node e
                | _ => tr' = tr ++ mid
                end) as Hplain.
  { intros m Hm Hrun. destruct (m tr) as [tr1 [a|x]] eqn:Hmtr.
    - rewrite (bind_Returned _ _ _ _ _ Hmtr) in Hrun. injection Hrun as <- <-.
      destruct (emits_run _ _ _ _ _ Hm Hmtr) as (mid & -> & HP). by exists mid.
    - rewrite (bind_Threw _ _ _ _ _ Hmtr) in Hrun. injection Hrun as <- <-.
      destruct (emits_run _ _ _ _ _ Hm Hmtr) as (mid & -> & HP). by exists mid. }
  destruct (type node) eqn:Ht.
  - destruct (executeCLINode env (cli_node_to_run node context) tr) as [tr1 [a|x]] eqn:Hcli.
    + intros Hrun. apply (Hplain (executeCLINode env (cli_node_to_run node context))).
      * apply (executeCLINode_node_effect env (cli_node_to_run node context)).
      * rewrite <- Hrun. unfold dispatch. rewrite Ht. unfold try_catch.
        fold (cli_node_to_run node context).
        rewrite !(bind_Returned _ _ _ _ _ Hcli). done.
    + rewrite (dispatch_cli_throws _ _ _ _ _ _ Ht Hcli). intros [= <- <-].
      destruct (emits_run _ _ _ _ _
                  (executeCLINode_node_effect env (cli_node_to_run node context)) Hcli)
        as (mid & -> & HP).
      exists mid. split; [done|]. exists x. by rewrite <- app_assoc.
  - unfold dispatch. rewrite Ht. apply Hplain.
    apply (executeLLMNode_node_effect env (llm_node_to_run node context)).
  - unfold dispatch. rewrite Ht. apply Hplain. apply executePreviewNode_node_effect.
  - unfold dispatch. rewrite Ht. apply Hplain. apply executeInputNode_emits.
  - unfold dispatch. rewrite Ht. apply Hplain. apply executeSearchContextNode_node_effect.
  - unfold dispatch. rewrite Ht. intros [= <- <-]. exists [ShellDispose].
    split; [|done].
    constructor; [|done]. unfold node_effect, concerns, executor_effect. cbn. naive_solver.
Qed.

Lemma execute_node_shape (env : Collaborators) (inactive : gset string)
    (node : WorkflowNodes) (context : IndexedExecutionContext) tr tr' r :
  execute_node env inactive node context tr = (tr', r) →
  (id node ∈ inactive ∧ tr' = tr ∧ r = Returned (Next context))
  ∨ ((id node ∉ inactive)
     ∧ ∃ mid, Forall (node_effect (id node)) mid
         ∧ ((∃ result,
               tr' = tr ++ running_event node :: mid ++ [completed_event node result]
               ∧ r = Returned (Next (set_output context (id node) result)))
            ∨ (∃ e, tr' = tr ++ running_event node :: mid ++ cli_failure_tail node e
                    ∧ r = Returned Return)
            ∨ (∃ e, tr' = tr ++ running_event node :: mid ∧ r = Threw e))).
Proof.
  unfold execute_node. case_decide as Hin.
  - intros [= <- <-]. by left.
  - intros Hrun. right. split; [done|].
    unfold mbind, Exec_bind, postMessage, emit, mret, Exec_ret in Hrun.
    fold (running_event node) in Hrun.
    destruct (dispatch env node context _) as [tr1 [[result|]|x]] eqn:Hd;
      injection Hrun as <- <-;
      destruct (dispatch_shape _ _ _ _ _ _ Hd) as (mid & HP & Hshape); exists mid;
      (split; [done|]).
    + left. exists result. subst tr1. by rewrite <- !app_assoc.
    + right. left. destruct Hshape as [e ->]. exists e. by rewrite <- !app_assoc.
    + right. right. exists x. subst tr1. by rewrite <- !app_assoc.
Qed.

Lemma node_effect_inner (i : string) (e : Effect) : node_effect i e → inner_effect e.
Proof. by intros (_ & ? & ? & _). Qed.

Lemma running_event_inner (node : WorkflowNodes) : inner_effect (running_event node).
Proof. by split. Qed.

Lemma completed_event_inner (node : WorkflowNodes) (result : string) :
  inner_effect (completed_event node result).
Proof. by split. Qed.

(** The loop appends inner effects and, when it ends in the early return,
    the failure tail of a CLI node. *)
Lemma run_nodes_shape (env : Collaborators) (inactive : gset string)
    (sortedNodes : list WorkflowNodes) :
  ∀ context tr tr' r,
    run_nodes env inactive sortedNodes context tr = (tr', r) →
    ∃ mid, Forall inner_effect mid
      ∧ match r with
        | Returned Return => ∃ node e, tr' = tr ++ mid ++ cli_failure_tail node e
        | _ => tr' = tr ++ mid
        end.
Proof.
  induction sortedNodes as [|node rest IH]; intros context tr tr' r.
  - intros [= <- <-]. exists []. by rewrite app_nil_r.
  - cbn [run_nodes].
    destruct (execute_node env inactive node context tr) as [tr1 r1] eqn:Hn.
    assert (∀ mid, Forall (node_effect (id node)) mid → Forall inner_effect mid) as Hinner.
    { intros mid Hmid. eapply Forall_impl; [exact Hmid|]. intros e. apply node_effect_inner. }
    destruct (execute_node_shape _ _ _ _ _ _ _ Hn)
      as [(_ & -> & ->)|(_ & mid & HP%Hinner & [(result & -> & ->)|[(e & -> & ->)|(e & -> & ->)]])].
    + rewrite (bind_Returned _ _ _ _ _ Hn). apply IH.
    + rewrite (bind_Returned _ _ _ _ _ Hn). intros Hrest.
      destruct (IH _ _ _ _ Hrest) as (mid2 & HP2 & Hshape).
      exists ((running_event node :: mid ++ [completed_event node result]) ++ mid2). split.
      * apply Forall_app. split; [|done]. constructor; [apply running_event_inner|].
        apply Forall_app. split; [done|]. constructor; [apply completed_event_inner|done].
      * destruct r as [[c|]|x].
        -- rewrite Hshape. by rewrite <- !app_assoc.
        -- destruct Hshape as (n & e & ->). exists n, e. by rewrite <- !app_assoc.
        -- rewrite Hshape. by rewrite <- !app_assoc.
    + rewrite (bind_Returned _ _ _ _ _ Hn). intros [= <- <-].
      exists (running_event node :: mid). split.
      * constructor; [apply running_event_inner|done].
      * by exists node, e.
    + rewrite (bind_Threw _ _ _ _ _ Hn). intros [= <- <-].
      exists (running_event node :: mid). split; [|done].
      constructor; [apply running_event_inner|done].
Qed.

Lemma run_sorted_unfold (env : Collaborators) (inactive : gset string)
    (sortedNodes : list WorkflowNodes) (context : IndexedExecutionContext) :
  run_sorted env inactive sortedNodes context [] =
    match run_nodes env inactive sortedNodes context [PostMessage execution_started] with
    | (tr, Returned (Next _)) =>
        (tr ++ [ShellDispose; PostMessage execution_completed], Returned tt)
    | (tr, Returned Return) => (tr, Returned tt)
    | (tr, Threw e) => (tr, Threw e)
    end.
Proof.
  unfold run_sorted, mbind, Exec_bind, postMessage, emit. cbn [app].
  destruct (run_nodes env inactive sortedNodes context _) as [tr [[c|]|x]]; try done.
  by rewrite <- app_assoc.
Qed.

Lemma inner_effect_not_in (l : list Effect) :
  Forall inner_effect l →
  (PostMessage execution_started ∉ l) ∧ (PostMessage execution_completed ∉ l).
Proof.
  intros HP. split; intros Hin; by destruct (proj1 (Forall_forall _ _) HP _ Hin) as [[_ ?] ?].
Qed.

Lemma inner_effects_report_no_failure (l : list Effect) :
  Forall inner_effect l → filter (λ ev, is_failure_report ev = true) l = [].
Proof.
  intros HP. apply no_failure_reports. eapply Forall_impl; [exact HP|]. by intros e [? _].
Qed.

(** X21. The events of every run: [execution_started] comes first and only
    once.  A run that returns ends with the only [execution_completed], has
    disposed the shell, and reports at most one failure, then as the last
    event before [execution_completed].  A run that throws posts no
    [execution_completed] and reports no failure. *)
Theorem executeWorkflow_lifecycle (env : Collaborators) (nodes : list WorkflowNodes)
    (edges : list Edge) (tr : list Effect) (r : Outcome unit) :
  executeWorkflow env nodes edges [] = (tr, r) →
  ∃ body,
    (PostMessage execution_started ∉ body)
    ∧ (PostMessage execution_completed ∉ body)
    ∧ match r with
      | Returned _ =>
          tr = PostMessage execution_started :: body ++ [PostMessage execution_completed]
          ∧ ShellDispose ∈ body
          ∧ (filter (λ ev, is_failure_report ev = true) body = []
             ∨ ∃ pre ev, body = pre ++ [ev] ∧ is_failure_report ev = true
                         ∧ filter (λ ev, is_failure_report ev = true) pre = [])
      | Threw _ =>
          tr = PostMessage execution_started :: body
          ∧ filter (λ ev, is_failure_report ev = true) body = []
      end.
Proof.
  unfold executeWorkflow.
  destruct (topologicalSort_total nodes edges) as [sortedNodes ->].
  rewrite run_sorted_unfold.
  destruct (run_nodes env _ sortedNodes _ _) as [tr1 r1] eqn:Hrun.
  destruct (run_nodes_shape _ _ _ _ _ _ _ Hrun) as (mid & HP & Hshape).
  destruct (inner_effect_not_in mid HP) as [Hs Hc].
  pose proof (inner_effects_report_no_failure mid HP) as Hquiet.
  destruct r1 as [[c|]|x]; intros [= <- <-].
  - subst tr1. exists (mid ++ [ShellDispose]). rewrite <- !app_assoc. cbn [app].
    split; [set_solver|]. split; [set_solver|]. split; [done|]. split; [set_solver|].
    left. by rewrite filter_app, Hquiet.
  - destruct Hshape as (node & e & ->).
    exists (mid ++ [ShellDispose; ShowErrorMessage ("CLI Node Error: " +:+ error_message e);
                    failure_report node e]).
    unfold cli_failure_tail. rewrite <- !app_assoc. cbn [app].
    split; [set_solver|]. split; [unfold failure_report; set_solver|].
    split; [done|]. split; [set_solver|]. right.
    exists (mid ++ [ShellDispose; ShowErrorMessage ("CLI Node Error: " +:+ error_message e)]),
      (failure_report node e).
    split; [by rewrite <- app_assoc|]. split.
    + unfold failure_report. cbn. by destruct (includes _ _).
    + by rewrite filter_app, Hquiet.
  - subst tr1. by exists mid.
Qed.

(** ** Node events follow the running event *)

Lemma announced_block (tr : list Effect) (node : WorkflowNodes) (rest : list Effect) :
  announced tr →
  Forall (concerns (id node)) rest →
  announced (tr ++ running_event node :: rest).
Proof.
  intros Htr Hrest i ev j Hi Hj.
  destruct (decide (i < List.length tr)%nat) as [Hlt|Hge].
  - rewrite lookup_app_l in Hi by done.
    destruct (Htr i ev j Hi Hj) as (k & Hk & Hlk). exists k. split; [done|].
    rewrite lookup_app_l; [done|]. by eapply lookup_lt_Some.
  - exists (List.length tr). split; [lia|].
    assert (j = id node) as ->.
    { rewrite lookup_app_r in Hi by lia.
      destruct (i - List.length tr)%nat as [|n] eqn:Hn; cbn in Hi.
      - injection Hi as <-. cbn in Hj. congruence.
      - apply list_elem_of_lookup_2 in Hi.
        by apply (proj1 (Forall_forall _ _) Hrest ev Hi). }
    rewrite lookup_app_r by lia. by rewrite Nat.sub_diag.
Qed.

Lemma announced_silent (tr new : list Effect) :
  announced tr →
  Forall (λ e, event_node e = None) new →
  announced (tr ++ new).
Proof.
  intros Htr Hnew i ev j Hi Hj.
  destruct (decide (i < List.length tr)%nat) as [Hlt|Hge].
  - rewrite lookup_app_l in Hi by done.
    destruct (Htr i ev j Hi Hj) as (k & Hk & Hlk). exists k. split; [done|].
    rewrite lookup_app_l; [done|]. by eapply lookup_lt_Some.
  - rewrite lookup_app_r in Hi by lia. apply list_elem_of_lookup_2 in Hi.
    pose proof (proj1 (Forall_forall _ _) Hnew ev Hi). congruence.
Qed.

Lemma node_effect_concerns (i : string) (l : list Effect) :
  Forall (node_effect i) l → Forall (concerns i) l.
Proof. intros Hl. eapply Forall_impl; [exact Hl|]. by intros e [? _]. Qed.

Lemma cli_failure_tail_concerns (node : WorkflowNodes) (e : JsValue) :
  Forall (concerns (id node)) (cli_failure_tail node e).
Proof.
  unfold cli_failure_tail, failure_report, concerns.
  repeat constructor; cbn; naive_solver.
Qed.

Lemma run_nodes_announced (env : Collaborators) (inactive : gset string)
    (sortedNodes : list WorkflowNodes) :
  ∀ context tr tr' r,
    run_nodes env inactive sortedNodes context tr = (tr', r) →
    announced tr → announced tr'.
Proof.
  induction sortedNodes as [|node rest IH]; intros context tr tr' r.
  - by intros [= <- <-].
  - cbn [run_nodes]. intros Hrun Htr.
    destruct (execute_node env inactive node context tr) as [tr1 r1] eqn:Hn.
    destruct (execute_node_shape _ _ _ _ _ _ _ Hn)
      as [(_ & -> & ->)
         |(_ & mid & HP%node_effect_concerns
             & [(result & -> & ->)|[(e & -> & ->)|(e & -> & ->)]])].
    + rewrite (bind_Returned _ _ _ _ _ Hn) in Hrun. by eapply IH.
    + rewrite (bind_Returned _ _ _ _ _ Hn) in Hrun. eapply IH; [exact Hrun|].
      apply announced_block; [done|]. apply Forall_app. split; [done|].
      constructor; [|done]. unfold concerns, completed_event. cbn. naive_solver.
    + rewrite (bind_Returned _ _ _ _ _ Hn) in Hrun. injection Hrun as <- <-.
      apply announced_block; [done|]. apply Forall_app. split; [done|].
      apply cli_failure_tail_concerns.
    + rewrite (bind_Threw _ _ _ _ _ Hn) in Hrun. injection Hrun as <- <-.
      by apply announced_block.
Qed.

(** X22. In the trace of every run, each event that names a node (a status,
    a token count, an approval request) stands at or behind a [running]
    status of that node. *)
Theorem node_events_follow_running (env : Collaborators) (nodes : list WorkflowNodes)
    (edges : list Edge) :
  announced (executeWorkflow env nodes edges []).1.
Proof.
  unfold executeWorkflow.
  destruct (topologicalSort_total nodes edges) as [sortedNodes ->].
  rewrite run_sorted_unfold.
  destruct (run_nodes env _ sortedNodes _ _) as [tr1 r1] eqn:Hrun.
  assert (announced tr1) as Htr1.
  { eapply run_nodes_announced; [exact Hrun|].
    apply (announced_silent []); [|by repeat constructor]. by intros i ev j Hi. }
  destruct r1 as [[c|]|x]; cbn [fst]; [|done..].
  apply announced_silent; [done|]. by repeat constructor.
Qed.

(** ** Results reported and results recorded *)

Lemma run_nodes_grows (env : Collaborators) (inactive : gset string)
    (sortedNodes : list WorkflowNodes) context tr tr' r ev :
  run_nodes env inactive sortedNodes context tr = (tr', r) → ev ∈ tr → ev ∈ tr'.
Proof.
  intros Hrun Hev.
  destruct (emits_run _ _ _ _ _ (run_nodes_emits env inactive sortedNodes context) Hrun)
    as (new & -> & _).
  set_solver.
Qed.

Lemma run_nodes_records (env : Collaborators) (inactive : gset string)
    (sortedNodes : list WorkflowNodes) :
  ∀ context tr tr' context',
    NoDup (id <$> sortedNodes) →
    run_nodes env inactive sortedNodes context tr = (tr', Returned (Next context')) →
    edgeIndex context' = edgeIndex context
    ∧ nodeIndex context' = nodeIndex context
    ∧ (∀ j, j ∉ id <$> filter (λ n, id n ∉ inactive) sortedNodes →
            nodeOutputs context' !! j = nodeOutputs context !! j)
    ∧ (∀ n, n ∈ sortedNodes → id n ∉ inactive →
            ∃ result, nodeOutputs context' !! id n = Some result
                      ∧ completed_event n result ∈ tr').
Proof.
  induction sortedNodes as [|node rest IH]; intros context tr tr' context' Hnd.
  - intros [= <- <-]. split; [done|]. split; [done|]. split; [done|].
    intros n Hn. by inversion Hn.
  - cbn [run_nodes]. intros Hrun.
    rewrite fmap_cons in Hnd. apply NoDup_cons in Hnd as [Hfresh Hnd].
    destruct (execute_node env inactive node context tr) as [tr1 r1] eqn:Hn.
    destruct (execute_node_shape _ _ _ _ _ _ _ Hn)
      as [(Hskip & -> & ->)
         |(Hrun1 & mid & _ & [(result & -> & ->)|[(e & -> & ->)|(e & -> & ->)]])].
    + rewrite (bind_Returned _ _ _ _ _ Hn) in Hrun.
      destruct (IH _ _ _ _ Hnd Hrun) as (He & Hi & Hkeep & Hdone).
      split; [done|]. split; [done|]. split.
      * intros j Hj. apply Hkeep. by rewrite filter_cons, decide_False in Hj by auto.
      * intros n [->|Hn']%elem_of_cons Hact; [done|]. by apply Hdone.
    + rewrite (bind_Returned _ _ _ _ _ Hn) in Hrun.
      destruct (IH _ _ _ _ Hnd Hrun) as (He & Hi & Hkeep & Hdone).
      split; [done|]. split; [done|]. split.
      * intros j Hj. rewrite filter_cons, decide_True, fmap_cons in Hj by done.
        apply not_elem_of_cons in Hj as [Hne Hj]. rewrite (Hkeep j Hj).
        cbn. by rewrite lookup_insert_ne.
      * intros n [->|Hn']%elem_of_cons Hact; [|by apply Hdone].
        exists result. split.
        -- rewrite Hkeep.
           ++ cbn. by rewrite lookup_insert_eq.
           ++ intros (m & Hm & [_ Hin]%list_elem_of_filter)%list_elem_of_fmap.
              apply Hfresh. rewrite Hm. by apply list_elem_of_fmap_2.
        -- eapply run_nodes_grows; [exact Hrun|]. set_solver.
    + by rewrite (bind_Returned _ _ _ _ _ Hn) in Hrun.
    + by rewrite (bind_Threw _ _ _ _ _ Hn) in Hrun.
Qed.

(** X23. When the loop over nodes with distinct ids ends normally, the
    output recorded for each node that was not skipped is the result posted
    in a [completed] status of that node; the outputs recorded for all other
    ids, the node index and the edge index are as they were before the
    loop. *)
Theorem reported_results_are_recorded (env : Collaborators) (inactive : gset string)
    (sortedNodes : list WorkflowNodes) (context context' : IndexedExecutionContext)
    (tr tr' : list Effect) :
  NoDup (id <$> sortedNodes) →
  run_nodes env inactive sortedNodes context tr = (tr', Returned (Next context')) →
  edgeIndex context' = edgeIndex context
  ∧ nodeIndex context' = nodeIndex context
  ∧ (∀ j, j ∉ id <$> filter (λ n, id n ∉ inactive) sortedNodes →
          nodeOutputs context' !! j = nodeOutputs context !! j)
  ∧ (∀ n, n ∈ sortedNodes → id n ∉ inactive →
          ∃ result, nodeOutputs context' !! id n = Some result
                    ∧ completed_event n result ∈ tr').
Proof. apply run_nodes_records. Qed.

(** X29. What a node reads: when the loop over the nodes listed before it
    (with distinct ids, from the context a run starts with) has ended
    normally, the combiner returns for the node one input per incoming edge,
    in edge-list order: for an edge whose source ran, the result posted in a
    [completed] status of the source, line ends normalised and trimmed; for
    an edge whose source was skipped or is not among those nodes, the empty
    text. *)
Theorem node_reads_the_reported_results (env : Collaborators) (inactive : gset string)
    (nodes pre : list WorkflowNodes) (edges : list Edge)
    (context1 : IndexedExecutionContext) (tr tr' : list Effect) (nodeId : string) :
  NoDup (id <$> pre) →
  run_nodes env inactive pre (initial_context nodes edges) tr
    = (tr', Returned (Next context1)) →
  Forall2
    (λ edge input,
       (∃ parent result,
          parent ∈ pre ∧ id parent = source edge ∧ (id parent ∉ inactive)
          ∧ completed_event parent result ∈ tr'
          ∧ input = trim (replace_crlf result))
       ∨ ((∀ parent, parent ∈ pre → id parent = source edge → id parent ∈ inactive)
          ∧ input = ""))
    (filter (λ edge, target edge = nodeId) edges)
    (combineParentOutputsByConnectionOrder nodeId context1).
Proof.
  intros Hnd Hrun.
  destruct (run_nodes_records _ _ _ _ _ _ _ Hnd Hrun) as (He & _ & Hkeep & Hdone).
  unfold combineParentOutputsByConnectionOrder. rewrite He. cbn [initial_context edgeIndex].
  rewrite byTarget_spec. apply Forall2_fmap_r, Forall_Forall2_diag, Forall_forall.
  intros edge _.
  destruct (decide (source edge ∈ id <$> filter (λ n, id n ∉ inactive) pre)) as [Hin|Hout].
  - apply list_elem_of_fmap in Hin as (parent & Hid & [Hact Hparent]%list_elem_of_filter).
    destruct (Hdone parent Hparent Hact) as (result & Hresult & Hposted).
    left. exists parent, result. rewrite Hid, Hresult. done.
  - right. rewrite (Hkeep _ Hout). cbn [initial_context nodeOutputs]. rewrite lookup_empty.
    split; [|done]. intros parent Hparent Hid.
    destruct (decide (id parent ∈ inactive)) as [|Hact]; [done|]. destruct Hout.
    rewrite <- Hid. apply list_elem_of_fmap_2, list_elem_of_filter. done.
Qed.

Lemma run_nodes_completes (env : Collaborators) (inactive : gset string)
    (sortedNodes : list WorkflowNodes) :
  ∀ context tr tr' context',
    run_nodes env inactive sortedNodes context tr = (tr', Returned (Next context')) →
    ∀ n, n ∈ sortedNodes → id n ∉ inactive → ∃ result, completed_event n result ∈ tr'.
Proof.
  induction sortedNodes as [|node rest IH]; intros context tr tr' context'.
  - intros _ n Hn. by inversion Hn.
  - cbn [run_nodes]. intros Hrun.
    destruct (execute_node env inactive node context tr) as [tr1 r1] eqn:Hn.
    destruct (execute_node_shape _ _ _ _ _ _ _ Hn)
      as [(Hskip & -> & ->)
         |(Hrun1 & mid & _ & [(result & -> & ->)|[(e & -> & ->)|(e & -> & ->)]])].
    + rewrite (bind_Returned _ _ _ _ _ Hn) in Hrun.
      intros n [->|Hn']%elem_of_cons Hact; [done|]. by eapply IH.
    + rewrite (bind_Returned _ _ _ _ _ Hn) in Hrun.
      intros n [->|Hn']%elem_of_cons Hact; [|by eapply IH].
      exists result. eapply run_nodes_grows; [exact Hrun|]. set_solver.
    + by rewrite (bind_Returned _ _ _ _ _ Hn) in Hrun.
    + by rewrite (bind_Threw _ _ _ _ _ Hn) in Hrun.
Qed.

(** X24. A run that returns and reports no failure has posted a
    [completed] status for every node of the sorted list that is not in the
    skip set. *)
Theorem clean_run_completes_every_active_node (env : Collaborators)
    (nodes : list WorkflowNodes) (edges : list Edge) (sortedNodes : list WorkflowNodes)
    (tr : list Effect) :
  topologicalSort nodes edges = Some sortedNodes →
  executeWorkflow env nodes edges [] = (tr, Returned tt) →
  filter (λ ev, is_failure_report ev = true) tr = [] →
  ∀ n, n ∈ sortedNodes → id n ∉ allInactiveNodes nodes edges →
    ∃ result, PostMessage (node_execution_status (id n) completed (Some result)) ∈ tr.
Proof.
  intros Hsort. unfold executeWorkflow. rewrite Hsort, run_sorted_unfold.
  destruct (run_nodes env _ sortedNodes _ _) as [tr1 r1] eqn:Hrun.
  destruct r1 as [[c|]|x]; [| |done].
  - intros [= <-] _ n Hn Hact.
    destruct (run_nodes_completes _ _ _ _ _ _ _ Hrun n Hn Hact) as [result Hin].
    exists result. unfold completed_event in Hin. set_solver.
  - intros [= <-] Hclean.
    destruct (run_nodes_shape _ _ _ _ _ _ _ Hrun) as (mid & _ & node & e & ->).
    assert (failure_report node e ∈ filter (λ ev, is_failure_report ev = true)
              ([PostMessage execution_started] ++ mid ++ cli_failure_tail node e)) as Hin.
    { apply list_elem_of_filter. split.
      - unfold failure_report. cbn. by destruct (includes _ _).
      - unfold cli_failure_tail. set_solver. }
    rewrite Hclean in Hin. by inversion Hin.
Qed.

Lemma executeWorkflow_lifecycle_witness :
  ∃ body,
    (PostMessage execution_started ∉ body)
    ∧ (PostMessage execution_completed ∉ body)
    ∧ [ PostMessage execution_started;
        PostMessage (node_execution_status "a" running None);
        ShowErrorMessage "Cody cannot execute this command";
        ShellDispose;
        ShowErrorMessage "CLI Node Error: Cody cannot execute this command";
        PostMessage (node_execution_status "a" error (Some "Cody cannot execute this command"));
        PostMessage execution_completed ]
      = PostMessage execution_started :: body ++ [PostMessage execution_completed]
    ∧ ShellDispose ∈ body
    ∧ (filter (λ ev, is_failure_report ev = true) body = []
       ∨ ∃ pre ev, body = pre ++ [ev] ∧ is_failure_report ev = true
                   ∧ filter (λ ev, is_failure_report ev = true) pre = []).
Proof.
  apply (executeWorkflow_lifecycle sample_env sudo_nodes sudo_edges _ (Returned tt)).
  by_computation.
Defined.

Lemma reported_results_are_recorded_witness :
  ∃ tr' context',
    run_nodes sample_env ∅ pipeline_nodes (initial_context pipeline_nodes pipeline_edges) []
      = (tr', Returned (Next context'))
    ∧ nodeOutputs context' !! "ghost" = None
    ∧ ∃ result, nodeOutputs context' !! "p" = Some result
                ∧ completed_event (sample_node "p" PREVIEW "") result ∈ tr'.
Proof.
  eexists _, _. split; [reflexivity|].
  destruct (reported_results_are_recorded sample_env ∅ pipeline_nodes
              (initial_context pipeline_nodes pipeline_edges) _ [] _
              ltac:(decide_by_computation) eq_refl) as (_ & _ & Hkeep & Hdone).
  split.
  - refine (eq_trans (Hkeep "ghost" _) _); [decide_by_computation|done].
  - apply (Hdone (sample_node "p" PREVIEW "")); [set_solver|done].
Defined.

Lemma clean_run_completes_every_active_node_witness :
  ∃ result,
    PostMessage (node_execution_status "p" completed (Some result))
    ∈ [ PostMessage execution_started;
        PostMessage (node_execution_status "i" running None);
        PostMessage (node_execution_status "i" completed (Some "abc"));
        PostMessage (node_execution_status "p" running None);
        PostMessage (token_count "p" 3);
        PostMessage (node_execution_status "p" completed (Some "abc"));
        ShellDispose;
        PostMessage execution_completed ].
Proof.
  refine (clean_run_completes_every_active_node sample_env pipeline_nodes pipeline_edges
            pipeline_nodes _ _ _ _ (sample_node "p" PREVIEW "") _ _).
  - by_computation.
  - by_computation.
  - by_computation.
  - set_solver.
  - decide_by_computation.
Defined.

Lemma node_events_follow_running_witness :
  ∃ k, (k ≤ 4)%nat
       ∧ (executeWorkflow sample_env pipeline_nodes pipeline_edges []).1 !! k
         = Some (PostMessage (node_execution_status "p" running None)).
Proof.
  apply (node_events_follow_running sample_env pipeline_nodes pipeline_edges
           4%nat (PostMessage (token_count "p" 3)) "p"); reflexivity.
Defined.

Lemma node_reads_the_reported_results_witness :
  ∃ tr' context1,
    run_nodes sample_env ∅ [sample_node "i" INPUT "abc"]
      (initial_context pipeline_nodes pipeline_edges) [] = (tr', Returned (Next context1))
    ∧ combineParentOutputsByConnectionOrder "p" context1 = ["abc"]
    ∧ Forall2
        (λ edge input,
           (∃ parent result,
              parent ∈ [sample_node "i" INPUT "abc"] ∧ id parent = source edge
              ∧ (id parent ∉ (∅ : gset string))
              ∧ completed_event parent result ∈ tr'
              ∧ input = trim (replace_crlf result))
           ∨ ((∀ parent, parent ∈ [sample_node "i" INPUT "abc"] → id parent = source edge →
                         id parent ∈ (∅ : gset string))
              ∧ input = ""))
        (filter (λ edge, target edge = "p") pipeline_edges)
        (combineParentOutputsByConnectionOrder "p" context1).
Proof.
  eexists _, _. split; [reflexivity|]. split; [by_computation|].
  apply (node_reads_the_reported_results sample_env ∅ pipeline_nodes
           [sample_node "i" INPUT "abc"] pipeline_edges _ [] _ "p").
  - decide_by_computation.
  - reflexivity.
Defined.

(** ** CLI nodes that fail before the shell *)

Lemma all_ws_trim (s : string) : all_ws s = true → trim s = "".
Proof.
  intros Hs. unfold trim.
  assert (trimStart s = "") as ->; [|done].
  induction s as [|c s IH]; [done|]. cbn [all_ws] in Hs.
  apply andb_true_iff in Hs as [Hc Hs]. cbn [trimStart]. rewrite Hc. by apply IH.
Qed.

(** X25. A CLI node fails before anything is asked of the user or the
    shell when the workspace has no shell or is not trusted, and, in a
    supported workspace, when its command is empty or white space once the
    parent outputs are substituted: the orchestrator disposes the shell,
    reports the error as the status of the node and ends the run; the
    workspace test comes first. *)
Theorem cli_node_fails_before_the_shell (env : Collaborators) (node : WorkflowNodes)
    (context : IndexedExecutionContext) (tr : list Effect) :
  type node = CLI →
  (env_shell env = false ∨ workspace_isTrusted env = false →
   dispatch env node context tr
   = (tr ++ [ ShellDispose;
              ShowErrorMessage ("CLI Node Error: " +:+ error_message unsupported_error);
              PostMessage (node_execution_status (id node) error
                             (Some (error_message unsupported_error)));
              PostMessage execution_completed ],
      Returned None))
  ∧ (env_shell env = true →
     workspace_isTrusted env = true →
     all_ws (render node
               (sanitizeForShell <$> combineParentOutputsByConnectionOrder (id node) context))
       = true →
     dispatch env node context tr
     = (tr ++ [ ShellDispose;
                ShowErrorMessage ("CLI Node Error: " +:+ error_message empty_command_error);
                PostMessage (node_execution_status (id node) error
                               (Some (error_message empty_command_error)));
                PostMessage execution_completed ],
        Returned None)).
Proof.
  intros Ht. split.
  - intros Hguard.
    rewrite (dispatch_cli_throws env node context tr tr unsupported_error Ht); [reflexivity|].
    rewrite executeCLINode_unfold.
    assert (negb (env_shell env) || negb (workspace_isTrusted env) = true) as ->; [|done].
    destruct Hguard as [-> | ->]; [done|]. apply orb_true_r.
  - intros Hshell Htrust Hblank.
    rewrite (dispatch_cli_throws env node context tr tr empty_command_error Ht); [reflexivity|].
    rewrite executeCLINode_unfold, Hshell, Htrust. unfold cli_node_to_run.
    cbn [negb orb with_content content data]. by rewrite decide_True by (by apply all_ws_trim).
Qed.

(** ** Runs without an active node *)

Lemma topologicalSort_elem (nodes : list WorkflowNodes) (edges : list Edge)
    (out : list WorkflowNodes) (n : WorkflowNodes) :
  topologicalSort nodes edges = Some out → n ∈ out → n ∈ nodes.
Proof.
  unfold topologicalSort. destruct (sorted_ids nodes edges) as [r|]; [|done].
  intros [= <-] (i & _ & Hl)%list_elem_of_omap. by apply build_nodeIndex_elem in Hl as [Hn _].
Qed.

Lemma run_nodes_all_skipped (env : Collaborators) (inactive : gset string)
    (sortedNodes : list WorkflowNodes) (context : IndexedExecutionContext) (tr : list Effect) :
  (∀ n, n ∈ sortedNodes → id n ∈ inactive) →
  run_nodes env inactive sortedNodes context tr = (tr, Returned (Next context)).
Proof.
  induction sortedNodes as [|node rest IH]; intros Hall; [done|].
  cbn [run_nodes]. unfold execute_node. rewrite decide_True by (apply Hall; left).
  unfold mbind, Exec_bind, mret, Exec_ret. apply IH. intros n Hn. apply Hall. by right.
Qed.

(** X26. When every node is in the skip set (and so when there is no node
    at all), a run posts [execution_started], disposes the shell, posts
    [execution_completed] and returns, whatever the collaborators would
    do. *)
Theorem run_without_active_nodes (env : Collaborators) (nodes : list WorkflowNodes)
    (edges : list Edge) :
  (∀ n, n ∈ nodes → id n ∈ allInactiveNodes nodes edges) →
  executeWorkflow env nodes edges []
  = ([PostMessage execution_started; ShellDispose; PostMessage execution_completed],
     Returned tt).
Proof.
  intros Hall. unfold executeWorkflow.
  destruct (topologicalSort_total nodes edges) as [sortedNodes Hsort]. rewrite Hsort.
  rewrite run_sorted_unfold, run_nodes_all_skipped; [done|].
  intros n Hn. apply Hall. by eapply topologicalSort_elem.
Qed.

(** ** The order of the events of a run *)

Lemma split_unique {A} (a : A) (p1 s1 l1 l2 : list A) :
  a ∉ p1 → a ∉ s1 → p1 ++ a :: s1 = l1 ++ a :: l2 → l1 = p1 ∧ l2 = s1.
Proof.
  revert l1. induction p1 as [|x p1 IH]; intros l1 Hp Hs Heq.
  - destruct l1 as [|y l1]; cbn in Heq.
    + by injection Heq as ->.
    + injection Heq as <- ->. destruct Hs. set_solver.
  - destruct l1 as [|y l1]; cbn in Heq.
    + injection Heq as -> _. destruct Hp. left.
    + injection Heq as <- Heq. apply IH in Heq as [-> ->]; [done|set_solver|done].
Qed.

Lemma split_before_suffix {A} (a : A) (l suffix l1 l2 : list A) :
  a ∉ suffix → l ++ suffix = l1 ++ a :: l2 → ∃ l2', l2 = l2' ++ suffix ∧ l = l1 ++ a :: l2'.
Proof.
  intros Ha [(k & -> & Hk)|(k & -> & Hk)]%app_eq_inv.
  - destruct k as [|x k]; cbn in Hk.
    + destruct Ha. rewrite <- Hk. left.
    + injection Hk as <- ->. by exists k.
  - destruct Ha. rewrite Hk. set_solver.
Qed.

(** What a turn of the loop appends for a node that is not skipped: the
    [running] status of the node, then events that name no other node and are
    no [running] status. *)
Lemma execute_node_block (env : Collaborators) (inactive : gset string)
    (node : WorkflowNodes) (context : IndexedExecutionContext) tr tr' r :
  execute_node env inactive node context tr = (tr', r) →
  id node ∉ inactive →
  ∃ block, tr' = tr ++ running_status (id node) :: block
           ∧ Forall (λ e, concerns (id node) e ∧ ∀ j, e ≠ running_status j) block.
Proof.
  intros Hn Hact.
  assert (∀ mid, Forall (node_effect (id node)) mid →
                 Forall (λ e, concerns (id node) e ∧ ∀ j, e ≠ running_status j) mid) as Hmid.
  { intros mid Hm. eapply Forall_impl; [exact Hm|]. by intros e (? & _ & _ & ?). }
  destruct (execute_node_shape _ _ _ _ _ _ _ Hn)
    as [(Hskip & _)|(_ & mid & HP%Hmid & [(result & -> & _)|[(e & -> & _)|(e & -> & _)]])];
    [done|..].
  - eexists. split; [done|]. apply Forall_app. split; [done|].
    constructor; [|done]. unfold concerns, completed_event. cbn. naive_solver.
  - eexists. split; [done|]. apply Forall_app. split; [done|].
    unfold cli_failure_tail, failure_report, concerns. repeat constructor; cbn; try naive_solver.
  - by eexists.
Qed.

Lemma block_has_no_running (i j : string) (block : list Effect) :
  Forall (λ e, concerns i e ∧ ∀ j, e ≠ running_status j) block →
  running_status j ∉ block.
Proof.
  intros HP Hin. destruct (proj1 (Forall_forall _ _) HP _ Hin) as [_ Hno]. by apply (Hno j).
Qed.

Lemma run_nodes_names (env : Collaborators) (inactive : gset string)
    (sortedNodes : list WorkflowNodes) context tr tr' r j :
  run_nodes env inactive sortedNodes context tr = (tr', r) →
  ∃ new, tr' = tr ++ new ∧ (running_status j ∈ new → j ∈ id <$> sortedNodes).
Proof.
  intros Hrun.
  destruct (emits_run _ _ _ _ _ (run_nodes_emits env inactive sortedNodes context) Hrun)
    as (new & -> & HP).
  exists new. split; [done|]. intros Hin.
  by destruct (proj1 (Forall_forall _ _) HP _ Hin j eq_refl).
Qed.

(** Where a [running] status stands in the trace of the loop: right behind
    the trace of the nodes listed before its node, which ended normally. *)
Lemma run_nodes_running_split (env : Collaborators) (inactive : gset string)
    (sortedNodes : list WorkflowNodes) :
  ∀ context tr0 tr' r j l1 l2,
    NoDup (id <$> sortedNodes) →
    run_nodes env inactive sortedNodes context tr0 = (tr', r) →
    running_status j ∉ tr0 →
    tr' = l1 ++ running_status j :: l2 →
    (running_status j ∉ l1) ∧ (running_status j ∉ l2)
    ∧ ∃ pre n post context1,
        sortedNodes = pre ++ n :: post ∧ id n = j ∧ (id n ∉ inactive)
        ∧ run_nodes env inactive pre context tr0 = (l1, Returned (Next context1)).
Proof.
  induction sortedNodes as [|node rest IH]; intros context tr0 tr' r j l1 l2 Hnd Hrun Hfresh Heq.
  - injection Hrun as <- <-. destruct Hfresh. rewrite Heq. set_solver.
  - cbn [run_nodes] in Hrun. rewrite fmap_cons in Hnd. apply NoDup_cons in Hnd as [Hhead Hnd].
    destruct (execute_node env inactive node context tr0) as [tr1 r1] eqn:Hn.
    destruct (decide (id node ∈ inactive)) as [Hskip|Hact].
    { destruct (execute_node_shape _ _ _ _ _ _ _ Hn) as [(_ & -> & ->)|(Hact & _)]; [|done].
      rewrite (bind_Returned _ _ _ _ _ Hn) in Hrun.
      destruct (IH _ _ _ _ _ _ _ Hnd Hrun Hfresh Heq)
        as (H1 & H2 & pre & n & post & context1 & -> & Hj & Hn' & Hpre).
      split; [done|]. split; [done|]. exists (node :: pre), n, post, context1.
      split; [done|]. split; [done|]. split; [done|].
      cbn [run_nodes]. by rewrite (bind_Returned _ _ _ _ _ Hn). }
    destruct (execute_node_block _ _ _ _ _ _ _ Hn Hact) as (block & -> & Hblock).
    pose proof (block_has_no_running (id node) j block Hblock) as Hnob.
    assert (∃ new, tr' = (tr0 ++ running_status (id node) :: block) ++ new
                   ∧ (running_status j ∈ new → j ∈ id <$> rest)
                   ∧ (∀ context', r1 = Returned (Next context') →
                        run_nodes env inactive rest context'
                          (tr0 ++ running_status (id node) :: block) = (tr', r)))
      as (new & Htr' & Hnew & Hrest).
    { destruct r1 as [[context'|]|x].
      - rewrite (bind_Returned _ _ _ _ _ Hn) in Hrun.
        destruct (run_nodes_names _ _ _ _ _ _ _ j Hrun) as (new & -> & Hnames).
        exists new. split; [done|]. split; [done|]. by intros ? [= <-].
      - rewrite (bind_Returned _ _ _ _ _ Hn) in Hrun. injection Hrun as <- <-.
        exists []. rewrite app_nil_r. split; [done|]. split; [set_solver|done].
      - rewrite (bind_Threw _ _ _ _ _ Hn) in Hrun. injection Hrun as <- <-.
        exists []. rewrite app_nil_r. split; [done|]. split; [set_solver|done]. }
    destruct (decide (id node = j)) as [Hj|Hj].
    + subst j. rewrite <- app_assoc in Htr'. cbn [app] in Htr'. rewrite Htr' in Heq.
      apply split_unique in Heq as [-> ->]; [|done|].
      2: { intros [?|Hin]%elem_of_app; [done|]. by apply Hhead, Hnew. }
      split; [done|]. split.
      { intros [?|Hin]%elem_of_app; [done|]. by apply Hhead, Hnew. }
      by exists [], node, rest, context.
    + assert (running_status j ∉ tr0 ++ running_status (id node) :: block) as Hfresh1.
      { intros [?|[Heq'|?]%elem_of_cons]%elem_of_app; [done| |done].
        injection Heq' as ->. done. }
      destruct r1 as [[context'|]|x].
      * destruct (IH _ _ _ _ _ _ _ Hnd (Hrest _ eq_refl) Hfresh1 Heq)
          as (H1 & H2 & pre & n & post & context1 & -> & Hjn & Hn' & Hpre).
        split; [done|]. split; [done|]. exists (node :: pre), n, post, context1.
        split; [done|]. split; [done|]. split; [done|].
        cbn [run_nodes]. by rewrite (bind_Returned _ _ _ _ _ Hn).
      * rewrite (bind_Returned _ _ _ _ _ Hn) in Hrun. injection Hrun as <- <-.
        destruct Hfresh1. rewrite Heq. set_solver.
      * rewrite (bind_Threw _ _ _ _ _ Hn) in Hrun. injection Hrun as <- <-.
        destruct Hfresh1. rewrite Heq. set_solver.
Qed.

(** The same for a whole run. *)
Lemma executeWorkflow_running_split (env : Collaborators) (nodes : list WorkflowNodes)
    (edges : list Edge) (tr : list Effect) (r : Outcome unit) (j : string)
    (l1 l2 : list Effect) :
  NoDup (id <$> nodes) →
  executeWorkflow env nodes edges [] = (tr, r) →
  tr = l1 ++ running_status j :: l2 →
  (running_status j ∉ l1) ∧ (running_status j ∉ l2)
  ∧ ∃ pre n post context1,
      topologicalSort nodes edges = Some (pre ++ n :: post)
      ∧ id n = j ∧ (id n ∉ allInactiveNodes nodes edges)
      ∧ sources_first edges (id <$> (pre ++ n :: post))
      ∧ run_nodes env (allInactiveNodes nodes edges) pre (initial_context nodes edges)
          [PostMessage execution_started] = (l1, Returned (Next context1)).
Proof.
  intros Hnd Hrun Heq.
  destruct (topologicalSort_ids nodes edges Hnd) as (ids & out & Hids & Hout & Hmap & Hndr & _).
  destruct (sorted_ids_spec nodes edges Hnd) as (ids' & Hids' & _ & _ & Hsf & _).
  assert (ids' = ids) as -> by congruence.
  unfold executeWorkflow in Hrun. rewrite Hout, run_sorted_unfold in Hrun.
  destruct (run_nodes env _ out _ _) as [tr1 r1] eqn:Hloop.
  assert (running_status j ∉ [PostMessage execution_started]) as Hfresh by set_solver.
  assert (NoDup (id <$> out)) as Hndo by (by rewrite Hmap).
  assert (∃ l2' suffix, tr1 = l1 ++ running_status j :: l2' ∧ l2 = l2' ++ suffix
                        ∧ running_status j ∉ suffix) as (l2' & suffix & Htr1 & -> & Hsuffix).
  { destruct r1 as [[c|]|x]; injection Hrun as <- <-.
    - apply split_before_suffix in Heq as (l2' & -> & ->); [|set_solver].
      exists l2', [ShellDispose; PostMessage execution_completed]. set_solver.
    - exists l2, []. rewrite app_nil_r. set_solver.
    - exists l2, []. rewrite app_nil_r. set_solver. }
  destruct (run_nodes_running_split _ _ _ _ _ _ _ _ _ _ Hndo Hloop Hfresh Htr1)
    as (H1 & H2 & pre & n & post & context1 & -> & Hj & Hact & Hpre).
  split; [done|]. split; [set_solver|]. exists pre, n, post, context1.
  split; [done|]. split; [done|]. split; [done|]. split; [by rewrite Hmap|done].
Qed.

(** X27. In a run over nodes with distinct ids a [running] status of an id
    occurs at most once, and only for the id of an input node that is not in
    the skip set. *)
Theorem node_runs_at_most_once (env : Collaborators) (nodes : list WorkflowNodes)
    (edges : list Edge) (tr : list Effect) (r : Outcome unit) (j : string)
    (l1 l2 : list Effect) :
  NoDup (id <$> nodes) →
  executeWorkflow env nodes edges [] = (tr, r) →
  tr = l1 ++ PostMessage (node_execution_status j running None) :: l2 →
  ¬ (PostMessage (node_execution_status j running None) ∈ l1 ++ l2)
  ∧ (∃ n, n ∈ nodes ∧ id n = j)
  ∧ (j ∉ allInactiveNodes nodes edges).
Proof.
  intros Hnd Hrun Heq.
  destruct (executeWorkflow_running_split env nodes edges tr r j l1 l2 Hnd Hrun Heq)
    as (H1 & H2 & pre & n & post & context1 & Hsort & Hj & Hact & _).
  split; [unfold running_status in *; set_solver|]. split; [|by rewrite <- Hj].
  exists n. split; [|done]. eapply topologicalSort_elem; [exact Hsort|]. set_solver.
Qed.

(** X28. In a run over nodes with distinct ids, when a [running] status of
    the target of an edge is posted, a [completed] status of the source of
    the edge has been posted before, unless the source is in the skip set: a
    node starts only after each of its parents has completed. *)
Theorem parents_complete_before_a_node_starts (env : Collaborators)
    (nodes : list WorkflowNodes) (edges : list Edge) (tr : list Effect) (r : Outcome unit)
    (edge : Edge) (l1 l2 : list Effect) :
  NoDup (id <$> nodes) →
  executeWorkflow env nodes edges [] = (tr, r) →
  edge ∈ edges →
  tr = l1 ++ PostMessage (node_execution_status (target edge) running None) :: l2 →
  source edge ∉ allInactiveNodes nodes edges →
  ∃ result,
    PostMessage (node_execution_status (source edge) completed (Some result)) ∈ l1.
Proof.
  intros Hnd Hrun Hedge Heq Hact.
  destruct (executeWorkflow_running_split env nodes edges tr r (target edge) l1 l2 Hnd Hrun Heq)
    as (_ & _ & pre & n & post & context1 & Hsort & Hj & _ & Hsf & Hpre).
  rewrite fmap_app, fmap_cons in Hsf.
  pose proof (Hsf _ _ _ edge eq_refl Hedge (eq_sym Hj)) as (m & Hm & Hin)%list_elem_of_fmap.
  rewrite Hm in Hact.
  destruct (run_nodes_completes _ _ _ _ _ _ _ Hpre m Hin Hact) as [result Hdone].
  exists result. by rewrite Hm.
Qed.

Lemma cli_node_fails_before_the_shell_witness :
  dispatch untrusted_env (sample_node "a" CLI "echo hi") (initial_context [] []) []
  = ([ ShellDispose;
       ShowErrorMessage
         "CLI Node Error: Shell command is not supported in your current workspace.";
       PostMessage (node_execution_status "a" error
                      (Some "Shell command is not supported in your current workspace."));
       PostMessage execution_completed ],
     Returned None).
Proof.
  apply (cli_node_fails_before_the_shell untrusted_env (sample_node "a" CLI "echo hi")
           (initial_context [] []) [] eq_refl).
  by right.
Defined.

Lemma run_without_active_nodes_witness :
  executeWorkflow sample_env xyz_nodes xyz_edges []
  = ([PostMessage execution_started; ShellDispose; PostMessage execution_completed],
     Returned tt).
Proof.
  apply (run_without_active_nodes sample_env xyz_nodes xyz_edges).
  intros n Hn. unfold xyz_nodes in Hn.
  repeat (apply elem_of_cons in Hn as [->|Hn]); [decide_by_computation..|by inversion Hn].
Defined.

Lemma node_runs_at_most_once_witness :
  ¬ (PostMessage (node_execution_status "p" running None)
     ∈ [ PostMessage execution_started;
         PostMessage (node_execution_status "i" running None);
         PostMessage (node_execution_status "i" completed (Some "abc")) ]
       ++ [ PostMessage (token_count "p" 3);
            PostMessage (node_execution_status "p" completed (Some "abc"));
            ShellDispose;
            PostMessage execution_completed ])
  ∧ (∃ n, n ∈ pipeline_nodes ∧ id n = "p")
  ∧ ("p" ∉ allInactiveNodes pipeline_nodes pipeline_edges).
Proof.
  refine (node_runs_at_most_once sample_env pipeline_nodes pipeline_edges _ (Returned tt) "p"
            _ _ _ _ _).
  - decide_by_computation.
  - by_computation.
  - reflexivity.
Defined.

Lemma parents_complete_before_a_node_starts_witness :
  ∃ result,
    PostMessage (node_execution_status "i" completed (Some result))
    ∈ [ PostMessage execution_started;
        PostMessage (node_execution_status "i" running None);
        PostMessage (node_execution_status "i" completed (Some "abc")) ].
Proof.
  refine (parents_complete_before_a_node_starts sample_env pipeline_nodes pipeline_edges
            _ (Returned tt) (mkEdge "e" "i" "p") _
            [ PostMessage (token_count "p" 3);
              PostMessage (node_execution_status "p" completed (Some "abc"));
              ShellDispose;
              PostMessage execution_completed ] _ _ _ _ _).
  - decide_by_computation.
  - by_computation.
  - set_solver.
  - reflexivity.
  - decide_by_computation.
Defined.
